(** * impfi: the import finder's executable-format reader

    A shallow embedding of [src/impfi/impfi.cpp].  The program opens every
    file of a directory that has the requested extension, reads the DOS
    header, the NT headers and the section table straight from the byte
    stream, walks the import directory and prints the files that import one
    of the requested symbols.

    The embedding keeps the shape of the source: one definition per C++
    function, the [FILE*] cursor, standard output and the [main] loop's
    variables threaded explicitly, DWORD/WORD arithmetic with its
    wrap-around written out. *)

From Stdlib Require Import String.
From Stdlib Require Import Strings.Byte.
From Stdlib Require Import ZArith List Lia Bool.
Import ListNotations.
Local Open Scope Z_scope.

(* ===================================================================== *)
(** ** Machine integers and raw bytes *)
(* ===================================================================== *)

Module Word.

(** [DWORD] is an unsigned 32-bit integer; [long] is 32 bits wide on the
    only platform the program compiles for (it includes [Windows.h]). *)
Definition DWORD_MAX : Z := 4294967295.

Definition to_DWORD (z : Z) : Z := z mod 4294967296.

(** The cast [(long)Offset] of a DWORD. *)
Definition to_long (z : Z) : Z :=
  let w := z mod 4294967296 in
  if w <? 2147483648 then w else w - 4294967296.

Definition byte_val (b : byte) : Z := Z.of_N (Byte.to_N b).

(** Little-endian value of a byte sequence, as a field overlaid on a
    buffer is read on x86/x64/ia64. *)
Fixpoint le (bs : list byte) : Z :=
  match bs with
  | [] => 0
  | b :: rest => byte_val b + 256 * le rest
  end.

(** The [n]-byte field at byte offset [off] of a buffer. *)
Definition field (off n : nat) (buf : list byte) : Z :=
  le (firstn n (skipn off buf)).

(** The same field read as a signed 32-bit [LONG]. *)
Definition field_long (off : nat) (buf : list byte) : Z :=
  to_long (field off 4 buf).

(** A buffer of [size] bytes after [fread] stored [got] at its start:
    the bytes that were read, then what the buffer held before. *)
Definition fill (size : nat) (got old : list byte) : list byte :=
  firstn size (got ++ skipn (length got) old).

(** The [std::string] built from a [char] array: the bytes before the
    first NUL. *)
Fixpoint c_str (buf : list byte) : list byte :=
  match buf with
  | [] => []
  | b :: rest => if Byte.eqb b x00 then [] else b :: c_str rest
  end.

End Word.
Import Word.

(** 'ZM' and 'EP' are multi-character constants: the first character is the
    high byte, so that the little-endian bytes on disk spell MZ and PE. *)
Definition MZ : Z := 23117.   (* 0x5A4D *)
Definition PE : Z := 17744.   (* 0x4550 *)

(* ===================================================================== *)
(** ** The build target

    [ReadNtHeaders] is compiled for one architecture; the machine constant,
    the optional-header magic and the layout of [IMAGE_NT_HEADERS] and
    [IMAGE_THUNK_DATA] come from the Windows SDK headers for that target. *)
(* ===================================================================== *)

Inductive Target := M_X64 | M_IA64 | M_I386.

Definition IMAGE_FILE_MACHINE (t : Target) : Z :=
  match t with
  | M_X64 => 34404    (* IMAGE_FILE_MACHINE_AMD64 = 0x8664 *)
  | M_IA64 => 512     (* IMAGE_FILE_MACHINE_IA64  = 0x0200 *)
  | M_I386 => 332     (* IMAGE_FILE_MACHINE_I386  = 0x014c *)
  end.

Definition IMAGE_NT_OPTIONAL_HDR_MAGIC (t : Target) : Z :=
  match t with
  | M_X64 | M_IA64 => 523   (* 0x20b *)
  | M_I386 => 267           (* 0x10b *)
  end.

(** [sizeof(IMAGE_NT_HEADERS)]: signature, file header, optional header. *)
Definition sizeof_NT_HEADERS (t : Target) : nat :=
  match t with
  | M_X64 | M_IA64 => 264
  | M_I386 => 248
  end.

(** Byte offset, inside [IMAGE_NT_HEADERS], of
    [OptionalHeader.DataDirectory[IMAGE_DIRECTORY_ENTRY_IMPORT]]. *)
Definition offsetof_IMPORT_DIRECTORY (t : Target) : nat :=
  match t with
  | M_X64 | M_IA64 => 144
  | M_I386 => 128
  end.

Definition sizeof_THUNK_DATA (t : Target) : Z :=
  match t with
  | M_X64 | M_IA64 => 8
  | M_I386 => 4
  end.

Definition sizeof_DOS_HEADER : Z := 64.
Definition sizeof_SECTION_HEADER : Z := 40.
Definition sizeof_IMPORT_DESCRIPTOR : Z := 20.
Definition sizeof_Name : Z := 32.

(* ===================================================================== *)
(** ** Structures overlaid on the byte stream *)
(* ===================================================================== *)

(** [IMAGE_DOS_HEADER]: the magic number, and the 62 bytes from [e_cblp] to
    [e_lfanew] that [ReadNtHeaders] reads in one block. *)
Record IMAGE_DOS_HEADER := mkDos {
  e_magic : Z;
  e_tail : list byte
}.

Definition e_lfanew (d : IMAGE_DOS_HEADER) : Z := field_long 58 (e_tail d).

(** [IMAGE_NT_HEADERS] is kept as the raw bytes [fread] stored. *)
Definition IMAGE_NT_HEADERS := list byte.

Definition Signature (nt : IMAGE_NT_HEADERS) : Z := field 0 4 nt.
Definition Machine (nt : IMAGE_NT_HEADERS) : Z := field 4 2 nt.
Definition NumberOfSections (nt : IMAGE_NT_HEADERS) : Z := field 6 2 nt.
Definition OptionalMagic (nt : IMAGE_NT_HEADERS) : Z := field 24 2 nt.
Definition ImportDirectoryVirtualAddress (t : Target) (nt : IMAGE_NT_HEADERS) : Z :=
  field (offsetof_IMPORT_DIRECTORY t) 4 nt.
Definition ImportDirectorySize (t : Target) (nt : IMAGE_NT_HEADERS) : Z :=
  field (offsetof_IMPORT_DIRECTORY t + 4) 4 nt.

(** The fields of [IMAGE_SECTION_HEADER] the program reads. *)
Record IMAGE_SECTION_HEADER := mkSection {
  VirtualSize : Z;
  VirtualAddress : Z;
  PointerToRawData : Z
}.

Definition decode_section (raw : list byte) : IMAGE_SECTION_HEADER :=
  {| VirtualSize := field 8 4 raw;
     VirtualAddress := field 12 4 raw;
     PointerToRawData := field 20 4 raw |}.

(** The fields of [IMAGE_IMPORT_DESCRIPTOR] the program reads. *)
Record IMAGE_IMPORT_DESCRIPTOR := mkDescriptor {
  Name : Z;
  FirstThunk : Z
}.

Definition decode_descriptor (raw : list byte) : IMAGE_IMPORT_DESCRIPTOR :=
  {| Name := field 12 4 raw;
     FirstThunk := field 16 4 raw |}.

(** [(DWORD)Thunk.u1.AddressOfData]: the low 32 bits of the thunk entry. *)
Definition AddressOfData (raw : list byte) : Z := field 0 4 raw.

(** A name as the program stores it: [Name[sizeof(Name) - 1] = 0], then the
    conversion of the array to [std::string]. *)
Definition stored_name (buf : list byte) : list byte :=
  c_str (firstn 31 buf ++ [x00]).

(* ===================================================================== *)
(** ** Address resolution: [SectionRvaFileOffset] *)
(* ===================================================================== *)

(** The test of the loop body, in DWORD arithmetic. *)
Definition section_hit (s : IMAGE_SECTION_HEADER) (Rva : Z) : bool :=
  (VirtualAddress s <=? Rva) &&
  (Rva <? to_DWORD (VirtualAddress s + VirtualSize s)).

Definition section_offset (s : IMAGE_SECTION_HEADER) (Rva : Z) : Z :=
  to_DWORD ((Rva - VirtualAddress s) + PointerToRawData s).

Fixpoint scan_sections (Sections : list IMAGE_SECTION_HEADER) (Rva : Z) : Z :=
  match Sections with
  | [] => 0
  | s :: rest =>
      if section_hit s Rva then section_offset s Rva
      else scan_sections rest Rva
  end.

(** The loop runs over the indices below [FileHeader->NumberOfSections];
    every caller passes the vector [ReadSections] filled from that very
    count, so the indices are those of the vector. *)
Definition SectionRvaFileOffset (FileHeader_NumberOfSections : Z)
    (Sections : list IMAGE_SECTION_HEADER) (Rva : Z) : Z :=
  scan_sections (firstn (Z.to_nat FileHeader_NumberOfSections) Sections) Rva.

(* ===================================================================== *)
(** ** The world of one run: the open file, standard output, call log *)
(* ===================================================================== *)

(** What a call of [SectionRvaFileOffset] in [ReadImportDescriptors]
    resolves. *)
Inductive Purpose := ImportDirectory | DllName | FirstThunkArray | ThunkValue.

(** The log of address resolutions and of [fseek(f, offset, SEEK_SET)]
    calls, in program order.  It is ghost state: the program does not keep
    it, the statements about what is passed to the resolver need it. *)
Inductive Call :=
| Resolve (what : Purpose) (Rva : Z) (Offset : Z)
| Seek (offset : Z).

(** What the program prints: the usage text, the [printf] diagnostics, and
    the block that
    [main] sends to [std::cout] for a file with matches (the header line
    with the running index, the path, the size and the count, then the
    matched names collected in [oss]).  The size is kept in bytes; its
    rendering in kilobytes is formatting. *)
Inductive Output :=
| Usage
| Diagnostic (Path : string) (text : string)
| DiagnosticSection (Path : string) (i : Z)
| ScanResult (index : Z) (Path : string) (SizeInBytes : Z)
             (importCount : Z) (listing : list (list byte)).

Record World := mkWorld {
  file : list byte;      (* contents of the stream [f] *)
  cur : Z;               (* its position indicator *)
  stdout : list Output;
  calls : list Call
}.

(** State passing with a failure for loops that run out of fuel; the
    totality lemmas below show that it never happens with the fuel the
    program is given. *)
Definition IO (A : Type) : Type := World -> option (A * World).

Definition ret {A} (a : A) : IO A := fun w => Some (a, w).

Definition bind {A B} (m : IO A) (k : A -> IO B) : IO B :=
  fun w => match m w with
           | Some (a, w') => k a w'
           | None => None
           end.

Definition out_of_fuel {A} : IO A := fun _ => None.

Declare Scope io_scope.
Delimit Scope io_scope with io.
Notation "x <- m ;; k" := (bind m (fun x => k))
  (at level 61, m at next level, right associativity) : io_scope.
Notation "' pat <- m ;; k" := (bind m (fun x => match x with pat => k end))
  (at level 61, pat pattern, m at next level, right associativity) : io_scope.
Notation "m ;; k" := (bind m (fun _ => k))
  (at level 61, right associativity) : io_scope.
Local Open Scope io_scope.

Definition set_cur (w : World) (p : Z) : World :=
  {| file := file w; cur := p; stdout := stdout w; calls := calls w |}.

Definition log_call (c : Call) (w : World) : World :=
  {| file := file w; cur := cur w; stdout := stdout w;
     calls := calls w ++ [c] |}.

Definition print (o : Output) : IO unit := fun w =>
  Some (tt, {| file := file w; cur := cur w; stdout := stdout w ++ [o];
               calls := calls w |}).

Definition printf (Path text : string) : IO unit :=
  print (Diagnostic Path text).

(** [fopen_s(&f, Path, "rb")] on a file that can be opened. *)
Definition fopen (contents : list byte) : IO unit := fun w =>
  Some (tt, {| file := contents; cur := 0; stdout := stdout w;
               calls := calls w |}).

(** [fseek(f, offset, SEEK_SET)] as the C runtime does it: a negative
    offset is refused and leaves the position alone; any other offset is
    accepted, also past the end, where the next read finds nothing. *)
Definition fseek (offset : Z) : IO Z := fun w =>
  let w := log_call (Seek offset) w in
  if offset <? 0 then Some (-1, w) else Some (0, set_cur w offset).

(** [fread(buf, size, 1, f)]: the count returned (1 when [size] bytes were
    there, else 0) and the bytes that reached the buffer; the position
    moves past the bytes read. *)
Definition fread (size : Z) : IO (Z * list byte) := fun w =>
  let got := firstn (Z.to_nat size) (skipn (Z.to_nat (cur w)) (file w)) in
  if Z.of_nat (length got) =? size
  then Some ((1, got), set_cur w (cur w + size))
  else Some ((0, got), set_cur w (cur w + Z.of_nat (length got))).

(** [fclose(f)]: no stream is open any more. *)
Definition fclose : IO unit := fun w =>
  Some (tt, {| file := []; cur := 0; stdout := stdout w; calls := calls w |}).

(** [long] is 32 bits wide. *)
Definition LONG_MAX : Z := 2147483647.

(** [ftell(f)]: the position, or -1 when it does not fit the [long] that
    [ftell] returns (the C runtime then fails with [EINVAL]). *)
Definition ftell : IO Z := fun w =>
  Some ((if cur w <=? LONG_MAX then cur w else -1), w).

(** [rewind(f); fseek(f, 0, SEEK_END); ftell(f)]: the value that is
    stored in the [long] [SizeInBytes]. *)
Definition file_size : IO Z := fun w =>
  ftell (set_cur w (Z.of_nat (length (file w)))).

Definition file_length : IO nat := fun w => Some (length (file w), w).

(** A call of [SectionRvaFileOffset], recorded in the log. *)
Definition resolve (what : Purpose) (FileHeader_NumberOfSections : Z)
    (Sections : list IMAGE_SECTION_HEADER) (Rva : Z) : IO Z := fun w =>
  let Offset := SectionRvaFileOffset FileHeader_NumberOfSections Sections Rva in
  Some (Offset, log_call (Resolve what Rva Offset) w).

(* ===================================================================== *)
(** ** Header validation *)
(* ===================================================================== *)

Definition ReadMagicNumber (Path : string) (DosHeader : IMAGE_DOS_HEADER)
  : IO (Z * IMAGE_DOS_HEADER) :=
  let DosHeader := {| e_magic := 0; e_tail := e_tail DosHeader |} in
  '(count, got) <- fread 2 ;;
  let DosHeader := {| e_magic := le (fill 2 got [x00; x00]);
                      e_tail := e_tail DosHeader |} in
  if negb (count =? 1) then
    printf Path "Too small to read magic number from DOS header" ;;
    ret (1, DosHeader)
  else if negb (e_magic DosHeader =? MZ) then
    printf Path "Incorrect magic number from DOS header" ;;
    ret (2, DosHeader)
  else ret (0, DosHeader).

Definition ReadNtHeaders (t : Target) (Path : string)
    (DosHeader : IMAGE_DOS_HEADER) (NtHeaders : IMAGE_NT_HEADERS)
  : IO (Z * IMAGE_DOS_HEADER * IMAGE_NT_HEADERS) :=
  let DosHeader := {| e_magic := e_magic DosHeader;
                      e_tail := repeat x00 62 |} in
  '(count, got) <- fread (sizeof_DOS_HEADER - 2) ;;
  let DosHeader := {| e_magic := e_magic DosHeader;
                      e_tail := fill 62 got (e_tail DosHeader) |} in
  if negb (count =? 1) then
    printf Path "DOS header incomplete after magic number" ;;
    ret (1, DosHeader, NtHeaders)
  else
    r <- fseek (e_lfanew DosHeader) ;;
    if negb (r =? 0) then
      printf Path "NT header not found" ;;
      ret (2, DosHeader, NtHeaders)
    else
      '(count, got) <- fread (Z.of_nat (sizeof_NT_HEADERS t)) ;;
      let NtHeaders := fill (sizeof_NT_HEADERS t) got NtHeaders in
      if negb (count =? 1) then
        printf Path "NT headers incomplete" ;;
        ret (3, DosHeader, NtHeaders)
      else if negb (Signature NtHeaders =? PE) then
        printf Path "Incorrect NT header signature" ;;
        ret (4, DosHeader, NtHeaders)
      else if negb (Machine NtHeaders =? IMAGE_FILE_MACHINE t) then
        (* Fail silently to ignore architectures that are not targeted *)
        ret (5, DosHeader, NtHeaders)
      else if negb (OptionalMagic NtHeaders =? IMAGE_NT_OPTIONAL_HDR_MAGIC t) then
        printf Path "Optional header magic number is inconsistent with NT header architecture, corrupted?" ;;
        ret (6, DosHeader, NtHeaders)
      else ret (0, DosHeader, NtHeaders).

(* ===================================================================== *)
(** ** The section table *)
(* ===================================================================== *)

(** The loop of [ReadSections]: [n] sections are still to be read, [i] is
    the loop counter. *)
Fixpoint ReadSections_loop (Path : string) (n : nat) (i : Z)
    (Sections : list IMAGE_SECTION_HEADER)
  : IO (Z * list IMAGE_SECTION_HEADER) :=
  match n with
  | O => ret (0, Sections)
  | S n' =>
      '(count, raw) <- fread sizeof_SECTION_HEADER ;;
      if negb (count =? 1) then
        print (DiagnosticSection Path i) ;;
        ret (1, Sections)
      else
        ReadSections_loop Path n' (i + 1) (Sections ++ [decode_section raw])
  end.

Definition ReadSections (Path : string) (FileHeader_NumberOfSections : Z)
    (Sections : list IMAGE_SECTION_HEADER)
  : IO (Z * list IMAGE_SECTION_HEADER) :=
  let Sections := @nil IMAGE_SECTION_HEADER in   (* Sections.clear() *)
  ReadSections_loop Path (Z.to_nat FileHeader_NumberOfSections) 0 Sections.

(* ===================================================================== *)
(** ** The import table walker: [ReadImportDescriptors] *)
(* ===================================================================== *)

(** [Size / sizeof(IMAGE_IMPORT_DESCRIPTOR) - 1], stored in a DWORD. *)
Definition NumberOfEntries (Size : Z) : Z :=
  to_DWORD (Size / sizeof_IMPORT_DESCRIPTOR - 1).

(** The first loop: read the descriptors one after the other. *)
Fixpoint ReadDescriptors_loop (fuel : nat) (Path : string) (i n : Z)
    (ImportDescriptors : list IMAGE_IMPORT_DESCRIPTOR)
  : IO (Z * list IMAGE_IMPORT_DESCRIPTOR) :=
  if i <? n then
    match fuel with
    | O => out_of_fuel
    | S fuel' =>
        '(count, raw) <- fread sizeof_IMPORT_DESCRIPTOR ;;
        if negb (count =? 1) then
          printf Path "File too small to read import descriptor" ;;
          ret (2, ImportDescriptors)
        else
          ReadDescriptors_loop fuel' Path (i + 1) n
            (ImportDescriptors ++ [decode_descriptor raw])
    end
  else ret (0, ImportDescriptors).

(** How one turn of the [for ( ;; )] loop over a thunk array ends. *)
Inductive Turn :=
| Break
| Return (code : Z)
| Continue (ThunkOffset : Z) (names : list (list byte)).

(** One turn: [names] is [ImportThunkNames.back()]. *)
Definition ThunkTurn (t : Target) (Path : string) (nsec : Z)
    (Sections : list IMAGE_SECTION_HEADER) (ThunkOffset : Z)
    (names : list (list byte)) : IO Turn :=
  r <- fseek (to_long ThunkOffset) ;;
  if negb (r =? 0) then
    printf Path "Import descriptor first thunk not found" ;;
    ret (Return 5)
  else
    '(count, Thunk) <- fread (sizeof_THUNK_DATA t) ;;
    if negb (count =? 1) then
      printf Path "File too small to read first thunk from file descriptor" ;;
      ret (Return 6)
    else
      Offset <- resolve ThunkValue nsec Sections (AddressOfData Thunk) ;;
      (* Skip hint *)
      r <- fseek (to_long Offset) ;;
      if negb (r =? 0) then
        printf Path "Thunk name not found" ;;
        ret (Return 7)
      else
        '(count, Hint) <- fread 2 ;;
        if negb (count =? 1) then
          printf Path "File too small to read thunk hint from thunk name" ;;
          ret (Return 8)
        else if le Hint =? MZ then
          (* Import by name hint is MZ at the last hunk *)
          ret Break
        else
          '(count, buf) <- fread sizeof_Name ;;
          if negb (count =? 1) then
            printf Path "File too small to read thunk name from thunk" ;;
            ret (Return 9)
          else
            ret (Continue (to_DWORD (ThunkOffset + sizeof_THUNK_DATA t))
                          (names ++ [stored_name buf])).

(** The [for ( ;; )] loop.  The code returned is 0 when the loop was left
    by [break], otherwise the value [ReadImportDescriptors] returns. *)
Fixpoint ThunkWalk (fuel : nat) (t : Target) (Path : string) (nsec : Z)
    (Sections : list IMAGE_SECTION_HEADER) (ThunkOffset : Z)
    (names : list (list byte)) : IO (Z * list (list byte)) :=
  match fuel with
  | O => out_of_fuel
  | S fuel' =>
      turn <- ThunkTurn t Path nsec Sections ThunkOffset names ;;
      match turn with
      | Break => ret (0, names)
      | Return code => ret (code, names)
      | Continue ThunkOffset' names' =>
          ThunkWalk fuel' t Path nsec Sections ThunkOffset' names'
      end
  end.

(** The second loop, over the descriptors read by the first one (it runs
    over the same [NumberOfEntries] indices that the first loop pushed). *)
Fixpoint ReadNames_loop (fuel : nat) (t : Target) (Path : string) (nsec : Z)
    (Sections : list IMAGE_SECTION_HEADER)
    (todo : list IMAGE_IMPORT_DESCRIPTOR)
    (ImportDllNames : list (list byte))
    (ImportThunkNames : list (list (list byte)))
  : IO (Z * list (list byte) * list (list (list byte))) :=
  match todo with
  | [] => ret (0, ImportDllNames, ImportThunkNames)
  | d :: rest =>
      Offset <- resolve DllName nsec Sections (Name d) ;;
      r <- fseek (to_long Offset) ;;
      if negb (r =? 0) then
        printf Path "Import descriptor name not found" ;;
        ret (3, ImportDllNames, ImportThunkNames)
      else
        '(count, buf) <- fread sizeof_Name ;;
        if negb (count =? 1) then
          printf Path "File too small to read import descriptor name" ;;
          ret (4, ImportDllNames, ImportThunkNames)
        else
          let ImportDllNames := ImportDllNames ++ [stored_name buf] in
          ThunkOffset <- resolve FirstThunkArray nsec Sections (FirstThunk d) ;;
          '(code, names) <- ThunkWalk fuel t Path nsec Sections ThunkOffset [] ;;
          let ImportThunkNames := ImportThunkNames ++ [names] in
          if negb (code =? 0) then
            ret (code, ImportDllNames, ImportThunkNames)
          else
            ReadNames_loop fuel t Path nsec Sections rest
              ImportDllNames ImportThunkNames
  end.

(** The three output vectors of [ReadImportDescriptors]. *)
Record Imports := mkImports {
  ImportDescriptors : list IMAGE_IMPORT_DESCRIPTOR;
  ImportDllNames : list (list byte);
  ImportThunkNames : list (list (list byte))
}.

(** Both loops get as fuel one turn more than the file has bytes: every
    turn that does not leave its loop has read bytes further on in the
    file. *)
Definition ReadImportDescriptors (t : Target) (Path : string)
    (NtHeaders : IMAGE_NT_HEADERS) (Sections : list IMAGE_SECTION_HEADER)
    (old : Imports) : IO (Z * Imports) :=
  let nsec := NumberOfSections NtHeaders in
  let n := NumberOfEntries (ImportDirectorySize t NtHeaders) in
  Offset <- resolve ImportDirectory nsec Sections
              (ImportDirectoryVirtualAddress t NtHeaders) ;;
  r <- fseek (to_long Offset) ;;
  if negb (r =? 0) then
    printf Path "Import descriptor not found" ;;
    ret (1, mkImports [] [] [])
  else
    len <- file_length ;;
    '(code, descs) <- ReadDescriptors_loop (S len) Path 0 n [] ;;
    if negb (code =? 0) then ret (code, mkImports descs [] [])
    else
      '(code, dlls, thunks) <-
         ReadNames_loop (S len) t Path nsec Sections descs [] [] ;;
      ret (code, mkImports descs dlls thunks).

(* ===================================================================== *)
(** ** The scanner: the loop of [main] *)
(* ===================================================================== *)

Fixpoint name_eqb (a b : list byte) : bool :=
  match a, b with
  | [], [] => true
  | x :: a', y :: b' => Byte.eqb x y && name_eqb a' b'
  | _, _ => false
  end.

(** The innermost loop, over the requested imports, for one symbol name.
    [oss] collects the printed names, [importCount] counts. *)
Fixpoint match_imports (numImports : Z) (name : list byte)
    (ppszImports : list (list byte)) (oss : list (list byte))
    (importCount : Z) : list (list byte) * Z :=
  match ppszImports with
  | [] => (oss, importCount)
  | imp :: rest =>
      if name_eqb name imp then
        match_imports numImports name rest
          (if 1 <? numImports then oss ++ [imp] else oss) (importCount + 1)
      else match_imports numImports name rest oss importCount
  end.

(** The loop over the symbols of one DLL. *)
Fixpoint match_names (numImports : Z) (names : list (list byte))
    (ppszImports : list (list byte)) (oss : list (list byte))
    (importCount : Z) : list (list byte) * Z :=
  match names with
  | [] => (oss, importCount)
  | name :: rest =>
      let '(oss', importCount') :=
        match_imports numImports name ppszImports oss importCount in
      match_names numImports rest ppszImports oss' importCount'
  end.

(** The loop over the DLLs. *)
Fixpoint match_dlls (numImports : Z) (ImportThunkNames : list (list (list byte)))
    (ppszImports : list (list byte)) (oss : list (list byte))
    (importCount : Z) : list (list byte) * Z :=
  match ImportThunkNames with
  | [] => (oss, importCount)
  | names :: rest =>
      let '(oss', importCount') :=
        match_names numImports names ppszImports oss importCount in
      match_dlls numImports rest ppszImports oss' importCount'
  end.

(** The variables of [main] that live across the files.  The two string
    streams, [importCount] and [SizeInBytes] are set anew before every use
    and are values of the loop body here; [importCount] is an [int] that
    stays far below its bound for files that fit a [long] offset. *)
Record MainVars := mkVars {
  DosHeader : IMAGE_DOS_HEADER;
  NtHeaders : IMAGE_NT_HEADERS;
  Sections : list IMAGE_SECTION_HEADER;
  imports : Imports;
  numResults : Z
}.

(** A directory entry: its path, the extension of the path, and the bytes
    of the file when it can be opened for reading. *)
Record DirEntry := mkEntry {
  path : string;
  extension : string;
  contents : option (list byte)
}.

(** Which way the body of the loop was left.  It is ghost information: the
    program only acts on it by going on to the next entry. *)
Inductive Verdict :=
| WrongExtension
| NotOpened
| BadMagic (r : Z)
| BadHeaders (r : Z)
| BadSections (r : Z)
| BadImports (r : Z)
| NoMatch
| Reported.

(** The body of the [for] loop of [main], for one directory entry. *)
Definition ScanFile (t : Target) (pszExtension : string)
    (ppszImports : list (list byte)) (dirEntry : DirEntry) (v : MainVars)
  : IO (Verdict * MainVars) :=
  let numImports := Z.of_nat (length ppszImports) in
  if negb (String.eqb (extension dirEntry) pszExtension) then
    ret (WrongExtension, v)
  else
    let Path := path dirEntry in
    match contents dirEntry with
    | None => ret (NotOpened, v)
    | Some bytes =>
        fopen bytes ;;
        '(r, Dos) <- ReadMagicNumber Path (DosHeader v) ;;
        let v := mkVars Dos (NtHeaders v) (Sections v) (imports v) (numResults v) in
        if negb (r =? 0) then fclose ;; ret (BadMagic r, v)
        else
          '(r, Dos, Nt) <- ReadNtHeaders t Path (DosHeader v) (NtHeaders v) ;;
          let v := mkVars Dos Nt (Sections v) (imports v) (numResults v) in
          if negb (r =? 0) then fclose ;; ret (BadHeaders r, v)
          else
            '(r, Secs) <- ReadSections Path (NumberOfSections (NtHeaders v))
                            (Sections v) ;;
            let v := mkVars (DosHeader v) (NtHeaders v) Secs (imports v)
                            (numResults v) in
            if negb (r =? 0) then fclose ;; ret (BadSections r, v)
            else
              '(r, imps) <- ReadImportDescriptors t Path (NtHeaders v)
                              (Sections v) (imports v) ;;
              let v := mkVars (DosHeader v) (NtHeaders v) (Sections v) imps
                              (numResults v) in
              if negb (r =? 0) then fclose ;; ret (BadImports r, v)
              else
                let '(oss, importCount) :=
                  match_dlls numImports (ImportThunkNames (imports v))
                             ppszImports [] 0 in
                if negb (importCount =? 0) then
                  SizeInBytes <- file_size ;;
                  print (ScanResult (numResults v) Path SizeInBytes
                                    importCount oss) ;;
                  fclose ;;
                  ret (Reported,
                       mkVars (DosHeader v) (NtHeaders v) (Sections v)
                              (imports v) (numResults v + 1))
                else fclose ;; ret (NoMatch, v)
    end.

(** The [for] loop over the directory. *)
Fixpoint Scan (t : Target) (pszExtension : string)
    (ppszImports : list (list byte)) (dir : list DirEntry) (v : MainVars)
  : IO MainVars :=
  match dir with
  | [] => ret v
  | dirEntry :: rest =>
      '(_, v') <- ScanFile t pszExtension ppszImports dirEntry v ;;
      Scan t pszExtension ppszImports rest v'
  end.

(** The state [main] starts from: both headers are uninitialised locals
    (whatever bytes [DosHeader0] and [NtHeaders0] hold), the vectors are
    empty and no result has been numbered. *)
Definition initial_vars (DosHeader0 : IMAGE_DOS_HEADER)
    (NtHeaders0 : IMAGE_NT_HEADERS) : MainVars :=
  mkVars DosHeader0 NtHeaders0 [] (mkImports [] [] []) 0.

Definition initial_world : World := mkWorld [] 0 [] [].

(** The loop of [main] from its initial state: what it has printed when
    the directory has been walked. *)
Definition scan_directory (t : Target) (DosHeader0 : IMAGE_DOS_HEADER)
    (NtHeaders0 : IMAGE_NT_HEADERS) (dir : list DirEntry)
    (pszExtension : string) (ppszImports : list (list byte))
  : option (list Output) :=
  match Scan t pszExtension ppszImports dir
          (initial_vars DosHeader0 NtHeaders0) initial_world with
  | Some (_, w) => Some (stdout w)
  | None => None
  end.

(** [main], called with a directory and an extension: without a requested
    import ([argc < 4]) it prints the usage text, otherwise it walks the
    directory. *)
Definition main (t : Target) (DosHeader0 : IMAGE_DOS_HEADER)
    (NtHeaders0 : IMAGE_NT_HEADERS) (dir : list DirEntry)
    (pszExtension : string) (ppszImports : list (list byte))
  : option (list Output) :=
  match ppszImports with
  | [] => Some [Usage]
  | _ :: _ =>
      scan_directory t DosHeader0 NtHeaders0 dir pszExtension ppszImports
  end.

(* ===================================================================== *)
(** ** Test images *)
(* ===================================================================== *)

Module Image.

Definition byte_of (z : Z) : byte :=
  match Byte.of_N (Z.to_N (z mod 256)) with
  | Some x => x
  | None => x00
  end.

(** [n] bytes, little endian. *)
Fixpoint bytes_le (n : nat) (v : Z) : list byte :=
  match n with
  | O => []
  | S n' => byte_of v :: bytes_le n' (v / 256)
  end.

Definition text (s : string) : list byte := list_byte_of_string s.

Definition put (buf : list byte) (patch : nat * list byte) : list byte :=
  let '(off, new) := patch in
  firstn off buf ++ new ++ skipn (off + length new) buf.

(** A 64-bit image of [len] bytes: the DOS header with [e_lfanew = 64],
    the NT headers for AMD64 with the given import directory, one section
    header, and the [patches] laid over the rest. *)
Definition image_x64 (machine : Z) (sec : IMAGE_SECTION_HEADER)
    (dirVA dirSize : Z) (patches : list (nat * list byte)) (len : nat)
  : list byte :=
  fold_left put
    ([ (0%nat, text "MZ"); (60%nat, bytes_le 4 64);
       (64%nat, text "PE"); (68%nat, bytes_le 2 machine);
       (70%nat, bytes_le 2 1); (88%nat, bytes_le 2 523);
       (208%nat, bytes_le 4 dirVA); (212%nat, bytes_le 4 dirSize);
       (336%nat, bytes_le 4 (VirtualSize sec));
       (340%nat, bytes_le 4 (VirtualAddress sec));
       (348%nat, bytes_le 4 (PointerToRawData sec)) ] ++ patches)
    (repeat x00 len).

(** The section used by the well-formed images: addresses 0x1000..0x11ff
    are the file offsets 0x200..0x3ff. *)
Definition idata : IMAGE_SECTION_HEADER :=
  {| VirtualSize := 512; VirtualAddress := 4096; PointerToRawData := 512 |}.

(** [ntoskrnl.exe] with [IoCreateDevice] and [ZwOpenProcess], the thunk
    array closed by a zero entry. *)
Definition driver_patches : list (nat * list byte) :=
  [ (524%nat, bytes_le 4 4160);        (* descriptor 0: Name       *)
    (528%nat, bytes_le 4 4192);        (* descriptor 0: FirstThunk *)
    (576%nat, text "ntoskrnl.exe");
    (608%nat, bytes_le 8 4224);        (* thunk 0 *)
    (616%nat, bytes_le 8 4288);        (* thunk 1 *)
    (624%nat, bytes_le 8 0);           (* thunk 2: zero *)
    (640%nat, bytes_le 2 0 ++ text "IoCreateDevice");
    (704%nat, bytes_le 2 1 ++ text "ZwOpenProcess") ].

Definition driver_sys : list byte :=
  image_x64 34404 idata 4096 40 driver_patches 768.

(** A well-formed image without imports: the import directory has
    address 0 and size 0. *)
Definition no_imports_sys : list byte :=
  image_x64 34404 idata 0 0 [] 768.

(** The same driver built for another machine (i386 in the file header). *)
Definition foreign_sys : list byte :=
  image_x64 332 idata 4096 40 driver_patches 768.

(** A file that is no executable. *)
Definition readme_sys : list byte := text "plain text".

(** An image whose only section starts at address 0 (addresses 0..0xfff
    are the file offsets 0x200..0x11ff), so that address 0 is mapped: at
    its offset stands an import-by-name structure named [Ghost]. *)
Definition low_section : IMAGE_SECTION_HEADER :=
  {| VirtualSize := 4096; VirtualAddress := 0; PointerToRawData := 512 |}.

Definition zero_mapped_sys : list byte :=
  image_x64 34404 low_section 64 40
    [ (512%nat, bytes_le 2 0 ++ text "Ghost");
      (588%nat, bytes_le 4 128);       (* descriptor 0: Name       *)
      (592%nat, bytes_le 4 192);       (* descriptor 0: FirstThunk *)
      (640%nat, text "ntoskrnl.exe");
      (704%nat, bytes_le 8 256);       (* thunk 0 *)
      (712%nat, bytes_le 8 0);         (* thunk 1: zero *)
      (768%nat, bytes_le 2 0 ++ text "IoCreateDevice") ]
    1024.

(** The DLL name [ntoskrnl.exe] and its terminator are the last 13 bytes
    of the file. *)
Definition dll_name_at_end_sys : list byte :=
  image_x64 34404 idata 4096 40
    [ (524%nat, bytes_le 4 4211);
      (528%nat, bytes_le 4 4192);
      (627%nat, text "ntoskrnl.exe") ]
    640.

(** The hint, the symbol name [IoCreateDevice] and its terminator are the
    last 17 bytes of the file. *)
Definition symbol_name_at_end_sys : list byte :=
  image_x64 34404 idata 4096 40
    [ (524%nat, bytes_le 4 4160);
      (528%nat, bytes_le 4 4192);
      (576%nat, text "ntoskrnl.exe");
      (608%nat, bytes_le 8 4335);
      (751%nat, bytes_le 2 0 ++ text "IoCreateDevice") ]
    768.

(** A name of [n] letters. *)
Definition letters (n : nat) : list byte := repeat "A"%byte n.

(** One directory entry with the extension [.sys]. *)
Definition sys_file (name : string) (bytes : list byte) : DirEntry :=
  {| path := name; extension := ".sys"; contents := Some bytes |}.

(** A run of the x64 build over a directory, looking for [names]. *)
Definition run (dir : list DirEntry) (names : list string)
  : option (list Output) :=
  main M_X64 (mkDos 0 []) [] dir ".sys" (map text names).

End Image.

(** The NT headers of the driver image, as [ReadNtHeaders] stores them. *)
Definition driver_NtHeaders : IMAGE_NT_HEADERS :=
  firstn 264 (skipn 64 Image.driver_sys).

(* ===================================================================== *)
(** ** What the walker finds in a file

    Pure readings of the file, used to state what the loops do. *)
(* ===================================================================== *)

(** The [size] bytes at [offset], when [fseek] to [offset] and an [fread]
    of [size] bytes both succeed. *)
Definition bytes_at (f : list byte) (offset size : Z) : option (list byte) :=
  if offset <? 0 then None
  else
    let got := firstn (Z.to_nat size) (skipn (Z.to_nat offset) f) in
    if Z.of_nat (length got) =? size then Some got else None.

(** The value of the thunk entry at [ThunkOffset], as the walker uses it. *)
Definition thunk_value (t : Target) (f : list byte) (ThunkOffset : Z)
  : option Z :=
  option_map AddressOfData
    (bytes_at f (to_long ThunkOffset) (sizeof_THUNK_DATA t)).

(** The hint of the import-by-name structure that entry resolves to. *)
Definition thunk_hint (t : Target) (nsec : Z)
    (Sections : list IMAGE_SECTION_HEADER) (f : list byte) (ThunkOffset : Z)
  : option Z :=
  match thunk_value t f ThunkOffset with
  | Some v =>
      option_map le
        (bytes_at f (to_long (SectionRvaFileOffset nsec Sections v)) 2)
  | None => None
  end.

(** The 32 bytes that follow the hint. *)
Definition thunk_name_buffer (t : Target) (nsec : Z)
    (Sections : list IMAGE_SECTION_HEADER) (f : list byte) (ThunkOffset : Z)
  : option (list byte) :=
  match thunk_value t f ThunkOffset with
  | Some v =>
      bytes_at f (to_long (SectionRvaFileOffset nsec Sections v) + 2)
               sizeof_Name
  | None => None
  end.

(** The offset of the [k]-th entry of the thunk array at [ThunkOffset]. *)
Definition entry_offset (t : Target) (ThunkOffset : Z) (k : nat) : Z :=
  to_DWORD (ThunkOffset + Z.of_nat k * sizeof_THUNK_DATA t).

(** The thunk array at [ThunkOffset] gives the symbol names [syms]: its
    entries 0, 1, ... below [length syms] have a hint other than 'MZ' and a
    name buffer that can be read, of which [syms] holds the stored names in
    order, and the entry after them has the hint 'MZ'. *)
Definition names_before_sentinel (t : Target) (nsec : Z)
    (Sections : list IMAGE_SECTION_HEADER) (f : list byte) (ThunkOffset : Z)
    (syms : list (list byte)) : Prop :=
  (forall k, (k < length syms)%nat ->
     exists h buf,
       thunk_hint t nsec Sections f (entry_offset t ThunkOffset k) = Some h
       /\ h <> MZ
       /\ thunk_name_buffer t nsec Sections f (entry_offset t ThunkOffset k)
          = Some buf
       /\ nth_error syms k = Some (stored_name buf))
  /\ thunk_hint t nsec Sections f (entry_offset t ThunkOffset (length syms))
     = Some MZ.

(** An address lies in the range the loop of [SectionRvaFileOffset] tests:
    from [VirtualAddress] up to, not including, the DWORD
    [VirtualAddress + VirtualSize]. *)
Definition contains (s : IMAGE_SECTION_HEADER) (address : Z) : Prop :=
  VirtualAddress s <= address
  /\ address < to_DWORD (VirtualAddress s + VirtualSize s).

(** A name that fits the buffer with its terminator. *)
Definition short (name : list byte) : Prop := (length name <= 31)%nat.

(** The first two bytes of the file spell MZ. *)
Definition starts_with_MZ (f : list byte) : Prop :=
  firstn 2 f = ["M"%byte; "Z"%byte].

(** The reading of claim C9: in a file that starts with MZ, the turn at a
    zero thunk entry leaves the loop. *)
Definition zero_entry_breaks (t : Target) (Path : string) (nsec : Z)
    (Sections : list IMAGE_SECTION_HEADER) (w : World) (ThunkOffset : Z)
    (names : list (list byte)) : Prop :=
  starts_with_MZ (file w) ->
  thunk_value t (file w) ThunkOffset = Some 0 ->
  exists w',
    ThunkTurn t Path nsec Sections ThunkOffset names w = Some (Break, w').

(** Some section contains the address. *)
Definition mapped (Sections : list IMAGE_SECTION_HEADER) (Rva : Z) : bool :=
  existsb (fun s => section_hit s Rva) Sections.

(** The reading of claim C4, as a check of the call log: no zero DLL-name
    address, thunk-array address or thunk value is passed to the resolver,
    and no seek follows the resolution of an address that no section
    contains. *)
Fixpoint zero_checked (Sections : list IMAGE_SECTION_HEADER)
    (log : list Call) : bool :=
  match log with
  | [] => true
  | Resolve what Rva _ :: rest =>
      (match what with ImportDirectory => true | _ => negb (Rva =? 0) end)
      && (mapped Sections Rva
          || match rest with Seek _ :: _ => false | _ => true end)
      && zero_checked Sections rest
  | Seek _ :: rest => zero_checked Sections rest
  end.

(** The reading of the scanner's matching in section 4.6: every pair of an
    extracted symbol name and an equal requested name, symbol by symbol in
    the order extracted and, for one symbol, in the order requested. *)
Definition matches (ppszImports : list (list byte))
    (ImportThunkNames : list (list (list byte))) : list (list byte) :=
  flat_map (fun name => filter (name_eqb name) ppszImports)
           (concat ImportThunkNames).

(** The size [main] prints for a file with the contents [bytes]: its
    length when that fits a [long], and -1 for a file of 2 GiB or more. *)
Definition SizeInBytes_of (bytes : list byte) : Z :=
  let n := Z.of_nat (length bytes) in
  if n <=? LONG_MAX then n else -1.

(** The list printed under the header line: the matches when more than one
    import was requested. *)
Definition listing (ppszImports : list (list byte))
    (ImportThunkNames : list (list (list byte))) : list (list byte) :=
  if 1 <? Z.of_nat (length ppszImports)
  then matches ppszImports ImportThunkNames
  else [].

(** ** Two runs side by side

    Two worlds have the same stream when the open file and its position
    agree; what was printed before may differ. *)
Definition sim (w1 w2 : World) : Prop :=
  file w1 = file w2 /\ cur w1 = cur w2.

(** What two runs printed corresponds, output by output, under [Q]. *)
Definition same_output (Q : Output -> Output -> Prop) (w1 w2 w1' w2' : World)
  : Prop :=
  exists d1 d2,
    stdout w1' = stdout w1 ++ d1 /\ stdout w2' = stdout w2 ++ d2
    /\ Forall2 Q d1 d2.

(** The results of two runs, started in [w1] and [w2], agree: values
    related by [R], the same stream afterwards, corresponding output. *)
Definition related {A B} (Q : Output -> Output -> Prop) (R : A -> B -> Prop)
    (w1 w2 : World) (r1 : option (A * World)) (r2 : option (B * World))
  : Prop :=
  match r1, r2 with
  | Some (a1, w1'), Some (a2, w2') =>
      R a1 a2 /\ sim w1' w2' /\ same_output Q w1 w2 w1' w2'
  | None, None => True
  | _, _ => False
  end.

Definition corresponds {A B} (Q : Output -> Output -> Prop)
    (R : A -> B -> Prop) (m1 : IO A) (m2 : IO B) : Prop :=
  forall w1 w2, sim w1 w2 -> related Q R w1 w2 (m1 w1) (m2 w2).

(** The same, for runs that need not leave the same stream. *)
Definition related_out {A B} (Q : Output -> Output -> Prop)
    (R : A -> B -> Prop) (w1 w2 : World)
    (r1 : option (A * World)) (r2 : option (B * World)) : Prop :=
  match r1, r2 with
  | Some (a1, w1'), Some (a2, w2') => R a1 a2 /\ same_output Q w1 w2 w1' w2'
  | None, None => True
  | _, _ => False
  end.

(** Two outputs are the same scan result: the path, the byte size, the
    match count and the matched names agree; the running index, which is
    not part of the result of scanning a file, may differ. *)
Definition same_result (o1 o2 : Output) : Prop :=
  match o1, o2 with
  | ScanResult _ p1 s1 c1 l1, ScanResult _ p2 s2 c2 l2 =>
      p1 = p2 /\ s1 = s2 /\ c1 = c2 /\ l1 = l2
  | _, _ => o1 = o2
  end.

(** Two runs of the loop body left it the same way, with running indices
    related by [J]. *)
Definition same_verdict (J : Z -> Z -> Prop) (r1 r2 : Verdict * MainVars)
  : Prop :=
  fst r1 = fst r2 /\ J (numResults (snd r1)) (numResults (snd r2)).

(** ** Verdicts and outputs *)

Definition is_result (o : Output) : bool :=
  match o with
  | ScanResult _ _ _ _ _ => true
  | _ => false
  end.

(** A diagnostic that names the file [Path]. *)
Definition diagnostic_for (Path : string) (o : Output) : Prop :=
  (exists text, o = Diagnostic Path text)
  \/ (exists i, o = DiagnosticSection Path i).

(** The error outcomes: the file is given up by one of the four readers.
    [BadHeaders 5] is the unsupported architecture. *)
Definition is_error (vd : Verdict) : bool :=
  match vd with
  | BadMagic _ | BadHeaders _ | BadSections _ | BadImports _ => true
  | _ => false
  end.

(** How the loop body is left for a directory entry, found by running it
    from the initial state. *)
Definition verdict_of (t : Target) (pszExtension : string)
    (ppszImports : list (list byte)) (dirEntry : DirEntry) : option Verdict :=
  match ScanFile t pszExtension ppszImports dirEntry
          (initial_vars (mkDos 0 []) []) initial_world with
  | Some ((vd, _), _) => Some vd
  | None => None
  end.

(** ** Further readings of the file and of the output *)

(** A section header whose range is empty, or passes the end of the 32-bit
    address space. *)
Definition unusable (s : IMAGE_SECTION_HEADER) : Prop :=
  VirtualSize s = 0 \/ DWORD_MAX < VirtualAddress s + VirtualSize s.

(** The header fields are DWORDs. *)
Definition section_fields_ok (s : IMAGE_SECTION_HEADER) : Prop :=
  0 <= VirtualAddress s <= DWORD_MAX /\ 0 <= VirtualSize s <= DWORD_MAX.

(** The world just after [fopen_s] opened a file. *)
Definition opened (bytes : list byte) (w : World) : World :=
  {| file := bytes; cur := 0; stdout := stdout w; calls := calls w |}.

(** The four readers accepted the file [bytes]: each returned 0, in the
    order and with the arguments [main] calls them. *)
Definition parsed (t : Target) (Path : string) (bytes : list byte)
    (v : MainVars) (w : World) (N : IMAGE_NT_HEADERS)
    (Secs : list IMAGE_SECTION_HEADER) (imps : Imports) : Prop :=
  exists D1 w1 D2 w2 w3 w4,
    ReadMagicNumber Path (DosHeader v) (opened bytes w) = Some ((0, D1), w1)
    /\ ReadNtHeaders t Path D1 (NtHeaders v) w1 = Some ((0, D2, N), w2)
    /\ ReadSections Path (NumberOfSections N) (Sections v) w2
       = Some ((0, Secs), w3)
    /\ ReadImportDescriptors t Path N Secs (imports v) w3
       = Some ((0, imps), w4).

(** The file an output is about. *)
Definition output_path (o : Output) : option string :=
  match o with
  | Usage => None
  | Diagnostic Path _ => Some Path
  | DiagnosticSection Path _ => Some Path
  | ScanResult _ Path _ _ _ => Some Path
  end.

(** The running indices of the results in an output, in order. *)
Definition result_indices (out : list Output) : list Z :=
  flat_map (fun o => match o with
                     | ScanResult index _ _ _ _ => [index]
                     | _ => []
                     end) out.

(** The indices [first, first + 1, ...], [n] of them. *)
Fixpoint count_from (first : Z) (n : nat) : list Z :=
  match n with
  | O => []
  | S n' => first :: count_from (first + 1) n'
  end.

(** A directory entry the loop body opens: its extension is the requested
    one and the file can be opened. *)
Definition candidate (pszExtension : string) (e : DirEntry) : bool :=
  String.eqb (extension e) pszExtension
  && match contents e with Some _ => true | None => false end.

(** What a printed result says, for the directory [dir] and the requested
    names [imps]: a count above zero; the path of an entry of the directory
    that can be opened, with the size [ftell] gives for its contents; and
    under the header line either nothing (one name requested) or as many
    names as the count, each of them a requested name of at most 31
    characters. *)
Definition result_ok (dir : list DirEntry) (imps : list (list byte))
    (o : Output) : Prop :=
  match o with
  | ScanResult _ Path size importCount names =>
      0 < importCount
      /\ (exists e bytes,
             In e dir /\ path e = Path /\ contents e = Some bytes
             /\ size = SizeInBytes_of bytes)
      /\ if 1 <? Z.of_nat (length imps)
         then Z.of_nat (length names) = importCount
              /\ Forall (fun n => In n imps /\ short n) names
         else names = []
  | _ => True
  end.

(** The report of one directory entry: nothing, one diagnostic, or one
    result, always about the entry's own path. *)
Definition entry_report (e : DirEntry) (report : list Output) : Prop :=
  (length report <= 1)%nat
  /\ Forall (fun o => output_path o = Some (path e)) report.

(** ** Readings of the headers *)

(** The NT headers of a file whose DOS header, after the magic number,
    starts at [pos]: the bytes at the offset that [e_lfanew] gives. *)
Definition nt_headers_of (t : Target) (f : list byte) (pos : Z)
  : option IMAGE_NT_HEADERS :=
  match bytes_at f pos (sizeof_DOS_HEADER - 2) with
  | Some tail => bytes_at f (field_long 58 tail) (Z.of_nat (sizeof_NT_HEADERS t))
  | None => None
  end.

(** NT headers of an image for the build target. *)
Definition supported (t : Target) (nt : IMAGE_NT_HEADERS) : Prop :=
  Signature nt = PE
  /\ Machine nt = IMAGE_FILE_MACHINE t
  /\ OptionalMagic nt = IMAGE_NT_OPTIONAL_HDR_MAGIC t.

(** NT headers of an image for another machine. *)
Definition foreign (t : Target) (nt : IMAGE_NT_HEADERS) : Prop :=
  Signature nt = PE /\ Machine nt <> IMAGE_FILE_MACHINE t.

(** The [k]-th record of the section table that starts at [pos]. *)
Definition section_at (f : list byte) (pos : Z) (k : nat)
  : option IMAGE_SECTION_HEADER :=
  option_map decode_section
    (bytes_at f (pos + sizeof_SECTION_HEADER * Z.of_nat k)
              sizeof_SECTION_HEADER).

(** ** Readings of the import directory *)

(** The file offset the import directory resolves to. *)
Definition import_directory_offset (t : Target) (nt : IMAGE_NT_HEADERS)
    (Sections : list IMAGE_SECTION_HEADER) : Z :=
  SectionRvaFileOffset (NumberOfSections nt) Sections
                       (ImportDirectoryVirtualAddress t nt).

(** The [k]-th record of the descriptor array that starts at [pos]. *)
Definition descriptor_at (f : list byte) (pos : Z) (k : nat)
  : option IMAGE_IMPORT_DESCRIPTOR :=
  option_map decode_descriptor
    (bytes_at f (pos + sizeof_IMPORT_DESCRIPTOR * Z.of_nat k)
              sizeof_IMPORT_DESCRIPTOR).

(** The DLL name of a descriptor, as the walker stores it. *)
Definition dll_name_of (nsec : Z) (Sections : list IMAGE_SECTION_HEADER)
    (f : list byte) (d : IMAGE_IMPORT_DESCRIPTOR) : option (list byte) :=
  option_map stored_name
    (bytes_at f (to_long (SectionRvaFileOffset nsec Sections (Name d)))
              sizeof_Name).

(** A list of symbol names that a thunk array inside a file of [len] bytes
    can give: one entry of the array for each name. *)
Definition fits_file (t : Target) (len : nat) (names : list (list byte))
  : Prop :=
  Z.of_nat (length names) * sizeof_THUNK_DATA t <= Z.of_nat len.

(** How often the files' symbol lists hold the name [imp]. *)
Definition occurrences (imp : list byte)
    (ImportThunkNames : list (list (list byte))) : nat :=
  length (filter (fun name => name_eqb name imp) (concat ImportThunkNames)).

(* ===================================================================== *)
(** * Properties *)
(* ===================================================================== *)

(** ** Bytes and machine integers *)

Lemma byte_val_range (b : byte) : 0 <= byte_val b < 256.
Proof.
  unfold byte_val. pose proof (Byte.to_N_bounded b) as H.
  lia.
Qed.

Lemma le_range (bs : list byte) : 0 <= le bs < 256 ^ Z.of_nat (length bs).
Proof.
  induction bs as [|b bs IH]; cbn [le length].
  - cbn. lia.
  - rewrite Nat2Z.inj_succ, Z.pow_succ_r by lia.
    pose proof (byte_val_range b). lia.
Qed.

Lemma field_range (off n : nat) (buf : list byte) :
  0 <= field off n buf < 256 ^ Z.of_nat n.
Proof.
  unfold field. pose proof (le_range (firstn n (skipn off buf))) as H.
  assert (Hl : (length (firstn n (skipn off buf)) <= n)%nat)
    by (rewrite length_firstn; lia).
  split; [lia|].
  eapply Z.lt_le_trans; [apply H|].
  apply Z.pow_le_mono_r; lia.
Qed.

Lemma field4_DWORD (off : nat) (buf : list byte) :
  0 <= field off 4 buf <= DWORD_MAX.
Proof.
  pose proof (field_range off 4 buf) as H. unfold DWORD_MAX.
  change (256 ^ Z.of_nat 4) with 4294967296 in H. lia.
Qed.

Lemma to_DWORD_range (z : Z) : 0 <= to_DWORD z <= DWORD_MAX.
Proof.
  unfold to_DWORD, DWORD_MAX.
  pose proof (Z.mod_pos_bound z 4294967296). lia.
Qed.

Lemma to_DWORD_small (z : Z) : 0 <= z <= DWORD_MAX -> to_DWORD z = z.
Proof. unfold to_DWORD, DWORD_MAX. intros. apply Z.mod_small. lia. Qed.

Lemma to_long_small (z : Z) : 0 <= z < 2147483648 -> to_long z = z.
Proof.
  intros H. unfold to_long. rewrite Z.mod_small by lia.
  destruct (Z.ltb_spec z 2147483648); lia.
Qed.

Lemma to_long_nonneg (z : Z) :
  0 <= z <= DWORD_MAX -> 0 <= to_long z -> z < 2147483648 /\ to_long z = z.
Proof.
  unfold to_long, DWORD_MAX. intros H. rewrite Z.mod_small by lia.
  destruct (Z.ltb_spec z 2147483648); lia.
Qed.

(** ** Address resolution *)

Lemma section_hit_contains (s : IMAGE_SECTION_HEADER) (a : Z) :
  section_hit s a = true <-> contains s a.
Proof.
  unfold section_hit, contains.
  rewrite andb_true_iff, Z.leb_le, Z.ltb_lt. tauto.
Qed.

(** Where the range does not wrap, it is the interval of the integers. *)
Lemma contains_no_wrap (s : IMAGE_SECTION_HEADER) (a : Z) :
  0 <= VirtualAddress s + VirtualSize s <= DWORD_MAX ->
  (contains s a <->
   VirtualAddress s <= a < VirtualAddress s + VirtualSize s).
Proof.
  intros H. unfold contains. rewrite to_DWORD_small by exact H. tauto.
Qed.

Lemma scan_sections_range (Sections : list IMAGE_SECTION_HEADER) (a : Z) :
  0 <= scan_sections Sections a <= DWORD_MAX.
Proof.
  induction Sections as [|s rest IH]; cbn.
  - unfold DWORD_MAX; lia.
  - destruct (section_hit s a); [apply to_DWORD_range | exact IH].
Qed.

Lemma SectionRvaFileOffset_range n Sections a :
  0 <= SectionRvaFileOffset n Sections a <= DWORD_MAX.
Proof. apply scan_sections_range. Qed.

Lemma scan_sections_first (before : list IMAGE_SECTION_HEADER) s after a :
  (forall s', In s' before -> ~ contains s' a) ->
  contains s a ->
  scan_sections (before ++ s :: after) a = section_offset s a.
Proof.
  induction before as [|b before IH]; intros Hno Hs; cbn.
  - apply section_hit_contains in Hs. now rewrite Hs.
  - destruct (section_hit b a) eqn:Hb.
    + apply section_hit_contains in Hb. exfalso.
      apply (Hno b); [now left | exact Hb].
    + apply IH; [|exact Hs]. intros s' Hin. apply Hno. now right.
Qed.

Lemma scan_sections_none (Sections : list IMAGE_SECTION_HEADER) a :
  (forall s, In s Sections -> ~ contains s a) ->
  scan_sections Sections a = 0.
Proof.
  induction Sections as [|s rest IH]; intros Hno; cbn; [reflexivity|].
  destruct (section_hit s a) eqn:Hs.
  - apply section_hit_contains in Hs. exfalso.
    apply (Hno s); [now left | exact Hs].
  - apply IH. intros s' Hin. apply Hno. now right.
Qed.

Lemma In_firstn_inv {A} (x : A) (n : nat) (l : list A) :
  In x (firstn n l) -> In x l.
Proof.
  intros H. rewrite <- (firstn_skipn n l). apply in_or_app. now left.
Qed.

Lemma firstn_length_all {A} (l : list A) :
  firstn (Z.to_nat (Z.of_nat (length l))) l = l.
Proof. rewrite Nat2Z.id. apply firstn_all. Qed.

(** C3.  [SectionRvaFileOffset] scans the sections in declaration order:
    for the first section whose range (from [VirtualAddress] up to, not
    including, the DWORD sum [VirtualAddress + VirtualSize]) contains the
    address, it returns [(address - VirtualAddress) + PointerToRawData] as
    a DWORD; for an address that no section contains it returns 0; and the
    result is a DWORD that depends on the sections and the address alone:
    a call made in any state of the program returns it. *)
Theorem SectionRvaFileOffset_first_match :
  forall (Sections : list IMAGE_SECTION_HEADER) (address : Z),
    let Offset :=
      SectionRvaFileOffset (Z.of_nat (length Sections)) Sections address in
    (forall before s after,
        Sections = before ++ s :: after ->
        (forall s', In s' before -> ~ contains s' address) ->
        contains s address ->
        Offset =
        to_DWORD ((address - VirtualAddress s) + PointerToRawData s))
    /\ ((forall s, In s Sections -> ~ contains s address) -> Offset = 0)
    /\ 0 <= Offset <= DWORD_MAX
    /\ (forall what w1 w2,
           exists w1' w2',
             resolve what (Z.of_nat (length Sections)) Sections address w1
             = Some (Offset, w1')
             /\ resolve what (Z.of_nat (length Sections)) Sections address w2
                = Some (Offset, w2')).
Proof.
  intros Sections address Offset. subst Offset.
  split; [|split; [|split]].
  - unfold SectionRvaFileOffset. rewrite firstn_length_all.
    intros before s after -> Hno Hs.
    now rewrite (scan_sections_first before s after address Hno Hs).
  - unfold SectionRvaFileOffset. rewrite firstn_length_all.
    apply scan_sections_none.
  - apply SectionRvaFileOffset_range.
  - intros what w1 w2. unfold resolve. eauto.
Qed.

(** The theorem at the section table of the test image: address 0x1040 lies
    in the section and maps to offset 0x240; address 0 lies in none. *)
Lemma SectionRvaFileOffset_first_match_witness :
  SectionRvaFileOffset 1 [Image.idata] 4160 = 576
  /\ SectionRvaFileOffset 1 [Image.idata] 0 = 0.
Proof.
  pose proof (SectionRvaFileOffset_first_match [Image.idata] 4160)
    as (H & _).
  pose proof (SectionRvaFileOffset_first_match [Image.idata] 0)
    as (_ & H0 & _).
  split.
  - apply (H [] Image.idata []); [reflexivity | intros s' [] | ].
    unfold contains; cbn; lia.
  - apply H0. intros s [<-|[]]. unfold contains; cbn; lia.
Defined.

(** An address that no section contains resolves to 0 whatever the count
    of sections passed. *)
Lemma SectionRvaFileOffset_unmapped n Sections a :
  (forall s, In s Sections -> ~ contains s a) ->
  SectionRvaFileOffset n Sections a = 0.
Proof.
  intros Hno. unfold SectionRvaFileOffset. apply scan_sections_none.
  intros s Hin. apply Hno. eapply In_firstn_inv; eauto.
Qed.

(** ** The number of import descriptors *)

(** With a directory of at least one descriptor the count is
    [Size / 20 - 1]: the terminator slot is left out. *)
Lemma NumberOfEntries_formula (Size : Z) :
  sizeof_IMPORT_DESCRIPTOR <= Size <= DWORD_MAX ->
  NumberOfEntries Size = Size / sizeof_IMPORT_DESCRIPTOR - 1.
Proof.
  unfold NumberOfEntries, sizeof_IMPORT_DESCRIPTOR, DWORD_MAX. intros H.
  apply to_DWORD_small. unfold DWORD_MAX.
  assert (1 <= Size / 20) by (apply Z.div_le_lower_bound; lia).
  assert (Size / 20 <= 4294967295 / 20) by (apply Z.div_le_mono; lia).
  change (4294967295 / 20) with 214748364 in *. lia.
Qed.

(** C1.  The count is [Size / 20 - 1] in a DWORD; with a directory size of
    zero (an image without imports) the subtraction wraps to 4294967295,
    the first loop reads descriptors from the start of the file until the
    file ends, and the file is given up with a diagnostic. *)
Theorem import_directory_size_zero_underflows :
  NumberOfEntries 0 = 4294967295
  /\ Image.run [Image.sys_file "empty.sys" Image.no_imports_sys]
               ["IoCreateDevice"%string]
     = Some [Diagnostic "empty.sys"
                        "File too small to read import descriptor"].
Proof. split; vm_compute; reflexivity. Qed.


(** ** Running the primitives *)

Ltac io :=
  cbv beta iota zeta delta
      [bind ret out_of_fuel fseek fread fopen fclose file_size ftell
       file_length
       resolve printf print log_call set_cur option_map];
  cbn [negb Z.eqb Pos.eqb file cur stdout calls].

Ltac split_if :=
  match goal with
  | |- context [if negb ?c then _ else _] => destruct c eqn:?; cbn [negb]
  | |- context [if ?c then _ else _] => destruct c eqn:?
  end.

Ltac eqb_facts :=
  repeat match goal with
         | H : (_ =? _) = true |- _ => apply Z.eqb_eq in H
         | H : (_ =? _) = false |- _ => apply Z.eqb_neq in H
         | H : (_ <? _) = true |- _ => apply Z.ltb_lt in H
         | H : (_ <? _) = false |- _ => apply Z.ltb_ge in H
         end.

Lemma chunk_length (f : list byte) (offset size : Z) :
  0 <= offset -> 0 < size ->
  Z.of_nat (length (firstn (Z.to_nat size) (skipn (Z.to_nat offset) f))) = size ->
  offset + size <= Z.of_nat (length f).
Proof. rewrite length_firstn, length_skipn. lia. Qed.

Lemma chunk_short (f : list byte) (offset size : Z) :
  0 <= offset -> 0 < size ->
  Z.of_nat (length f) < offset + size ->
  Z.of_nat (length (firstn (Z.to_nat size) (skipn (Z.to_nat offset) f))) <> size.
Proof. rewrite length_firstn, length_skipn. lia. Qed.

Lemma bytes_at_short (f : list byte) (offset size : Z) :
  0 < size -> Z.of_nat (length f) < offset + size ->
  bytes_at f offset size = None.
Proof.
  intros Hs Hlen. unfold bytes_at.
  destruct (Z.ltb_spec offset 0); [reflexivity|].
  destruct (Z.eqb_spec
              (Z.of_nat (length (firstn (Z.to_nat size)
                                        (skipn (Z.to_nat offset) f)))) size)
    as [E|E]; [|reflexivity].
  now apply chunk_short in E.
Qed.

Lemma bytes_at_length (f : list byte) (offset size : Z) (got : list byte) :
  bytes_at f offset size = Some got -> Z.of_nat (length got) = size.
Proof.
  unfold bytes_at. destruct (offset <? 0); [discriminate|].
  destruct (Z.eqb_spec
              (Z.of_nat (length (firstn (Z.to_nat size)
                                        (skipn (Z.to_nat offset) f)))) size)
    as [E|E]; [|discriminate].
  now intros [= <-].
Qed.

Lemma to_long_to_DWORD (z : Z) : to_long (to_DWORD z) = to_long z.
Proof. unfold to_long, to_DWORD. now rewrite Z.mod_mod by lia. Qed.

Lemma sizeof_THUNK_DATA_pos (t : Target) : 4 <= sizeof_THUNK_DATA t <= 8.
Proof. destruct t; cbn; lia. Qed.

(** ** One turn of the thunk loop *)

Lemma ThunkTurn_break_iff t Path nsec Sections ThunkOffset names w :
  (exists w',
      ThunkTurn t Path nsec Sections ThunkOffset names w = Some (Break, w'))
  <-> thunk_hint t nsec Sections (file w) ThunkOffset = Some MZ.
Proof.
  unfold ThunkTurn, thunk_hint, thunk_value, bytes_at. io.
  repeat (split_if; io); eqb_facts;
    try (split; [intros [w' H]; discriminate | discriminate]).
  - split; [intros _; congruence | intros _; eexists; reflexivity].
  - split; [intros [w' H]; discriminate | congruence].
  - split; [intros [w' H]; discriminate | congruence].
Qed.

Lemma ThunkTurn_continue t Path nsec Sections ThunkOffset names w
      ThunkOffset' names' w' :
  ThunkTurn t Path nsec Sections ThunkOffset names w
  = Some (Continue ThunkOffset' names', w') ->
  exists h buf,
    thunk_hint t nsec Sections (file w) ThunkOffset = Some h /\ h <> MZ
    /\ thunk_name_buffer t nsec Sections (file w) ThunkOffset = Some buf
    /\ names' = names ++ [stored_name buf]
    /\ ThunkOffset' = to_DWORD (ThunkOffset + sizeof_THUNK_DATA t)
    /\ 0 <= to_long ThunkOffset
    /\ to_long ThunkOffset + sizeof_THUNK_DATA t
       <= Z.of_nat (length (file w))
    /\ file w' = file w.
Proof.
  unfold ThunkTurn, thunk_hint, thunk_name_buffer, thunk_value, bytes_at. io.
  repeat (split_if; io); try discriminate; eqb_facts; try lia.
  intros [= <- <- <-]. do 2 eexists.
  repeat split; try reflexivity; try assumption.
  apply chunk_length; [assumption | | assumption].
  pose proof (sizeof_THUNK_DATA_pos t). lia.
Qed.

(** A turn always ends, and leaves the file as it was. *)
Lemma ThunkTurn_total t Path nsec Sections ThunkOffset names w :
  exists turn w',
    ThunkTurn t Path nsec Sections ThunkOffset names w = Some (turn, w')
    /\ file w' = file w.
Proof.
  unfold ThunkTurn. io.
  repeat (split_if; io); do 2 eexists; split; reflexivity.
Qed.

(** What a turn returns when it gives the file up, and what it prints. *)
Lemma ThunkTurn_return t Path nsec Sections ThunkOffset names w code w' :
  ThunkTurn t Path nsec Sections ThunkOffset names w
  = Some (Return code, w') ->
  5 <= code <= 9 /\ exists text, stdout w' = stdout w ++ [Diagnostic Path text].
Proof.
  unfold ThunkTurn. io.
  repeat (split_if; io); try discriminate;
    intros [= <- <-]; (split; [lia | eexists; reflexivity]).
Qed.

Lemma ThunkTurn_quiet t Path nsec Sections ThunkOffset names w turn w' :
  ThunkTurn t Path nsec Sections ThunkOffset names w = Some (turn, w') ->
  (forall code, turn <> Return code) -> stdout w' = stdout w.
Proof.
  unfold ThunkTurn. io.
  repeat (split_if; io); intros [= <- <-] Hne;
    try reflexivity; exfalso; eapply Hne; reflexivity.
Qed.

(** The turn that finds a symbol name cut short by the end of the file. *)
Lemma ThunkTurn_name_cut t Path nsec Sections ThunkOffset names w h v :
  thunk_value t (file w) ThunkOffset = Some v ->
  thunk_hint t nsec Sections (file w) ThunkOffset = Some h -> h <> MZ ->
  Z.of_nat (length (file w))
  < to_long (SectionRvaFileOffset nsec Sections v) + 2 + sizeof_Name ->
  exists w',
    ThunkTurn t Path nsec Sections ThunkOffset names w = Some (Return 9, w').
Proof.
  unfold ThunkTurn, thunk_hint, thunk_value, bytes_at. io.
  repeat (split_if; io); try discriminate; eqb_facts;
    intros Hv Hhint Hh Hlen; try congruence;
    try (eexists; reflexivity).
  exfalso. injection Hv as <-.
  match goal with
  | H : Z.of_nat (length (firstn (Z.to_nat sizeof_Name) _)) = sizeof_Name
    |- _ => apply chunk_length in H; [|lia|reflexivity]
  end.
  unfold sizeof_Name in *. lia.
Qed.

(** What a turn adds to the call log once it has read its thunk entry. *)
Lemma ThunkTurn_calls t Path nsec Sections ThunkOffset names w v :
  thunk_value t (file w) ThunkOffset = Some v ->
  exists turn w',
    ThunkTurn t Path nsec Sections ThunkOffset names w = Some (turn, w')
    /\ calls w' =
       calls w ++ [ Seek (to_long ThunkOffset);
                    Resolve ThunkValue v (SectionRvaFileOffset nsec Sections v);
                    Seek (to_long (SectionRvaFileOffset nsec Sections v)) ].
Proof.
  unfold ThunkTurn, thunk_value, bytes_at. io.
  repeat (split_if; io); try discriminate; intros [= <-];
    do 2 eexists; (split; [reflexivity|]); rewrite <- !app_assoc; reflexivity.
Qed.

Lemma ThunkTurn_calls_extend t Path nsec Sections ThunkOffset names w turn w' :
  ThunkTurn t Path nsec Sections ThunkOffset names w = Some (turn, w') ->
  exists more, calls w' = calls w ++ more.
Proof.
  unfold ThunkTurn. io.
  repeat (split_if; io); intros [= <- <-];
    rewrite <- ?app_assoc; eexists; reflexivity.
Qed.


(** ** Stored names *)

Lemma c_str_until_nul (l r : list byte) :
  (length (c_str (l ++ x00 :: r)) <= length l)%nat.
Proof.
  induction l as [|b l IH]; cbn; [lia|].
  destruct (Byte.eqb b x00); cbn; lia.
Qed.

Lemma stored_name_short (buf : list byte) : short (stored_name buf).
Proof.
  unfold short, stored_name.
  pose proof (c_str_until_nul (firstn 31 buf) []) as H.
  rewrite length_firstn in H. lia.
Qed.

Lemma c_str_of_string (name r : list byte) :
  ~ In x00 name -> c_str (name ++ x00 :: r) = name.
Proof.
  induction name as [|b name IH]; intros Hno; cbn; [reflexivity|].
  destruct (Byte.eqb b x00) eqn:E.
  - apply Byte.byte_dec_bl in E. exfalso. apply Hno. now left.
  - f_equal. apply IH. intros Hin. apply Hno. now right.
Qed.

(** The 32 bytes read where a NUL-terminated string starts are stored as
    the first 31 characters of the string. *)
Lemma stored_name_of_string (name rest : list byte) :
  ~ In x00 name ->
  stored_name (firstn 32 (name ++ x00 :: rest)) = firstn 31 name.
Proof.
  intros Hno. unfold stored_name.
  rewrite firstn_firstn. change (Nat.min 31 32) with 31%nat.
  rewrite firstn_app.
  destruct (Nat.le_gt_cases 31 (length name)) as [Hlong|Hshort].
  - replace (31 - length name)%nat with 0%nat by lia.
    rewrite firstn_O, app_nil_r.
    apply c_str_of_string. intros Hin. apply Hno.
    eapply In_firstn_inv; eauto.
  - rewrite (firstn_all2 (n := 31) name) by lia.
    destruct (31 - length name)%nat as [|k] eqn:E; [lia|].
    rewrite firstn_cons, <- app_assoc. cbn [app].
    now apply c_str_of_string.
Qed.

(** ** The thunk loop *)

Lemma ThunkWalk_step fuel t Path nsec Sections ThunkOffset names w :
  ThunkWalk (S fuel) t Path nsec Sections ThunkOffset names w =
  match ThunkTurn t Path nsec Sections ThunkOffset names w with
  | Some (Break, w1) => Some ((0, names), w1)
  | Some (Return code, w1) => Some ((code, names), w1)
  | Some (Continue ThunkOffset' names', w1) =>
      ThunkWalk fuel t Path nsec Sections ThunkOffset' names' w1
  | None => None
  end.
Proof.
  cbn [ThunkWalk]. unfold bind at 1.
  destruct (ThunkTurn t Path nsec Sections ThunkOffset names w)
    as [[[ | code | o n] w1]|]; reflexivity.
Qed.

Lemma entry_offset_next t ThunkOffset k :
  entry_offset t (to_DWORD (ThunkOffset + sizeof_THUNK_DATA t)) k
  = entry_offset t ThunkOffset (S k).
Proof.
  unfold entry_offset, to_DWORD. rewrite Z.add_mod_idemp_l by lia.
  f_equal. lia.
Qed.

Lemma thunk_value_to_DWORD t f z :
  thunk_value t f (to_DWORD z) = thunk_value t f z.
Proof. unfold thunk_value. now rewrite to_long_to_DWORD. Qed.

Lemma thunk_hint_to_DWORD t nsec Sections f z :
  thunk_hint t nsec Sections f (to_DWORD z) = thunk_hint t nsec Sections f z.
Proof. unfold thunk_hint. now rewrite thunk_value_to_DWORD. Qed.

Lemma thunk_name_buffer_to_DWORD t nsec Sections f z :
  thunk_name_buffer t nsec Sections f (to_DWORD z)
  = thunk_name_buffer t nsec Sections f z.
Proof. unfold thunk_name_buffer. now rewrite thunk_value_to_DWORD. Qed.

Lemma entry_offset_0 t ThunkOffset :
  entry_offset t ThunkOffset 0 = to_DWORD ThunkOffset.
Proof. unfold entry_offset. f_equal. lia. Qed.

(** A walk that is left by [break] has found the sentinel at its entry
    [n], after [n] entries with another hint, each of which gave a name. *)
Lemma ThunkWalk_sentinel t Path nsec Sections fuel :
  forall ThunkOffset names w names' w',
    ThunkWalk fuel t Path nsec Sections ThunkOffset names w
    = Some ((0, names'), w') ->
    exists syms,
      names' = names ++ syms
      /\ (forall k, (k < length syms)%nat ->
            exists h buf,
              thunk_hint t nsec Sections (file w)
                         (entry_offset t ThunkOffset k) = Some h
              /\ h <> MZ
              /\ thunk_name_buffer t nsec Sections (file w)
                                   (entry_offset t ThunkOffset k) = Some buf
              /\ nth_error syms k = Some (stored_name buf))
      /\ thunk_hint t nsec Sections (file w)
                    (entry_offset t ThunkOffset (length syms)) = Some MZ.
Proof.
  induction fuel as [|fuel IH]; intros ThunkOffset names w names' w' H.
  - discriminate.
  - rewrite ThunkWalk_step in H.
    destruct (ThunkTurn t Path nsec Sections ThunkOffset names w)
      as [[[ | code | o n] w1]|] eqn:Hturn; try discriminate.
    + injection H as <- <-. exists []. rewrite app_nil_r.
      split; [reflexivity|]. split; [intros k Hk; cbn in Hk; lia|].
      cbn [length]. rewrite entry_offset_0, thunk_hint_to_DWORD.
      eapply (proj1 (ThunkTurn_break_iff _ _ _ _ _ _ _)). eauto.
    + injection H as -> <- <-.
      apply ThunkTurn_return in Hturn. lia.
    + apply ThunkTurn_continue in Hturn
        as (h & buf & Hh & Hne & Hbuf & -> & -> & _ & _ & Hfile).
      apply IH in H as (syms & -> & Hbefore & Hlast).
      exists (stored_name buf :: syms). rewrite <- app_assoc.
      split; [reflexivity|]. rewrite Hfile in *. split.
      * intros [|k] Hk.
        -- exists h, buf. rewrite entry_offset_0, thunk_hint_to_DWORD,
             thunk_name_buffer_to_DWORD. auto.
        -- cbn in Hk. destruct (Hbefore k) as (h' & buf' & ?); [lia|].
           exists h', buf'. rewrite <- entry_offset_next. exact H.
      * cbn [length]. rewrite <- entry_offset_next. exact Hlast.
Qed.

(** What a walk leaves behind: the file is untouched, the call log only
    grows, a walk left by [break] prints nothing, any other walk returns
    one of the codes 5..9 after exactly one diagnostic, and every name it
    adds is short. *)
Lemma ThunkWalk_effects t Path nsec Sections fuel :
  forall ThunkOffset names w code names' w',
    ThunkWalk fuel t Path nsec Sections ThunkOffset names w
    = Some ((code, names'), w') ->
    file w' = file w
    /\ (exists more, calls w' = calls w ++ more)
    /\ (code = 0 -> stdout w' = stdout w)
    /\ (code <> 0 ->
        5 <= code <= 9
        /\ exists text, stdout w' = stdout w ++ [Diagnostic Path text])
    /\ (Forall short names -> Forall short names').
Proof.
  induction fuel as [|fuel IH]; intros ThunkOffset names w code names' w' H.
  - discriminate.
  - rewrite ThunkWalk_step in H.
    destruct (ThunkTurn_total t Path nsec Sections ThunkOffset names w)
      as (turn & w1 & Hturn & Hfile).
    rewrite Hturn in H.
    pose proof (ThunkTurn_calls_extend _ _ _ _ _ _ _ _ _ Hturn) as [m1 Hm1].
    destruct turn as [ | c | o n].
    + injection H as <- <- <-.
      split; [exact Hfile|]. split; [eauto|].
      split; [intros _; eapply ThunkTurn_quiet; [exact Hturn|discriminate]|].
      split; [intros; lia | auto].
    + injection H as <- <- <-.
      apply ThunkTurn_return in Hturn as [Hc Hout].
      split; [exact Hfile|]. split; [eauto|].
      split; [intros; lia|]. split; auto.
    + pose proof (ThunkTurn_quiet _ _ _ _ _ _ _ _ _ Hturn) as Hq.
      rewrite <- Hq by discriminate.
      apply ThunkTurn_continue in Hturn
        as (h & buf & _ & _ & _ & -> & -> & _ & _ & _).
      apply IH in H as (Hf & [m2 Hm2] & H0 & H1 & Hs).
      split; [congruence|]. split.
      { exists (m1 ++ m2). rewrite Hm2, Hm1. now rewrite app_assoc. }
      split; [exact H0|]. split; [exact H1|].
      intros Hall. apply Hs. apply Forall_app. split; [exact Hall|].
      constructor; [apply stored_name_short | constructor].
Qed.

(** The walk ends within the fuel it is given: every turn that goes on has
    read a thunk entry further on in the file. *)
Lemma ThunkWalk_total t Path nsec Sections fuel :
  forall ThunkOffset names w,
    0 <= ThunkOffset <= DWORD_MAX ->
    (0 < fuel)%nat ->
    Z.of_nat (length (file w)) - ThunkOffset < Z.of_nat fuel ->
    exists r w',
      ThunkWalk fuel t Path nsec Sections ThunkOffset names w = Some (r, w').
Proof.
  induction fuel as [|fuel IH]; intros ThunkOffset names w Hoff Hpos Hfuel.
  - lia.
  - rewrite ThunkWalk_step.
    destruct (ThunkTurn_total t Path nsec Sections ThunkOffset names w)
      as (turn & w1 & Hturn & Hfile).
    rewrite Hturn. destruct turn as [ | c | o n]; [eauto | eauto |].
    apply ThunkTurn_continue in Hturn
      as (h & buf & _ & _ & _ & -> & -> & Hlong & Hlen & _).
    destruct (to_long_nonneg ThunkOffset Hoff Hlong) as [Hsmall Heq].
    rewrite Heq in Hlen. pose proof (sizeof_THUNK_DATA_pos t) as Hsz.
    rewrite to_DWORD_small by (unfold DWORD_MAX; lia).
    apply IH; rewrite ?Hfile; unfold DWORD_MAX in *; lia.
Qed.


(** ** The loop over the descriptors' names *)

(** One step of [ReadNames_loop], with the thunk walk left as it is. *)
Lemma ReadNames_loop_step fuel t Path nsec Sections d rest dlls thunks w :
  ReadNames_loop fuel t Path nsec Sections (d :: rest) dlls thunks w =
  let Offset := SectionRvaFileOffset nsec Sections (Name d) in
  let w1 := log_call (Resolve DllName (Name d) Offset) w in
  let w2 := log_call (Seek (to_long Offset)) w1 in
  if to_long Offset <? 0 then
    Some ((3, dlls, thunks),
          mkWorld (file w2) (cur w2)
                  (stdout w2 ++ [Diagnostic Path "Import descriptor name not found"])
                  (calls w2))
  else
    match bytes_at (file w) (to_long Offset) sizeof_Name with
    | None =>
        let got := firstn (Z.to_nat sizeof_Name)
                          (skipn (Z.to_nat (to_long Offset)) (file w)) in
        Some ((4, dlls, thunks),
              mkWorld (file w2) (to_long Offset + Z.of_nat (length got))
                      (stdout w2 ++ [Diagnostic Path "File too small to read import descriptor name"])
                      (calls w2))
    | Some buf =>
        let ThunkOffset := SectionRvaFileOffset nsec Sections (FirstThunk d) in
        let w3 := log_call (Resolve FirstThunkArray (FirstThunk d) ThunkOffset)
                           (set_cur w2 (to_long Offset + sizeof_Name)) in
        match ThunkWalk fuel t Path nsec Sections ThunkOffset [] w3 with
        | Some ((code, names), w4) =>
            if negb (code =? 0) then
              Some ((code, dlls ++ [stored_name buf], thunks ++ [names]), w4)
            else
              ReadNames_loop fuel t Path nsec Sections rest
                (dlls ++ [stored_name buf]) (thunks ++ [names]) w4
        | None => None
        end
    end.
Proof.
  cbn [ReadNames_loop]. unfold bytes_at. io.
  repeat (split_if; io); try reflexivity; try discriminate.
  all: destruct (ThunkWalk _ _ _ _ _ _ _ _) as [[[code names] w4]|];
    [destruct (negb (code =? 0))|]; reflexivity.
Qed.

Lemma ThunkTurn_first_seek t Path nsec Sections ThunkOffset names w turn w' :
  ThunkTurn t Path nsec Sections ThunkOffset names w = Some (turn, w') ->
  exists more, calls w' = calls w ++ Seek (to_long ThunkOffset) :: more.
Proof.
  unfold ThunkTurn. io.
  repeat (split_if; io); intros [= <- <-];
    rewrite <- ?app_assoc; eexists; reflexivity.
Qed.

Lemma ThunkWalk_first_seek t Path nsec Sections fuel ThunkOffset names w r w' :
  ThunkWalk fuel t Path nsec Sections ThunkOffset names w = Some (r, w') ->
  exists more, calls w' = calls w ++ Seek (to_long ThunkOffset) :: more.
Proof.
  destruct fuel as [|fuel]; [discriminate|].
  rewrite ThunkWalk_step.
  destruct (ThunkTurn t Path nsec Sections ThunkOffset names w)
    as [[turn w1]|] eqn:Hturn; [|discriminate].
  destruct (ThunkTurn_first_seek _ _ _ _ _ _ _ _ _ Hturn) as [m1 Hm1].
  destruct turn as [ | c | o n].
  - intros [= <- <-]. eauto.
  - intros [= <- <-]. eauto.
  - destruct r as [code names']. intros H.
    apply ThunkWalk_effects in H as (_ & [m2 Hm2] & _).
    exists (m1 ++ m2). rewrite Hm2, Hm1, <- app_assoc. reflexivity.
Qed.

(** What the loop leaves behind. *)
Lemma ReadNames_loop_effects t Path nsec Sections fuel todo :
  forall dlls thunks w code dlls' thunks' w',
    ReadNames_loop fuel t Path nsec Sections todo dlls thunks w
    = Some ((code, dlls', thunks'), w') ->
    file w' = file w
    /\ (exists more, calls w' = calls w ++ more)
    /\ (code = 0 ->
        stdout w' = stdout w
        /\ length dlls' = (length dlls + length todo)%nat
        /\ length thunks' = (length thunks + length todo)%nat)
    /\ (code <> 0 ->
        3 <= code <= 9
        /\ exists text, stdout w' = stdout w ++ [Diagnostic Path text])
    /\ (Forall short dlls -> Forall short dlls')
    /\ (Forall (Forall short) thunks -> Forall (Forall short) thunks').
Proof.
  induction todo as [|d rest IH]; intros dlls thunks w code dlls' thunks' w'.
  - cbn. unfold ret. intros [= <- <- <- <-].
    split; [reflexivity|]. split; [exists []; now rewrite app_nil_r|].
    split; [intros _; cbn; auto with arith|]. split; [intros; lia|]. auto.
  - rewrite ReadNames_loop_step. cbv zeta.
    destruct (to_long _ <? 0).
    { intros [= <- <- <- <-]. cbn [file calls stdout log_call].
      split; [reflexivity|]. split; [rewrite <- app_assoc; eauto|].
      split; [discriminate|]. split; [intros _; split; [lia|eauto]|]. auto. }
    destruct (bytes_at _ _ _) as [buf|].
    2:{ intros [= <- <- <- <-]. cbn [file calls stdout log_call].
        split; [reflexivity|]. split; [rewrite <- app_assoc; eauto|].
        split; [discriminate|]. split; [intros _; split; [lia|eauto]|]. auto. }
    destruct (ThunkWalk _ _ _ _ _ _ _ _) as [[[c names] w4]|] eqn:Hwalk;
      [|discriminate].
    apply ThunkWalk_effects in Hwalk as (Hf & [m Hm] & Hq & Herr & Hs).
    cbn [file calls stdout log_call set_cur] in Hf, Hm, Hq, Herr.
    assert (Hdl : Forall short dlls -> Forall short (dlls ++ [stored_name buf])).
    { intros H. apply Forall_app. split; [exact H|].
      constructor; [apply stored_name_short | constructor]. }
    assert (Hth : Forall (Forall short) thunks ->
                  Forall (Forall short) (thunks ++ [names])).
    { intros H. apply Forall_app. split; [exact H|].
      constructor; [apply Hs; constructor | constructor]. }
    destruct (Z.eqb_spec c 0) as [->|Hc]; cbn [negb].
    + intros H. apply IH in H as (Hf' & [m' Hm'] & H0 & H1 & Hd' & Ht').
      rewrite Hq in * by reflexivity.
      split; [congruence|].
      split; [rewrite Hm', Hm, <- !app_assoc; eauto|].
      split.
      { intros E. destruct (H0 E) as (-> & -> & ->).
        rewrite !length_app. cbn [length]. repeat split; lia. }
      split; [exact H1|]. split; auto.
    + intros [= <- <- <- <-].
      split; [exact Hf|].
      split; [rewrite Hm, <- !app_assoc; eauto|].
      split; [intros; contradiction|].
      split; [intros _; destruct (Herr Hc); split; [lia|assumption]|].
      auto.
Qed.

(** The loop ends within its fuel. *)
Lemma ReadNames_loop_total t Path nsec Sections fuel todo :
  forall dlls thunks w,
    (Z.of_nat (length (file w)) < Z.of_nat fuel) ->
    exists r w',
      ReadNames_loop fuel t Path nsec Sections todo dlls thunks w
      = Some (r, w').
Proof.
  induction todo as [|d rest IH]; intros dlls thunks w Hfuel.
  - cbn. unfold ret. eauto.
  - rewrite ReadNames_loop_step. cbv zeta.
    destruct (to_long _ <? 0); [eauto|].
    destruct (bytes_at _ _ _) as [buf|]; [|eauto].
    match goal with
    | |- context [ThunkWalk fuel t Path nsec Sections ?o ?n ?w3] =>
        destruct (ThunkWalk_total t Path nsec Sections fuel o n w3)
          as ([c names] & w4 & Hwalk)
    end.
    { apply SectionRvaFileOffset_range. }
    { lia. }
    { cbn [file log_call set_cur].
      pose proof (SectionRvaFileOffset_range nsec Sections (FirstThunk d)).
      lia. }
    rewrite Hwalk.
    apply ThunkWalk_effects in Hwalk as (Hf & _).
    cbn [file log_call set_cur] in Hf.
    destruct (negb (c =? 0)); [eauto|].
    apply IH. now rewrite Hf.
Qed.

(** A DLL name cut short by the end of the file ends the walk. *)
Lemma ReadNames_loop_name_cut t Path nsec Sections fuel d rest dlls thunks w :
  Z.of_nat (length (file w))
  < to_long (SectionRvaFileOffset nsec Sections (Name d)) + sizeof_Name ->
  exists code text w',
    ReadNames_loop fuel t Path nsec Sections (d :: rest) dlls thunks w
    = Some ((code, dlls, thunks), w')
    /\ (code = 3 \/ code = 4)
    /\ stdout w' = stdout w ++ [Diagnostic Path text].
Proof.
  intros Hlen. rewrite ReadNames_loop_step. cbv zeta.
  destruct (to_long _ <? 0).
  - do 3 eexists. split; [reflexivity|]. split; [now left | reflexivity].
  - rewrite bytes_at_short by (unfold sizeof_Name in *; lia).
    do 3 eexists. split; [reflexivity|]. split; [now right | reflexivity].
Qed.

(** The first calls of a step: the DLL-name address is resolved and the
    result sought, whatever their values; once the name has been read, so
    is the address of the thunk array. *)
Lemma ReadNames_loop_calls t Path nsec Sections fuel d rest dlls thunks w r w' :
  ReadNames_loop fuel t Path nsec Sections (d :: rest) dlls thunks w
  = Some (r, w') ->
  let Offset := SectionRvaFileOffset nsec Sections (Name d) in
  let ThunkOffset := SectionRvaFileOffset nsec Sections (FirstThunk d) in
  (exists more,
      calls w' = calls w ++ [Resolve DllName (Name d) Offset;
                             Seek (to_long Offset)] ++ more)
  /\ (forall buf,
         bytes_at (file w) (to_long Offset) sizeof_Name = Some buf ->
         exists more,
           calls w' =
           calls w ++ [Resolve DllName (Name d) Offset;
                       Seek (to_long Offset);
                       Resolve FirstThunkArray (FirstThunk d) ThunkOffset;
                       Seek (to_long ThunkOffset)] ++ more).
Proof.
  rewrite ReadNames_loop_step. cbv zeta.
  destruct (to_long _ <? 0) eqn:Hneg.
  { intros [= <- <-]. cbn [calls log_call]. split.
    - exists []. now rewrite <- app_assoc.
    - unfold bytes_at. rewrite Hneg. discriminate. }
  destruct (bytes_at _ _ _) as [buf|].
  2:{ intros [= <- <-]. cbn [calls log_call]. split.
      - exists []. now rewrite <- app_assoc.
      - discriminate. }
  destruct (ThunkWalk _ _ _ _ _ _ _ _) as [[[c names] w4]|] eqn:Hwalk;
    [|discriminate].
  apply ThunkWalk_first_seek in Hwalk as [m Hm].
  cbn [calls log_call set_cur] in Hm.
  assert (Hall : forall w5, (exists m', calls w5 = calls w4 ++ m') ->
            exists more,
              calls w5 =
              calls w ++ [Resolve DllName (Name d)
                            (SectionRvaFileOffset nsec Sections (Name d));
                          Seek (to_long (SectionRvaFileOffset nsec Sections (Name d)));
                          Resolve FirstThunkArray (FirstThunk d)
                            (SectionRvaFileOffset nsec Sections (FirstThunk d));
                          Seek (to_long (SectionRvaFileOffset nsec Sections
                                           (FirstThunk d)))] ++ more).
  { intros w5 [m' Hm']. exists (m ++ m'). rewrite Hm', Hm.
    rewrite <- !app_assoc. reflexivity. }
  intros H.
  assert (Hext : exists m', calls w' = calls w4 ++ m').
  { destruct (negb (c =? 0)).
    - injection H as <- <-. exists []. now rewrite app_nil_r.
    - destruct r as [[code dlls'] thunks'].
      apply ReadNames_loop_effects in H as (_ & Hm' & _). exact Hm'. }
  destruct (Hall w' Hext) as [more Hmore]. split.
  - eexists. rewrite Hmore. cbn [app]. reflexivity.
  - intros buf' _. eauto.
Qed.


(** ** The loop over the descriptors *)

Lemma ReadDescriptors_loop_effects Path n fuel :
  forall i descs w code descs' w',
    ReadDescriptors_loop fuel Path i n descs w = Some ((code, descs'), w') ->
    file w' = file w
    /\ calls w' = calls w
    /\ (code = 0 ->
        stdout w' = stdout w
        /\ (i <= n ->
            Z.of_nat (length descs') = Z.of_nat (length descs) + (n - i)))
    /\ (code <> 0 ->
        code = 2
        /\ stdout w' =
           stdout w ++ [Diagnostic Path "File too small to read import descriptor"]).
Proof.
  induction fuel as [|fuel IH]; intros i descs w code descs' w'.
  - cbn. destruct (Z.ltb_spec i n); [discriminate|].
    unfold ret. intros [= <- <- <-].
    repeat split; try reflexivity; intros; try lia; try contradiction.
  - cbn [ReadDescriptors_loop]. destruct (Z.ltb_spec i n).
    + io. split_if; io.
      * intros Hrun. apply IH in Hrun as (Hf & Hc & H0 & H1).
        cbn [file calls stdout] in *.
        split; [exact Hf|]. split; [exact Hc|]. split; [|exact H1].
        intros E. destruct (H0 E) as [Hs Hl]. split; [exact Hs|].
        intros _. rewrite Hl by lia. rewrite length_app. cbn [length]. lia.
      * intros [= <- <- <-]. cbn [file calls stdout].
        repeat split; try reflexivity; intros; try lia; discriminate.
    + unfold ret. intros [= <- <- <-].
      repeat split; try reflexivity; intros; try lia; try contradiction.
Qed.

Lemma ReadDescriptors_loop_total Path n fuel :
  forall i descs w,
    0 <= cur w ->
    (0 < fuel)%nat ->
    Z.of_nat (length (file w)) - cur w < Z.of_nat fuel ->
    exists r w', ReadDescriptors_loop fuel Path i n descs w = Some (r, w').
Proof.
  induction fuel as [|fuel IH]; intros i descs w Hcur Hpos Hfuel; [lia|].
  cbn [ReadDescriptors_loop]. destruct (i <? n); [|unfold ret; eauto].
  io. split_if; io; [|eauto]. eqb_facts.
  match goal with
  | H : Z.of_nat (length _) = _ |- _ =>
      apply chunk_length in H; [|assumption|reflexivity]
  end.
  unfold sizeof_IMPORT_DESCRIPTOR in *.
  apply IH; cbn [cur file]; lia.
Qed.

(** ** [ReadImportDescriptors] as a whole *)

(** The function always returns. *)
Lemma ReadImportDescriptors_total t Path NtHeaders Sections old w :
  exists r w',
    ReadImportDescriptors t Path NtHeaders Sections old w = Some (r, w').
Proof.
  unfold ReadImportDescriptors. io.
  split_if; io; [eauto|]. eqb_facts.
  match goal with
  | |- context [ReadDescriptors_loop ?fuel Path ?i ?n ?acc ?w1] =>
      destruct (ReadDescriptors_loop_total Path n fuel i acc w1)
        as ([code descs] & w2 & Hloop)
  end.
  { cbn [cur]. assumption. }
  { lia. }
  { cbn [cur file]. lia. }
  rewrite Hloop.
  apply ReadDescriptors_loop_effects in Hloop as (Hf & _).
  cbn [file] in Hf.
  destruct (negb (code =? 0)); [eauto|].
  match goal with
  | |- context [ReadNames_loop ?fuel t Path ?ns ?S ?todo ?d ?th ?w3] =>
      destruct (ReadNames_loop_total t Path ns S fuel todo d th w3)
        as ([[c dlls] thunks] & w4 & Hnames)
  end.
  { rewrite Hf. lia. }
  rewrite Hnames. eauto.
Qed.

(** What it leaves behind: nothing is printed when it returns 0 and exactly
    one diagnostic otherwise; the names it stores are short; on success
    there is one DLL name and one list of symbols per descriptor, and the
    descriptors number [NumberOfEntries]. *)
Lemma ReadImportDescriptors_effects t Path NtHeaders Sections old w code imps w' :
  ReadImportDescriptors t Path NtHeaders Sections old w
  = Some ((code, imps), w') ->
  file w' = file w
  /\ (code = 0 ->
      stdout w' = stdout w
      /\ Z.of_nat (length (ImportDescriptors imps))
         = NumberOfEntries (ImportDirectorySize t NtHeaders)
      /\ length (ImportDllNames imps) = length (ImportDescriptors imps)
      /\ length (ImportThunkNames imps) = length (ImportDescriptors imps))
  /\ (code <> 0 ->
      1 <= code <= 9
      /\ exists text, stdout w' = stdout w ++ [Diagnostic Path text])
  /\ Forall short (ImportDllNames imps)
  /\ Forall (Forall short) (ImportThunkNames imps).
Proof.
  unfold ReadImportDescriptors. io.
  split_if; io.
  { intros [= <- <- <-]. cbn [file stdout ImportDllNames ImportThunkNames].
    split; [reflexivity|]. split; [discriminate|].
    split; [intros _; split; [lia | eauto]|]. split; constructor. }
  destruct (ReadDescriptors_loop _ _ _ _ _ _) as [[[c descs] w2]|] eqn:Hloop;
    [|discriminate].
  apply ReadDescriptors_loop_effects in Hloop as (Hf & _ & H0 & H1).
  cbn [file stdout length] in Hf, H0, H1.
  destruct (Z.eqb_spec c 0) as [->|Hc]; cbn [negb].
  2:{ intros [= <- <- <-]. cbn [ImportDllNames ImportThunkNames].
      split; [exact Hf|]. split; [intros; contradiction|].
      split; [|split; constructor].
      intros _. destruct (H1 Hc) as [-> Hout]. split; [lia|eauto]. }
  destruct (ReadNames_loop _ _ _ _ _ _ _ _ _) as [[[[c dlls] thunks] w4]|]
    eqn:Hnames; [|discriminate].
  apply ReadNames_loop_effects in Hnames as (Hf' & _ & N0 & N1 & Hd & Ht).
  destruct (H0 eq_refl) as [Hs Hl].
  intros [= <- <- <-].
  cbn [ImportDescriptors ImportDllNames ImportThunkNames].
  split; [congruence|]. split.
  { intros E. destruct (N0 E) as (-> & -> & ->). rewrite Hs.
    split; [reflexivity|]. split; [|split; reflexivity].
    rewrite Hl; [lia|]. apply to_DWORD_range. }
  split.
  { intros E. destruct (N1 E) as [Hc [text Hout]]. split; [lia|].
    exists text. now rewrite Hout, Hs. }
  split; [apply Hd | apply Ht]; constructor.
Qed.


(** ** Projections of the test worlds *)

Lemma file_mkWorld f c s l : file (mkWorld f c s l) = f.
Proof. reflexivity. Qed.

Lemma contents_sys_file name bytes :
  contents (Image.sys_file name bytes) = Some bytes.
Proof. reflexivity. Qed.

(** ** The sentinel of the thunk walk *)

(** A turn at an entry whose hint is not 'MZ' and whose name can be read
    stores the name and goes on with the next entry. *)
Lemma ThunkTurn_goes_on t Path nsec Sections ThunkOffset names w h buf :
  thunk_hint t nsec Sections (file w) ThunkOffset = Some h -> h <> MZ ->
  thunk_name_buffer t nsec Sections (file w) ThunkOffset = Some buf ->
  exists w',
    ThunkTurn t Path nsec Sections ThunkOffset names w
    = Some (Continue (to_DWORD (ThunkOffset + sizeof_THUNK_DATA t))
                     (names ++ [stored_name buf]), w')
    /\ file w' = file w /\ stdout w' = stdout w.
Proof.
  unfold ThunkTurn, thunk_hint, thunk_name_buffer, thunk_value, bytes_at. io.
  repeat (split_if; io); eqb_facts; intros Hh Hne Hbuf;
    try discriminate; try congruence; try lia.
  injection Hbuf as <-. eexists. repeat split; reflexivity.
Qed.

(** A walk over an array that gives [syms] stores [syms] and leaves the
    loop by [break], with the fuel the program gives it. *)
Lemma ThunkWalk_reaches_sentinel t Path nsec Sections syms :
  forall fuel ThunkOffset names w,
    0 <= ThunkOffset <= DWORD_MAX ->
    (0 < fuel)%nat ->
    Z.of_nat (length (file w)) - ThunkOffset < Z.of_nat fuel ->
    names_before_sentinel t nsec Sections (file w) ThunkOffset syms ->
    exists w',
      ThunkWalk fuel t Path nsec Sections ThunkOffset names w
      = Some ((0, names ++ syms), w')
      /\ file w' = file w /\ stdout w' = stdout w.
Proof.
  induction syms as [|s syms IH];
    intros fuel ThunkOffset names w Hoff Hpos Hfuel [Hbefore Hlast];
    (destruct fuel as [|fuel]; [lia|]); rewrite ThunkWalk_step.
  - cbn [length] in Hlast.
    rewrite entry_offset_0, thunk_hint_to_DWORD in Hlast.
    apply (proj2 (ThunkTurn_break_iff t Path nsec Sections ThunkOffset
                    names w)) in Hlast.
    destruct Hlast as [w' Hturn].
    pose proof (ThunkTurn_total t Path nsec Sections ThunkOffset names w)
      as (turn & w1 & Hturn' & Hfile).
    rewrite Hturn in Hturn'. injection Hturn' as <- <-.
    rewrite Hturn, app_nil_r. exists w'. split; [reflexivity|].
    split; [exact Hfile|].
    eapply ThunkTurn_quiet; [exact Hturn | discriminate].
  - destruct (Hbefore 0%nat) as (h & buf & Hh & Hne & Hbuf & Hs);
      [cbn; lia|].
    cbn [nth_error] in Hs. injection Hs as ->.
    rewrite entry_offset_0, thunk_hint_to_DWORD in Hh.
    rewrite entry_offset_0, thunk_name_buffer_to_DWORD in Hbuf.
    destruct (ThunkTurn_goes_on t Path nsec Sections ThunkOffset names w
                h buf Hh Hne Hbuf) as (w1 & Hturn & Hfile & Hout).
    rewrite Hturn.
    apply ThunkTurn_continue in Hturn
      as (_ & _ & _ & _ & _ & _ & _ & Hlong & Hlen & _).
    destruct (to_long_nonneg ThunkOffset Hoff Hlong) as [Hsmall Heq].
    rewrite Heq in Hlen. pose proof (sizeof_THUNK_DATA_pos t) as Hsz.
    destruct (IH fuel (to_DWORD (ThunkOffset + sizeof_THUNK_DATA t))
                 (names ++ [stored_name buf]) w1)
      as (w' & Hwalk & Hfile' & Hout').
    + apply to_DWORD_range.
    + lia.
    + rewrite to_DWORD_small by (unfold DWORD_MAX; lia). rewrite Hfile. lia.
    + rewrite Hfile. split.
      * intros k Hk. rewrite entry_offset_next.
        destruct (Hbefore (S k)) as (h' & buf' & H'); [cbn; lia|].
        exists h', buf'. exact H'.
      * rewrite entry_offset_next. exact Hlast.
    + exists w'. rewrite Hwalk, <- app_assoc. split; [reflexivity|].
      split; congruence.
Qed.

(** The second loop, at a descriptor whose DLL name can be read and whose
    thunk array gives [syms]: it stores the name and [syms] and goes on
    with the next descriptor. *)
Lemma ReadNames_loop_stores_walk t Path nsec Sections fuel d rest dlls thunks
      w buf syms :
  Z.of_nat (length (file w)) < Z.of_nat fuel ->
  bytes_at (file w) (to_long (SectionRvaFileOffset nsec Sections (Name d)))
           sizeof_Name = Some buf ->
  names_before_sentinel t nsec Sections (file w)
    (SectionRvaFileOffset nsec Sections (FirstThunk d)) syms ->
  exists w',
    ReadNames_loop fuel t Path nsec Sections (d :: rest) dlls thunks w
    = ReadNames_loop fuel t Path nsec Sections rest
        (dlls ++ [stored_name buf]) (thunks ++ [syms]) w'
    /\ file w' = file w /\ stdout w' = stdout w.
Proof.
  intros Hfuel Hbuf Hsyms. rewrite ReadNames_loop_step. cbv zeta.
  pose proof Hbuf as Hpos. unfold bytes_at in Hpos.
  destruct (to_long _ <? 0); [discriminate|]. clear Hpos.
  rewrite Hbuf.
  pose proof (SectionRvaFileOffset_range nsec Sections (FirstThunk d)) as Hr.
  match goal with
  | |- context [ThunkWalk fuel t Path nsec Sections ?o [] ?w3] =>
      destruct (ThunkWalk_reaches_sentinel t Path nsec Sections syms
                  fuel o [] w3) as (w4 & Hwalk & Hfile & Hout)
  end.
  - exact Hr.
  - lia.
  - cbn [file log_call set_cur]. lia.
  - exact Hsyms.
  - rewrite Hwalk. cbn [negb Z.eqb app]. exists w4.
    split; [reflexivity|]. split; [exact Hfile | exact Hout].
Qed.

(** The symbol lists the second loop has stored when it returns 0: for
    every descriptor the names its thunk array gives. *)
Lemma ReadNames_loop_walks t Path nsec Sections fuel todo :
  forall dlls thunks w dlls' thunks' w',
    ReadNames_loop fuel t Path nsec Sections todo dlls thunks w
    = Some ((0, dlls', thunks'), w') ->
    exists lists,
      thunks' = thunks ++ lists
      /\ Forall2 (fun d syms =>
                    names_before_sentinel t nsec Sections (file w)
                      (SectionRvaFileOffset nsec Sections (FirstThunk d)) syms)
                 todo lists.
Proof.
  induction todo as [|d rest IH]; intros dlls thunks w dlls' thunks' w'.
  - cbn. unfold ret. intros [= <- <- <-]. exists [].
    rewrite app_nil_r. split; [reflexivity | constructor].
  - rewrite ReadNames_loop_step. cbv zeta.
    destruct (to_long _ <? 0); [discriminate|].
    destruct (bytes_at _ _ _) as [buf|]; [|discriminate].
    destruct (ThunkWalk _ _ _ _ _ _ _ _) as [[[c names] w4]|] eqn:Hwalk;
      [|discriminate].
    pose proof (ThunkWalk_effects _ _ _ _ _ _ _ _ _ _ _ Hwalk) as (Hf & _).
    cbn [file log_call set_cur] in Hf.
    destruct (Z.eqb_spec c 0) as [->|Hc]; cbn [negb].
    2:{ intros [= -> _ _ _]. contradiction. }
    apply ThunkWalk_sentinel in Hwalk as (syms & Hnames & Hbefore & Hlast).
    cbn [app file log_call set_cur] in Hnames, Hbefore, Hlast. subst names.
    intros H. apply IH in H as (lists & -> & Hall).
    exists (syms :: lists). rewrite <- app_assoc.
    split; [reflexivity|]. constructor.
    + split; assumption.
    + rewrite Hf in Hall. exact Hall.
Qed.

(** C2.  A turn of the thunk loop leaves the loop by [break] exactly when
    the hint read from the import-by-name structure is 'MZ', whatever the
    value of the thunk entry (a zero entry whose hint is not 'MZ' does not
    stop it); a turn that reads another hint and the name behind it
    stores the name and goes on with the next entry.  So a walk left by
    [break] has found 'MZ' at its entry [n], after [n] entries with
    another hint, each of which contributed one symbol name, in order;
    and over an array that has [n] such entries before an entry with the
    hint 'MZ' the walk, with the fuel the program gives it, stores those
    [n] names and is left by [break], without a diagnostic.  The loop over
    the descriptors then stores the DLL name and these names and goes on
    with the next descriptor; and when [ReadImportDescriptors] returns 0,
    the symbol list of every descriptor holds the names that the thunk
    array of that descriptor gives. *)
Theorem thunk_walk_stops_at_sentinel :
  forall t Path nsec Sections,
    (forall ThunkOffset names w,
        (exists w', ThunkTurn t Path nsec Sections ThunkOffset names w
                    = Some (Break, w'))
        <-> thunk_hint t nsec Sections (file w) ThunkOffset = Some MZ)
    /\ (forall ThunkOffset names w h,
           thunk_value t (file w) ThunkOffset = Some 0 ->
           thunk_hint t nsec Sections (file w) ThunkOffset = Some h ->
           h <> MZ ->
           forall w', ThunkTurn t Path nsec Sections ThunkOffset names w
                      <> Some (Break, w'))
    /\ (forall ThunkOffset names w h buf,
           thunk_hint t nsec Sections (file w) ThunkOffset = Some h ->
           h <> MZ ->
           thunk_name_buffer t nsec Sections (file w) ThunkOffset = Some buf ->
           exists w',
             ThunkTurn t Path nsec Sections ThunkOffset names w
             = Some (Continue (to_DWORD (ThunkOffset + sizeof_THUNK_DATA t))
                              (names ++ [stored_name buf]), w')
             /\ file w' = file w /\ stdout w' = stdout w)
    /\ (forall fuel ThunkOffset names w names' w',
           ThunkWalk fuel t Path nsec Sections ThunkOffset names w
           = Some ((0, names'), w') ->
           exists syms,
             names' = names ++ syms
             /\ names_before_sentinel t nsec Sections (file w) ThunkOffset
                                      syms)
    /\ (forall fuel ThunkOffset names w syms,
           0 <= ThunkOffset <= DWORD_MAX ->
           Z.of_nat (length (file w)) < Z.of_nat fuel ->
           names_before_sentinel t nsec Sections (file w) ThunkOffset syms ->
           exists w',
             ThunkWalk fuel t Path nsec Sections ThunkOffset names w
             = Some ((0, names ++ syms), w')
             /\ file w' = file w /\ stdout w' = stdout w)
    /\ (forall fuel d rest dlls thunks w buf syms,
           Z.of_nat (length (file w)) < Z.of_nat fuel ->
           bytes_at (file w)
                    (to_long (SectionRvaFileOffset nsec Sections (Name d)))
                    sizeof_Name = Some buf ->
           names_before_sentinel t nsec Sections (file w)
             (SectionRvaFileOffset nsec Sections (FirstThunk d)) syms ->
           exists w',
             ReadNames_loop fuel t Path nsec Sections (d :: rest) dlls thunks w
             = ReadNames_loop fuel t Path nsec Sections rest
                 (dlls ++ [stored_name buf]) (thunks ++ [syms]) w'
             /\ file w' = file w /\ stdout w' = stdout w)
    /\ (forall N old w imps w',
           NumberOfSections N = nsec ->
           ReadImportDescriptors t Path N Sections old w
           = Some ((0, imps), w') ->
           Forall2 (fun d syms =>
                      names_before_sentinel t nsec Sections (file w)
                        (SectionRvaFileOffset nsec Sections (FirstThunk d))
                        syms)
                   (ImportDescriptors imps) (ImportThunkNames imps)).
Proof.
  intros t Path nsec Sections.
  split; [intros; apply ThunkTurn_break_iff|].
  split.
  { intros ThunkOffset names w h _ Hh Hne w' Hturn.
    assert (Hmz : thunk_hint t nsec Sections (file w) ThunkOffset = Some MZ)
      by (eapply (proj1 (ThunkTurn_break_iff _ _ _ _ _ _ _)); eauto).
    congruence. }
  split; [intros; eapply ThunkTurn_goes_on; eauto|].
  split.
  { intros fuel ThunkOffset names w names' w' H.
    apply ThunkWalk_sentinel in H as (syms & Hn & Hbefore & Hlast).
    exists syms. split; [exact Hn | split; assumption]. }
  split.
  { intros fuel ThunkOffset names w syms Hoff Hfuel Hsyms.
    apply ThunkWalk_reaches_sentinel; [exact Hoff | lia | lia | exact Hsyms]. }
  split; [intros; eapply ReadNames_loop_stores_walk; eauto|].
  intros N old w imps w' <-. unfold ReadImportDescriptors. io.
  split_if; io; [discriminate|].
  destruct (ReadDescriptors_loop _ _ _ _ _ _) as [[[c descs] w2]|] eqn:Hloop;
    [|discriminate].
  apply ReadDescriptors_loop_effects in Hloop as (Hf & _).
  cbn [file] in Hf.
  destruct (Z.eqb_spec c 0) as [->|Hc]; cbn [negb];
    [|intros H; injection H as E _ _; contradiction].
  destruct (ReadNames_loop _ _ _ _ _ _ _ _ _) as [[[[c' dlls] thunks] w4]|]
    eqn:Hnames; [|discriminate].
  intros [= -> <- <-].
  apply ReadNames_loop_walks in Hnames as (lists & -> & Hall).
  cbn [ImportDescriptors ImportThunkNames app]. rewrite <- Hf. exact Hall.
Qed.

(** The theorem at the driver image: the thunk array at offset 0x260 gives
    the two names IoCreateDevice and ZwOpenProcess before its entry 2,
    whose hint is 'MZ', and the walk stores them and is left by [break];
    and at the image whose section maps address 0, the turn at the zero
    entry (offset 0x2c8) does not leave the loop. *)
Lemma thunk_walk_stops_at_sentinel_witness :
  (exists w',
      ThunkWalk 769 M_X64 "driver.sys" 1 [Image.idata] 608 []
                (mkWorld Image.driver_sys 0 [] [])
      = Some ((0, [Image.text "IoCreateDevice"; Image.text "ZwOpenProcess"]),
              w'))
  /\ thunk_hint M_X64 1 [Image.idata] Image.driver_sys
                (entry_offset M_X64 608 2) = Some MZ
  /\ forall w',
      ThunkTurn M_X64 "ghost.sys" 1 [Image.low_section] 712 []
                (mkWorld Image.zero_mapped_sys 0 [] [])
      <> Some (Break, w').
Proof.
  pose proof (thunk_walk_stops_at_sentinel M_X64 "driver.sys" 1 [Image.idata])
    as (_ & _ & _ & Hback & Hwalk & _).
  pose proof (thunk_walk_stops_at_sentinel M_X64 "ghost.sys" 1
                [Image.low_section]) as (_ & Hzero & _).
  assert (Hsyms : names_before_sentinel M_X64 1 [Image.idata] Image.driver_sys
                    608 [Image.text "IoCreateDevice";
                         Image.text "ZwOpenProcess"]).
  { split.
    - intros [|[|k]] Hk; [| |cbn in Hk; lia]; do 2 eexists.
      + split; [vm_compute; reflexivity|].
        split; [discriminate|].
        split; vm_compute; reflexivity.
      + split; [vm_compute; reflexivity|].
        split; [discriminate|].
        split; vm_compute; reflexivity.
    - vm_compute. reflexivity. }
  split; [|split].
  - destruct (Hwalk 769%nat 608 [] (mkWorld Image.driver_sys 0 [] [])
                [Image.text "IoCreateDevice"; Image.text "ZwOpenProcess"])
      as (w' & Hrun & _).
    + unfold DWORD_MAX. lia.
    + rewrite file_mkWorld. vm_compute. reflexivity.
    + rewrite file_mkWorld. exact Hsyms.
    + exists w'. exact Hrun.
  - exact (proj2 Hsyms).
  - apply (Hzero 712 [] (mkWorld Image.zero_mapped_sys 0 [] []) 0).
    + vm_compute. reflexivity.
    + vm_compute. reflexivity.
    + discriminate.
Defined.


(** ** Zero thunk entries *)

Lemma byte_of_val (b : byte) (n : N) (c : byte) :
  byte_val b = Z.of_N n -> Byte.of_N n = Some c -> b = c.
Proof.
  unfold byte_val. intros H Hc. apply N2Z.inj in H.
  pose proof (Byte.of_to_N b) as Hb. rewrite H, Hc in Hb. congruence.
Qed.

(** [ReadMagicNumber], called on a file just opened, returns 0 exactly
    when the file starts with MZ. *)
Lemma ReadMagicNumber_accepts Path DosHeader w :
  cur w = 0 ->
  ((exists D' w', ReadMagicNumber Path DosHeader w = Some ((0, D'), w'))
   <-> starts_with_MZ (file w)).
Proof.
  intros Hcur. unfold ReadMagicNumber, starts_with_MZ. io. rewrite Hcur.
  change (Z.to_nat 0) with 0%nat. change (Z.to_nat 2) with 2%nat.
  rewrite skipn_O.
  destruct (file w) as [|b0 [|b1 rest]].
  - cbn. split; [intros (? & ? & [=]) | discriminate].
  - cbn. split; [intros (? & ? & [=]) | discriminate].
  - cbn [firstn length Z.of_nat Pos.of_succ_nat Pos.succ Z.eqb Pos.eqb].
    cbn [negb e_magic]. unfold fill. cbn [length app skipn firstn le].
    destruct (Z.eqb_spec (byte_val b0 + 256 * (byte_val b1 + 256 * 0)) MZ)
      as [E|E]; cbn [negb].
    + split; [intros _ | intros _; do 2 eexists; reflexivity].
      pose proof (byte_val_range b0). pose proof (byte_val_range b1).
      unfold MZ in E.
      assert (byte_val b0 = Z.of_N 77) by (cbn; lia).
      assert (byte_val b1 = Z.of_N 90) by (cbn; lia).
      f_equal; [|f_equal]; eapply byte_of_val; eauto.
    + split; [intros (? & ? & [=]) |]. intros [= -> ->].
      exfalso. apply E. reflexivity.
Qed.

Lemma thunk_hint_zero_unmapped t nsec Sections f ThunkOffset :
  starts_with_MZ f ->
  thunk_value t f ThunkOffset = Some 0 ->
  SectionRvaFileOffset nsec Sections 0 = 0 ->
  thunk_hint t nsec Sections f ThunkOffset = Some MZ.
Proof.
  unfold starts_with_MZ. intros Hmz Hv Hmap.
  unfold thunk_hint. rewrite Hv, Hmap. unfold bytes_at.
  change (to_long 0) with 0. change (Z.to_nat 0) with 0%nat.
  change (Z.to_nat 2) with 2%nat. rewrite skipn_O, Hmz. reflexivity.
Qed.

(** C9, amended.  In a file that starts with MZ (one that passed the magic
    check), when no section contains address 0, a zero thunk entry ends the
    walk: zero resolves to offset 0, the seek goes to offset 0, the hint
    read there is 'MZ' and the loop is left by [break], with nothing
    printed and no name added. *)
Theorem zero_thunk_ends_walk_when_unmapped :
  forall t Path nsec Sections fuel ThunkOffset names w,
    starts_with_MZ (file w) ->
    thunk_value t (file w) ThunkOffset = Some 0 ->
    (forall s, In s Sections -> ~ contains s 0) ->
    zero_entry_breaks t Path nsec Sections w ThunkOffset names
    /\ exists w',
        ThunkWalk (S fuel) t Path nsec Sections ThunkOffset names w
        = Some ((0, names), w')
        /\ calls w' = calls w ++ [Seek (to_long ThunkOffset);
                                  Resolve ThunkValue 0 0; Seek 0]
        /\ stdout w' = stdout w.
Proof.
  intros t Path nsec Sections fuel ThunkOffset names w Hmz Hv Hno.
  pose proof (SectionRvaFileOffset_unmapped nsec Sections 0 Hno) as Hmap.
  pose proof (thunk_hint_zero_unmapped t nsec Sections _ _ Hmz Hv Hmap) as Hh.
  apply (proj2 (ThunkTurn_break_iff t Path nsec Sections ThunkOffset names w))
    in Hh as [w' Hturn].
  split; [intros _ _; eauto|].
  exists w'. rewrite ThunkWalk_step, Hturn. split; [reflexivity|].
  split.
  - destruct (ThunkTurn_calls t Path nsec Sections ThunkOffset names w 0 Hv)
      as (turn & w'' & Hturn' & Hcalls).
    rewrite Hturn in Hturn'. injection Hturn' as <- <-.
    now rewrite Hcalls, Hmap.
  - eapply ThunkTurn_quiet; [exact Hturn | discriminate].
Qed.

(** The theorem at the driver image, whose thunk array ends with a zero
    entry at offset 0x270. *)
Lemma zero_thunk_ends_walk_when_unmapped_witness :
  exists w',
    ThunkWalk 1 M_X64 "driver.sys" 1 [Image.idata] 624 []
              (mkWorld Image.driver_sys 0 [] [])
    = Some ((0, []), w')
    /\ calls w' = [Seek 624; Resolve ThunkValue 0 0; Seek 0]
    /\ stdout w' = [].
Proof.
  apply (zero_thunk_ends_walk_when_unmapped
           M_X64 "driver.sys" 1 [Image.idata] 0 624 []
           (mkWorld Image.driver_sys 0 [] [])).
  - vm_compute. reflexivity.
  - vm_compute. reflexivity.
  - intros s [<-|[]]. unfold contains. cbn. lia.
Defined.

(** C9 as stated fails: the image [zero_mapped_sys] starts with MZ and its
    thunk entry at offset 0x2c8 is zero, but address 0 lies in its section,
    so that the turn reads the structure at offset 0x200, stores the name
    found there and goes on. *)
Lemma zero_thunk_goes_on_when_mapped :
  let w := mkWorld Image.zero_mapped_sys 0 [] [] in
  ~ zero_entry_breaks M_X64 "ghost.sys" 1 [Image.low_section] w 712 []
  /\ exists w',
      ThunkTurn M_X64 "ghost.sys" 1 [Image.low_section] 712 [] w
      = Some (Continue 720 [Image.text "Ghost"], w').
Proof.
  intros w.
  assert (Hturn : exists w',
             ThunkTurn M_X64 "ghost.sys" 1 [Image.low_section] 712 [] w
             = Some (Continue 720 [Image.text "Ghost"], w'))
    by (eexists; vm_compute; reflexivity).
  split; [|exact Hturn].
  intros Hclaim. destruct Hturn as [w1 Hturn].
  destruct Hclaim as [w2 Hbreak]; [reflexivity | reflexivity |].
  rewrite Hturn in Hbreak. discriminate.
Qed.


(** ** What is passed to the resolver *)

(** C4, amended.  The walker does not check addresses before resolving
    them: for every descriptor the DLL-name address is resolved and the
    offset returned is sought, then (once the name is read) the thunk-array
    address is resolved and sought; in every turn the thunk value read is
    resolved and the offset returned is sought.  This holds whatever the
    address and the offset are, zero included. *)
Theorem walker_resolves_unchecked :
  forall t Path nsec Sections,
    (forall fuel d rest dlls thunks w r w',
        ReadNames_loop fuel t Path nsec Sections (d :: rest) dlls thunks w
        = Some (r, w') ->
        let Offset := SectionRvaFileOffset nsec Sections (Name d) in
        let ThunkOffset := SectionRvaFileOffset nsec Sections (FirstThunk d) in
        (exists more,
            calls w' = calls w ++ [Resolve DllName (Name d) Offset;
                                   Seek (to_long Offset)] ++ more)
        /\ (forall buf,
               bytes_at (file w) (to_long Offset) sizeof_Name = Some buf ->
               exists more,
                 calls w' =
                 calls w ++ [Resolve DllName (Name d) Offset;
                             Seek (to_long Offset);
                             Resolve FirstThunkArray (FirstThunk d) ThunkOffset;
                             Seek (to_long ThunkOffset)] ++ more))
    /\ (forall ThunkOffset names w v,
           thunk_value t (file w) ThunkOffset = Some v ->
           exists turn w',
             ThunkTurn t Path nsec Sections ThunkOffset names w
             = Some (turn, w')
             /\ calls w' =
                calls w ++ [Seek (to_long ThunkOffset);
                            Resolve ThunkValue v
                              (SectionRvaFileOffset nsec Sections v);
                            Seek (to_long
                                    (SectionRvaFileOffset nsec Sections v))]).
Proof.
  intros t Path nsec Sections. split.
  - intros fuel d rest dlls thunks w r w' H.
    exact (ReadNames_loop_calls _ _ _ _ _ _ _ _ _ _ _ _ H).
  - intros. now apply ThunkTurn_calls.
Qed.

(** The theorem at the driver image: the step for its descriptor resolves
    and seeks the DLL name and the thunk array, and the turn at the closing
    zero entry of the thunk array (offset 0x270) resolves 0 and seeks to
    offset 0. *)
Lemma walker_resolves_unchecked_witness :
  (exists r w' more,
      ReadNames_loop 769 M_X64 "driver.sys" 1 [Image.idata]
        [mkDescriptor 4160 4192] [] [] (mkWorld Image.driver_sys 532 [] [])
      = Some (r, w')
      /\ calls w' =
         [] ++ [Resolve DllName 4160 576; Seek 576;
                Resolve FirstThunkArray 4192 608; Seek 608] ++ more)
  /\ exists turn w',
      ThunkTurn M_X64 "driver.sys" 1 [Image.idata] 624 []
                (mkWorld Image.driver_sys 0 [] [])
      = Some (turn, w')
      /\ calls w' = [Seek 624; Resolve ThunkValue 0 0; Seek 0].
Proof.
  destruct (walker_resolves_unchecked M_X64 "driver.sys" 1 [Image.idata])
    as [Hnames Hturn].
  split.
  - destruct (ReadNames_loop 769 M_X64 "driver.sys" 1 [Image.idata]
                [mkDescriptor 4160 4192] [] []
                (mkWorld Image.driver_sys 532 [] []))
      as [[r w']|] eqn:Hrun; [|vm_compute in Hrun; discriminate].
    destruct (Hnames _ _ _ _ _ _ _ _ Hrun) as [_ Hread].
    edestruct Hread as [more Hmore]; [vm_compute; reflexivity|].
    exists r, w', more. split; [reflexivity | exact Hmore].
  - apply (Hturn 624 [] (mkWorld Image.driver_sys 0 [] []) 0).
    vm_compute. reflexivity.
Defined.

(** C4 as stated fails: on the driver image, whose thunk array is closed by
    a zero entry, the walker passes the value 0 to the resolver and seeks
    to the offset 0 that stands for an address in no section. *)
Lemma walker_resolves_zero_thunk :
  exists imps w',
    ReadImportDescriptors M_X64 "driver.sys" driver_NtHeaders [Image.idata]
      (mkImports [] [] []) (mkWorld Image.driver_sys 368 [] [])
    = Some ((0, imps), w')
    /\ calls w' =
       [Resolve ImportDirectory 4096 512; Seek 512;
        Resolve DllName 4160 576; Seek 576;
        Resolve FirstThunkArray 4192 608; Seek 608;
        Resolve ThunkValue 4224 640; Seek 640;
        Seek 616; Resolve ThunkValue 4288 704; Seek 704;
        Seek 624; Resolve ThunkValue 0 0; Seek 0]
    /\ zero_checked [Image.idata] (calls w') = false.
Proof.
  do 2 eexists. split; [vm_compute; reflexivity|].
  split; vm_compute; reflexivity.
Qed.

(** ** Names cut short by the end of the file *)

(** C10.  A DLL name, and a symbol name, is read as a block of 32 bytes:
    when fewer than 32 bytes are left where the DLL name starts, the loop
    returns 3 or 4, and when fewer than 32 bytes are left after the hint of
    a symbol, the turn returns 9, each after one diagnostic and whatever
    the bytes that are left contain; the two images whose last bytes are a
    terminated name are rejected in this way. *)
Theorem names_need_32_bytes :
  forall t Path nsec Sections,
    (forall fuel d rest dlls thunks w,
        Z.of_nat (length (file w))
        < to_long (SectionRvaFileOffset nsec Sections (Name d)) + sizeof_Name ->
        exists code text w',
          ReadNames_loop fuel t Path nsec Sections (d :: rest) dlls thunks w
          = Some ((code, dlls, thunks), w')
          /\ (code = 3 \/ code = 4)
          /\ stdout w' = stdout w ++ [Diagnostic Path text])
    /\ (forall ThunkOffset names w v h,
           thunk_value t (file w) ThunkOffset = Some v ->
           thunk_hint t nsec Sections (file w) ThunkOffset = Some h ->
           h <> MZ ->
           Z.of_nat (length (file w))
           < to_long (SectionRvaFileOffset nsec Sections v) + 2 + sizeof_Name ->
           exists w',
             ThunkTurn t Path nsec Sections ThunkOffset names w
             = Some (Return 9, w'))
    /\ Image.run [Image.sys_file "cut.sys" Image.dll_name_at_end_sys]
                 ["IoCreateDevice"%string]
       = Some [Diagnostic "cut.sys"
                 "File too small to read import descriptor name"]
    /\ Image.run [Image.sys_file "cut.sys" Image.symbol_name_at_end_sys]
                 ["IoCreateDevice"%string]
       = Some [Diagnostic "cut.sys"
                 "File too small to read thunk name from thunk"].
Proof.
  intros t Path nsec Sections. split; [|split; [|split]].
  - intros. now apply ReadNames_loop_name_cut.
  - intros. eapply ThunkTurn_name_cut; eauto.
  - vm_compute. reflexivity.
  - vm_compute. reflexivity.
Qed.

(** The theorem at the image whose DLL name [ntoskrnl.exe] and terminator
    are the last 13 bytes of the file, and at the image whose symbol name
    [IoCreateDevice] and terminator are the last 15. *)
Lemma names_need_32_bytes_witness :
  (exists code text w',
      ReadNames_loop 641 M_X64 "cut.sys" 1 [Image.idata]
        [mkDescriptor 4211 4192] [] []
        (mkWorld Image.dll_name_at_end_sys 532 [] [])
      = Some ((code, [], []), w')
      /\ (code = 3 \/ code = 4)
      /\ stdout w' = [] ++ [Diagnostic "cut.sys" text])
  /\ exists w',
      ThunkTurn M_X64 "cut.sys" 1 [Image.idata] 608 []
                (mkWorld Image.symbol_name_at_end_sys 608 [] [])
      = Some (Return 9, w').
Proof.
  pose proof (names_need_32_bytes M_X64 "cut.sys" 1 [Image.idata])
    as (Hdll & Hsym & _).
  split.
  - apply (Hdll 641%nat (mkDescriptor 4211 4192) [] [] []
                (mkWorld Image.dll_name_at_end_sys 532 [] [])).
    vm_compute. reflexivity.
  - apply (Hsym 608 [] (mkWorld Image.symbol_name_at_end_sys 608 [] [])
                4335 0).
    + vm_compute. reflexivity.
    + vm_compute. reflexivity.
    + discriminate.
    + vm_compute. reflexivity.
Defined.

(** ** The name buffer *)

Lemma fread_at_most (size : Z) (w : World) (count : Z) (got : list byte) w' :
  fread size w = Some ((count, got), w') ->
  (length got <= Z.to_nat size)%nat.
Proof.
  unfold fread. destruct (_ =? size); intros [= <- <- <-];
    rewrite length_firstn; lia.
Qed.

(** C5.  Every DLL name and every symbol name that [ReadImportDescriptors]
    stores has at most 31 characters; a read into the name buffer never
    delivers more than its 32 bytes; and where a NUL-terminated string
    without inner NUL starts, the value stored is its first 31 characters,
    so that strings of 31, 32 and 100 characters are all stored with 31
    characters. *)
Theorem names_fit_the_buffer :
  (forall t Path NtHeaders Sections old w code imps w',
      ReadImportDescriptors t Path NtHeaders Sections old w
      = Some ((code, imps), w') ->
      Forall short (ImportDllNames imps)
      /\ Forall (Forall short) (ImportThunkNames imps))
  /\ (forall w count got w',
         fread sizeof_Name w = Some ((count, got), w') ->
         (length got <= 32)%nat)
  /\ (forall buf, short (stored_name buf))
  /\ (forall name rest,
         ~ In x00 name ->
         stored_name (firstn 32 (name ++ x00 :: rest)) = firstn 31 name)
  /\ (forall n rest,
         n = 31%nat \/ n = 32%nat \/ n = 100%nat ->
         length (stored_name (firstn 32 (Image.letters n ++ x00 :: rest)))
         = 31%nat).
Proof.
  split; [|split; [|split; [|split]]].
  - intros t Path NtHeaders Sections old w code imps w' H.
    apply ReadImportDescriptors_effects in H as (_ & _ & _ & Hd & Ht). auto.
  - intros w count got w' H. apply fread_at_most in H. exact H.
  - apply stored_name_short.
  - apply stored_name_of_string.
  - intros n rest Hn. rewrite stored_name_of_string.
    + rewrite length_firstn. unfold Image.letters. rewrite repeat_length.
      destruct Hn as [-> | [-> | ->]]; reflexivity.
    + unfold Image.letters. intros Hin. apply repeat_spec in Hin.
      discriminate.
Qed.

(** The theorem at the driver image and at names of 31, 32 and 100
    letters. *)
Lemma names_fit_the_buffer_witness :
  (exists imps,
      Forall short (ImportDllNames imps)
      /\ Forall (Forall short) (ImportThunkNames imps)
      /\ ImportDllNames imps = [Image.text "ntoskrnl.exe"])
  /\ stored_name (firstn 32 (Image.letters 31 ++ [x00])) = Image.letters 31
  /\ stored_name (firstn 32 (Image.letters 32 ++ [x00])) = Image.letters 31
  /\ stored_name (firstn 32 (Image.letters 100 ++ [x00])) = Image.letters 31.
Proof.
  destruct names_fit_the_buffer as (Hrun & _ & _ & Hstr & _).
  split; [|split; [|split]].
  - edestruct (Hrun M_X64 "driver.sys"%string driver_NtHeaders [Image.idata]
                    (mkImports [] [] [])
                    (mkWorld Image.driver_sys 368 [] [])) as [Hd Ht].
    { vm_compute. reflexivity. }
    eexists. split; [exact Hd|]. split; [exact Ht|]. reflexivity.
  - rewrite (Hstr (Image.letters 31) []); [reflexivity|].
    intros Hin. apply repeat_spec in Hin. discriminate.
  - rewrite (Hstr (Image.letters 32) []); [reflexivity|].
    intros Hin. apply repeat_spec in Hin. discriminate.
  - rewrite (Hstr (Image.letters 100) []); [reflexivity|].
    intros Hin. apply repeat_spec in Hin. discriminate.
Defined.


(** ** The header readers and the section reader *)

Lemma ReadMagicNumber_effects Path DosHeader w :
  exists code D' w',
    ReadMagicNumber Path DosHeader w = Some ((code, D'), w')
    /\ file w' = file w
    /\ (code = 0 -> stdout w' = stdout w)
    /\ (code <> 0 ->
        exists text, stdout w' = stdout w ++ [Diagnostic Path text]).
Proof.
  unfold ReadMagicNumber. io. cbn [e_magic].
  repeat (split_if; io); do 3 eexists; (split; [reflexivity|]);
    cbn [file stdout]; (split; [reflexivity|]);
    split; intros; try lia; try reflexivity; eauto.
Qed.

Lemma ReadNtHeaders_effects t Path DosHeader NtHeaders w :
  exists code D' N' w',
    ReadNtHeaders t Path DosHeader NtHeaders w = Some ((code, D', N'), w')
    /\ file w' = file w
    /\ (code = 0 -> stdout w' = stdout w)
    /\ (code = 5 ->
        stdout w' = stdout w
        /\ Signature N' = PE /\ Machine N' <> IMAGE_FILE_MACHINE t)
    /\ (code <> 0 -> code <> 5 ->
        exists text, stdout w' = stdout w ++ [Diagnostic Path text]).
Proof.
  unfold ReadNtHeaders. io. cbn [e_magic e_tail].
  repeat (split_if; io); do 4 eexists; (split; [reflexivity|]);
    cbn [file stdout]; (split; [reflexivity|]);
    (split; [intros; try lia; reflexivity|]);
    (split; [intros; try lia|intros; try lia; eauto]).
  eqb_facts. auto.
Qed.

Lemma ReadSections_loop_effects Path n :
  forall i Secs w,
  exists code Secs' w',
    ReadSections_loop Path n i Secs w = Some ((code, Secs'), w')
    /\ file w' = file w
    /\ (code = 0 ->
        stdout w' = stdout w /\ length Secs' = (length Secs + n)%nat)
    /\ (code <> 0 ->
        exists k, stdout w' = stdout w ++ [DiagnosticSection Path k]).
Proof.
  induction n as [|n IH]; intros i Secs w.
  - cbn. unfold ret. do 3 eexists. split; [reflexivity|].
    split; [reflexivity|]. split; [intros; split; [reflexivity|lia]|].
    intros; lia.
  - cbn [ReadSections_loop]. io. split_if; io.
    + match goal with
      | |- context [ReadSections_loop Path n ?j ?S ?w1] =>
          destruct (IH j S w1) as (c & S' & w' & Hrun & Hf & H0 & H1)
      end.
      rewrite Hrun. do 3 eexists. split; [reflexivity|].
      cbn [file stdout] in *. split; [exact Hf|]. split; [|exact H1].
      intros E. destruct (H0 E) as [Hs Hl]. split; [exact Hs|].
      rewrite Hl, length_app. cbn [length]. lia.
    + do 3 eexists. split; [reflexivity|]. cbn [file stdout].
      split; [reflexivity|]. split; [intros; lia|]. intros _. eauto.
Qed.

Lemma ReadSections_effects Path n old w :
  exists code Secs' w',
    ReadSections Path n old w = Some ((code, Secs'), w')
    /\ file w' = file w
    /\ (code = 0 ->
        stdout w' = stdout w /\ length Secs' = Z.to_nat n)
    /\ (code <> 0 ->
        exists k, stdout w' = stdout w ++ [DiagnosticSection Path k]).
Proof. unfold ReadSections. apply ReadSections_loop_effects. Qed.

(** The resolver is always called with the count of the sections it is
    given: [ReadSections] stores exactly [NumberOfSections] sections. *)
Lemma ReadSections_count Path NtHeaders old w Secs w' :
  ReadSections Path (NumberOfSections NtHeaders) old w = Some ((0, Secs), w') ->
  NumberOfSections NtHeaders = Z.of_nat (length Secs).
Proof.
  intros H.
  destruct (ReadSections_effects Path (NumberOfSections NtHeaders) old w)
    as (c & S' & w1 & Hrun & _ & H0 & _).
  rewrite Hrun in H. injection H as -> -> ->.
  destruct (H0 eq_refl) as [_ Hl]. rewrite Hl.
  pose proof (field_range 6 2 NtHeaders). unfold NumberOfSections in *. lia.
Qed.


(** ** Matching the requested names *)

Lemma name_eqb_eq (a b : list byte) : name_eqb a b = true <-> a = b.
Proof.
  revert b. induction a as [|x a IH]; intros [|y b]; cbn;
    try (split; [discriminate | discriminate]); [tauto|].
  rewrite andb_true_iff, IH. split.
  - intros [Hxy ->]. apply Byte.byte_dec_bl in Hxy. now subst.
  - intros [= -> ->]. split; [|reflexivity]. now apply Byte.byte_dec_lb.
Qed.

Lemma match_imports_spec numImports name :
  forall ppszImports oss importCount,
    match_imports numImports name ppszImports oss importCount =
    (oss ++ (if 1 <? numImports
             then filter (name_eqb name) ppszImports else []),
     importCount + Z.of_nat (length (filter (name_eqb name) ppszImports))).
Proof.
  induction ppszImports as [|imp rest IH]; intros oss importCount.
  - cbn. destruct (1 <? numImports); rewrite app_nil_r; f_equal; lia.
  - cbn [match_imports filter]. destruct (name_eqb name imp).
    + rewrite IH. destruct (1 <? numImports); cbn [length];
        rewrite <- ?app_assoc; f_equal; lia.
    + apply IH.
Qed.

Lemma match_names_spec numImports ppszImports :
  forall names oss importCount,
    match_names numImports names ppszImports oss importCount =
    (oss ++ (if 1 <? numImports
             then flat_map (fun name => filter (name_eqb name) ppszImports)
                           names
             else []),
     importCount
     + Z.of_nat (length (flat_map
                           (fun name => filter (name_eqb name) ppszImports)
                           names))).
Proof.
  induction names as [|name rest IH]; intros oss importCount.
  - cbn. destruct (1 <? numImports); rewrite app_nil_r; f_equal; lia.
  - cbn [match_names flat_map]. rewrite match_imports_spec, IH.
    rewrite length_app.
    destruct (1 <? numImports); rewrite <- ?app_assoc, ?app_nil_r;
      f_equal; lia.
Qed.

Lemma match_dlls_spec numImports ppszImports :
  forall thunks oss importCount,
    match_dlls numImports thunks ppszImports oss importCount =
    (oss ++ (if 1 <? numImports
             then matches ppszImports thunks else []),
     importCount
     + Z.of_nat (length (matches ppszImports thunks))).
Proof.
  unfold matches.
  induction thunks as [|names rest IH]; intros oss importCount.
  - cbn. destruct (1 <? numImports); rewrite app_nil_r; f_equal; lia.
  - cbn [match_dlls concat]. rewrite match_names_spec, IH.
    rewrite flat_map_app, length_app.
    destruct (1 <? numImports); rewrite <- ?app_assoc, ?app_nil_r;
      f_equal; lia.
Qed.

(** The loops of [main] compute the matches, their number, and the list
    that is printed. *)
Lemma match_dlls_matches ppszImports thunks :
  match_dlls (Z.of_nat (length ppszImports)) thunks ppszImports [] 0
  = (listing ppszImports thunks,
     Z.of_nat (length (matches ppszImports thunks))).
Proof. rewrite match_dlls_spec. reflexivity. Qed.

(** ** One file *)

Lemma bind_run {A B} (m : IO A) (k : A -> IO B) w a w' :
  m w = Some (a, w') -> bind m k w = k a w'.
Proof. unfold bind. now intros ->. Qed.

(** What the body of the loop does with one directory entry, by the way
    it is left. *)
Lemma ScanFile_cases t ext imps e v w :
  exists verdict v' w' report,
    ScanFile t ext imps e v w = Some ((verdict, v'), w')
    /\ stdout w' = stdout w ++ report
    /\ match verdict with
       | WrongExtension => extension e <> ext /\ report = [] /\ v' = v
       | NotOpened => contents e = None /\ report = [] /\ v' = v
       | BadMagic r =>
           r <> 0 /\ numResults v' = numResults v
           /\ exists text, report = [Diagnostic (path e) text]
       | BadHeaders r =>
           r <> 0 /\ numResults v' = numResults v
           /\ (r = 5 ->
               report = []
               /\ Machine (NtHeaders v') <> IMAGE_FILE_MACHINE t)
           /\ (r <> 5 -> exists text, report = [Diagnostic (path e) text])
       | BadSections r =>
           r <> 0 /\ numResults v' = numResults v
           /\ exists i, report = [DiagnosticSection (path e) i]
       | BadImports r =>
           r <> 0 /\ numResults v' = numResults v
           /\ exists text, report = [Diagnostic (path e) text]
       | NoMatch =>
           numResults v' = numResults v /\ report = []
           /\ matches imps (ImportThunkNames (imports v')) = []
       | Reported =>
           numResults v' = numResults v + 1
           /\ matches imps (ImportThunkNames (imports v')) <> []
           /\ exists bytes,
               contents e = Some bytes
               /\ report =
                  [ScanResult (numResults v) (path e)
                     (SizeInBytes_of bytes)
                     (Z.of_nat (length (matches imps
                                          (ImportThunkNames (imports v')))))
                     (listing imps (ImportThunkNames (imports v')))]
       end.
Proof.
  unfold ScanFile.
  destruct (String.eqb_spec (extension e) ext) as [Hext|Hext]; cbn [negb].
  2:{ exists WrongExtension, v, w, []. rewrite app_nil_r. unfold ret. auto. }
  destruct (contents e) as [bytes|] eqn:Hbytes.
  2:{ exists NotOpened, v, w, []. rewrite app_nil_r. unfold ret. auto. }
  unfold bind at 1. unfold fopen at 1. cbv beta iota.
  set (w0 := {| file := bytes; cur := 0; stdout := stdout w;
                calls := calls w |}).
  destruct (ReadMagicNumber_effects (path e) (DosHeader v) w0)
    as (r1 & D1 & w1 & Hrun1 & Hf1 & Hq1 & He1).
  rewrite (bind_run _ _ _ _ _ Hrun1).
  destruct (Z.eqb_spec r1 0) as [->|Hr1]; cbn [negb].
  2:{ destruct (He1 Hr1) as [text Hout].
      do 4 eexists. split; [reflexivity|]. cbn [stdout numResults].
      split; [exact Hout|]. eauto. }
  cbn [DosHeader NtHeaders Sections imports numResults].
  destruct (ReadNtHeaders_effects t (path e) D1 (NtHeaders v) w1)
    as (r2 & D2 & N2 & w2 & Hrun2 & Hf2 & Hq2 & Har2 & He2).
  rewrite (bind_run _ _ _ _ _ Hrun2).
  rewrite (Hq1 eq_refl) in *.
  destruct (Z.eqb_spec r2 0) as [->|Hr2]; cbn [negb].
  2:{ destruct (Z.eq_dec r2 5) as [->|Hr5].
      - destruct (Har2 eq_refl) as (Hout & _ & Hmach).
        do 3 eexists. exists []. split; [reflexivity|].
        cbn [stdout numResults NtHeaders].
        split; [now rewrite app_nil_r|].
        split; [lia|]. split; [reflexivity|]. split; [auto|]. intros; lia.
      - destruct (He2 Hr2 Hr5) as [text Hout].
        do 4 eexists. split; [reflexivity|]. cbn [stdout numResults].
        split; [exact Hout|].
        split; [exact Hr2|]. split; [reflexivity|].
        split; [intros; lia | eauto]. }
  cbn [DosHeader NtHeaders Sections imports numResults].
  destruct (ReadSections_effects (path e) (NumberOfSections N2) (Sections v) w2)
    as (r3 & S3 & w3 & Hrun3 & Hf3 & Hq3 & He3).
  rewrite (bind_run _ _ _ _ _ Hrun3).
  rewrite (Hq2 eq_refl) in *.
  destruct (Z.eqb_spec r3 0) as [->|Hr3]; cbn [negb].
  2:{ destruct (He3 Hr3) as [k Hout].
      do 4 eexists. split; [reflexivity|]. cbn [stdout numResults].
      split; [exact Hout|]. eauto. }
  cbn [DosHeader NtHeaders Sections imports numResults].
  destruct (ReadImportDescriptors_total t (path e) N2 S3 (imports v) w3)
    as ([r4 I4] & w4 & Hrun4).
  rewrite (bind_run _ _ _ _ _ Hrun4).
  apply ReadImportDescriptors_effects in Hrun4 as (Hf4 & Hq4 & He4 & _).
  destruct (Hq3 eq_refl) as [Hq3' _]. rewrite Hq3' in *.
  destruct (Z.eqb_spec r4 0) as [->|Hr4]; cbn [negb].
  2:{ destruct (He4 Hr4) as [_ [text Hout]].
      do 4 eexists. split; [reflexivity|]. cbn [stdout numResults].
      split; [exact Hout|]. eauto. }
  cbn [DosHeader NtHeaders Sections imports numResults].
  destruct (Hq4 eq_refl) as [Hq4' _].
  rewrite match_dlls_matches.
  destruct (Z.eqb_spec (Z.of_nat (length (matches imps (ImportThunkNames I4)))) 0)
    as [Hz|Hnz]; cbn [negb].
  - io. exists NoMatch. do 2 eexists. exists []. split; [reflexivity|].
    cbn [stdout numResults imports]. rewrite app_nil_r.
    split; [exact Hq4'|]. split; [reflexivity|]. split; [reflexivity|].
    destruct (matches imps (ImportThunkNames I4)); [reflexivity|].
    cbn [length] in Hz. lia.
  - io. exists Reported. do 3 eexists. split; [reflexivity|].
    cbn [stdout numResults imports file]. rewrite Hq4'.
    split; [reflexivity|]. split; [reflexivity|].
    split; [intros E; rewrite E in Hnz; now apply Hnz|].
    exists bytes. split; [reflexivity|].
    replace (file w4) with bytes; [reflexivity|].
    rewrite Hf4, Hf3, Hf2, Hf1. reflexivity.
Qed.


(** ** Two runs side by side *)

Section Relational.

Variable Q : Output -> Output -> Prop.
Hypothesis Q_refl : forall o, Q o o.

Lemma same_output_refl w1 w2 : same_output Q w1 w2 w1 w2.
Proof. exists [], []. rewrite !app_nil_r. auto. Qed.

Lemma same_output_trans w1 w2 w1' w2' w1'' w2'' :
  same_output Q w1 w2 w1' w2' -> same_output Q w1' w2' w1'' w2'' ->
  same_output Q w1 w2 w1'' w2''.
Proof.
  intros (d1 & d2 & H1 & H2 & Hd) (e1 & e2 & H1' & H2' & He).
  exists (d1 ++ e1), (d2 ++ e2). rewrite H1', H2', H1, H2, <- !app_assoc.
  split; [reflexivity|]. split; [reflexivity|]. now apply Forall2_app.
Qed.

Lemma corresponds_ret {A B} (R : A -> B -> Prop) a b :
  R a b -> corresponds Q R (ret a) (ret b).
Proof.
  intros HR w1 w2 Hsim. cbn. split; [exact HR|]. split; [exact Hsim|].
  apply same_output_refl.
Qed.

Lemma corresponds_bind {A A' B B'} (R : A -> A' -> Prop) (S : B -> B' -> Prop)
      (m1 : IO A) (m2 : IO A') (k1 : A -> IO B) (k2 : A' -> IO B') :
  corresponds Q R m1 m2 ->
  (forall a1 a2, R a1 a2 -> corresponds Q S (k1 a1) (k2 a2)) ->
  corresponds Q S (bind m1 k1) (bind m2 k2).
Proof.
  intros Hm Hk w1 w2 Hsim. specialize (Hm w1 w2 Hsim). unfold bind.
  destruct (m1 w1) as [[a1 w1']|], (m2 w2) as [[a2 w2']|]; cbn in Hm;
    try contradiction; [|exact I].
  destruct Hm as (HR & Hsim' & Hout).
  specialize (Hk a1 a2 HR w1' w2' Hsim').
  destruct (k1 a1 w1') as [[b1 w1'']|], (k2 a2 w2') as [[b2 w2'']|];
    cbn in Hk |- *; try contradiction; [|exact I].
  destruct Hk as (HS & Hsim'' & Hout').
  split; [exact HS|]. split; [exact Hsim''|].
  eapply same_output_trans; eauto.
Qed.

Lemma uniform_bind {A B} (m : IO A) (k1 k2 : A -> IO B) (S : B -> B -> Prop) :
  corresponds Q eq m m ->
  (forall a, corresponds Q S (k1 a) (k2 a)) ->
  corresponds Q S (bind m k1) (bind m k2).
Proof.
  intros Hm Hk. eapply corresponds_bind; [exact Hm|].
  intros a1 a2 <-. apply Hk.
Qed.

Lemma corresponds_print o1 o2 :
  Q o1 o2 -> corresponds Q eq (print o1) (print o2).
Proof.
  intros HQ w1 w2 [Hf Hc]. cbn. split; [reflexivity|]. split; [now split|].
  exists [o1], [o2]. cbn. auto.
Qed.

Lemma uniform_printf Path text :
  corresponds Q eq (printf Path text) (printf Path text).
Proof. apply corresponds_print, Q_refl. Qed.

Lemma uniform_fseek offset : corresponds Q eq (fseek offset) (fseek offset).
Proof.
  intros w1 w2 [Hf Hc]. unfold fseek. io.
  destruct (offset <? 0); cbn; (split; [reflexivity|]);
    (split; [now split|]); exists [], []; rewrite !app_nil_r; auto.
Qed.

(** Two reads on the same stream deliver the same bytes; when they succeed
    the bytes number [size]. *)
Lemma corresponds_fread size :
  corresponds Q (fun r1 r2 =>
                   r1 = r2
                   /\ (fst r1 = 1 -> Z.of_nat (length (snd r1)) = size))
              (fread size) (fread size).
Proof.
  intros w1 w2 [Hf Hc]. unfold fread. io. rewrite Hf, Hc.
  destruct (Z.eqb_spec
              (Z.of_nat (length (firstn (Z.to_nat size)
                                        (skipn (Z.to_nat (cur w2)) (file w2)))))
              size); cbn;
    (split; [split; [reflexivity|cbn; intros; lia]|]);
    (split; [split; cbn; congruence|]);
    exists [], []; rewrite !app_nil_r; auto.
Qed.

Lemma uniform_fread size : corresponds Q eq (fread size) (fread size).
Proof.
  intros w1 w2 Hsim. pose proof (corresponds_fread size w1 w2 Hsim) as H.
  destruct (fread size w1) as [[a1 w1']|], (fread size w2) as [[a2 w2']|];
    cbn in *; try contradiction; [|exact I].
  destruct H as ([-> _] & ? & ?). auto.
Qed.

Lemma uniform_resolve what nsec Sections Rva :
  corresponds Q eq (resolve what nsec Sections Rva)
              (resolve what nsec Sections Rva).
Proof.
  intros w1 w2 [Hf Hc]. cbn. split; [reflexivity|]. split; [now split|].
  exists [], []. rewrite !app_nil_r; auto.
Qed.

Lemma uniform_file_length : corresponds Q eq file_length file_length.
Proof.
  intros w1 w2 [Hf Hc]. cbn. split; [now rewrite Hf|]. split; [now split|].
  exists [], []. rewrite !app_nil_r; auto.
Qed.

Lemma uniform_file_size : corresponds Q eq file_size file_size.
Proof.
  intros w1 w2 [Hf Hc]. cbn. split; [now rewrite Hf|].
  split; [split; cbn; congruence|].
  exists [], []. rewrite !app_nil_r; auto.
Qed.

Lemma uniform_fclose : corresponds Q eq fclose fclose.
Proof.
  intros w1 w2 [Hf Hc]. cbn. split; [reflexivity|]. split; [now split|].
  exists [], []. rewrite !app_nil_r; auto.
Qed.

Lemma uniform_out_of_fuel {A} (S : A -> A -> Prop) :
  corresponds Q S out_of_fuel out_of_fuel.
Proof. intros w1 w2 _. exact I. Qed.

(** Code that is the same on both sides, taken apart by its shape. *)
Ltac uniform :=
  repeat
    match goal with
    | |- corresponds _ eq (ret _) (ret _) =>
        apply corresponds_ret; reflexivity
    | |- corresponds _ _ out_of_fuel out_of_fuel => apply uniform_out_of_fuel
    | |- corresponds _ eq (fseek _) (fseek _) => apply uniform_fseek
    | |- corresponds _ eq (fread _) (fread _) => apply uniform_fread
    | |- corresponds _ eq (printf _ _) (printf _ _) => apply uniform_printf
    | |- corresponds _ eq (print _) (print _) =>
        apply corresponds_print, Q_refl
    | |- corresponds _ eq (resolve _ _ _ _) (resolve _ _ _ _) =>
        apply uniform_resolve
    | |- corresponds _ eq file_length file_length => apply uniform_file_length
    | |- corresponds _ eq file_size file_size => apply uniform_file_size
    | |- corresponds _ eq fclose fclose => apply uniform_fclose
    | |- corresponds _ _ (bind _ _) (bind _ _) =>
        eapply uniform_bind; [|intros ?]
    | |- corresponds _ _ (match ?x with _ => _ end) _ => destruct x
    end.

Lemma uniform_ThunkTurn t Path nsec Sections ThunkOffset names :
  corresponds Q eq (ThunkTurn t Path nsec Sections ThunkOffset names)
              (ThunkTurn t Path nsec Sections ThunkOffset names).
Proof. unfold ThunkTurn. uniform. Qed.

Lemma uniform_ThunkWalk t Path nsec Sections fuel :
  forall ThunkOffset names,
    corresponds Q eq (ThunkWalk fuel t Path nsec Sections ThunkOffset names)
                (ThunkWalk fuel t Path nsec Sections ThunkOffset names).
Proof.
  induction fuel as [|fuel IH]; intros ThunkOffset names;
    cbn [ThunkWalk]; uniform; auto using uniform_ThunkTurn.
Qed.

Lemma uniform_ReadNames_loop t Path nsec Sections fuel todo :
  forall dlls thunks,
    corresponds Q eq
      (ReadNames_loop fuel t Path nsec Sections todo dlls thunks)
      (ReadNames_loop fuel t Path nsec Sections todo dlls thunks).
Proof.
  induction todo as [|d rest IH]; intros dlls thunks;
    cbn [ReadNames_loop]; uniform; auto using uniform_ThunkWalk.
Qed.

Lemma uniform_ReadDescriptors_loop Path n fuel :
  forall i descs,
    corresponds Q eq (ReadDescriptors_loop fuel Path i n descs)
                (ReadDescriptors_loop fuel Path i n descs).
Proof.
  induction fuel as [|fuel IH]; intros i descs;
    cbn [ReadDescriptors_loop]; uniform; auto.
Qed.

Lemma uniform_ReadImportDescriptors t Path NtHeaders Sections old1 old2 :
  corresponds Q eq
    (ReadImportDescriptors t Path NtHeaders Sections old1)
    (ReadImportDescriptors t Path NtHeaders Sections old2).
Proof.
  unfold ReadImportDescriptors. uniform;
    auto using uniform_ReadDescriptors_loop, uniform_ReadNames_loop.
Qed.

Lemma uniform_ReadSections_loop Path n :
  forall i Secs,
    corresponds Q eq (ReadSections_loop Path n i Secs)
                (ReadSections_loop Path n i Secs).
Proof.
  induction n as [|n IH]; intros i Secs; cbn [ReadSections_loop];
    uniform; auto.
Qed.

Lemma uniform_ReadSections Path n old1 old2 :
  corresponds Q eq (ReadSections Path n old1) (ReadSections Path n old2).
Proof. unfold ReadSections. apply uniform_ReadSections_loop. Qed.


Lemma fill_full (size : nat) (got old : list byte) :
  length got = size -> fill size got old = got.
Proof.
  intros <-. unfold fill. rewrite firstn_app, firstn_all, Nat.sub_diag.
  rewrite firstn_O. apply app_nil_r.
Qed.

(** [ReadMagicNumber] does not depend on what the header held before. *)
Lemma corresponds_ReadMagicNumber Path D1 D2 :
  corresponds Q (fun r1 r2 => fst r1 = fst r2)
              (ReadMagicNumber Path D1) (ReadMagicNumber Path D2).
Proof.
  unfold ReadMagicNumber. eapply uniform_bind; [apply uniform_fread|].
  intros [count got]. cbn [e_magic].
  destruct (negb (count =? 1)).
  { eapply uniform_bind; [apply uniform_printf|]. intros _.
    now apply corresponds_ret. }
  destruct (negb (_ =? MZ)).
  { eapply uniform_bind; [apply uniform_printf|]. intros _.
    now apply corresponds_ret. }
  now apply corresponds_ret.
Qed.

(** Nor does [ReadNtHeaders]: the code returned is the same, and when it
    is 0 so are the NT headers stored. *)
Lemma corresponds_ReadNtHeaders t Path D1 D2 N1 N2 :
  corresponds Q (fun r1 r2 =>
                   fst (fst r1) = fst (fst r2)
                   /\ (fst (fst r1) = 0 -> snd r1 = snd r2))
              (ReadNtHeaders t Path D1 N1) (ReadNtHeaders t Path D2 N2).
Proof.
  unfold ReadNtHeaders. eapply uniform_bind; [apply uniform_fread|].
  intros [count got]. cbn [e_magic e_tail].
  destruct (negb (count =? 1)).
  { eapply uniform_bind; [apply uniform_printf|]. intros _.
    apply corresponds_ret. cbn. split; [reflexivity | discriminate]. }
  unfold e_lfanew. cbn [e_tail].
  eapply uniform_bind; [apply uniform_fseek|]. intros r.
  destruct (negb (r =? 0)).
  { eapply uniform_bind; [apply uniform_printf|]. intros _.
    apply corresponds_ret. cbn. split; [reflexivity | discriminate]. }
  eapply corresponds_bind; [apply corresponds_fread|].
  intros [c1 got1] [c2 got2] [[= <- <-] Hlen]. cbn [fst snd] in Hlen.
  destruct (Z.eqb_spec c1 1) as [->|Hc]; cbn [negb].
  2:{ eapply uniform_bind; [apply uniform_printf|]. intros _.
      apply corresponds_ret. cbn. split; [reflexivity | discriminate]. }
  specialize (Hlen eq_refl).
  rewrite (fill_full _ got1 N1), (fill_full _ got1 N2) by lia.
  repeat match goal with
         | |- corresponds _ _ (if ?c then _ else _) _ => destruct c
         end.
  - eapply uniform_bind; [apply uniform_printf|]. intros _.
    apply corresponds_ret. cbn. split; [reflexivity | discriminate].
  - apply corresponds_ret. cbn. split; [reflexivity | discriminate].
  - eapply uniform_bind; [apply uniform_printf|]. intros _.
    apply corresponds_ret. cbn. split; [reflexivity | discriminate].
  - apply corresponds_ret. cbn. auto.
Qed.

(** The running index of the two runs is related by [J]. *)
Variable J : Z -> Z -> Prop.
Hypothesis J_succ : forall i1 i2, J i1 i2 -> J (i1 + 1) (i2 + 1).
Hypothesis Q_result :
  forall i1 i2 Path size count names,
    J i1 i2 ->
    Q (ScanResult i1 Path size count names)
      (ScanResult i2 Path size count names).

Lemma related_out_of {A B} (R : A -> B -> Prop) w1 w2 u1 u2 r1 r2 :
  stdout u1 = stdout w1 -> stdout u2 = stdout w2 ->
  related Q R u1 u2 r1 r2 -> related_out Q R w1 w2 r1 r2.
Proof.
  intros E1 E2. unfold related, related_out, same_output.
  destruct r1 as [[a1 w1']|], r2 as [[a2 w2']|]; try tauto.
  rewrite E1, E2. tauto.
Qed.

Lemma bind_fopen {A} (bytes : list byte) (k : unit -> IO A) w :
  bind (fopen bytes) k w
  = k tt {| file := bytes; cur := 0; stdout := stdout w; calls := calls w |}.
Proof. reflexivity. Qed.

(** The body of the loop depends on the variables of [main] through the
    running index alone, and on the world through what the file holds. *)
Lemma ScanFile_related t ext imps e v1 v2 w1 w2 :
  J (numResults v1) (numResults v2) ->
  related_out Q (same_verdict J) w1 w2
    (ScanFile t ext imps e v1 w1) (ScanFile t ext imps e v2 w2).
Proof.
  intros HJ. unfold ScanFile.
  destruct (negb (String.eqb (extension e) ext)).
  { cbn. split; [split; [reflexivity | exact HJ]|]. apply same_output_refl. }
  destruct (contents e) as [bytes|].
  2:{ cbn. split; [split; [reflexivity | exact HJ]|]. apply same_output_refl. }
  rewrite !bind_fopen. cbv beta.
  match goal with
  | |- related_out _ _ _ _ (?m1 ?u1) (?m2 ?u2) =>
      assert (Hc : corresponds Q (same_verdict J) m1 m2);
      [|apply (related_out_of (same_verdict J) w1 w2 u1 u2);
        [reflexivity | reflexivity | apply Hc; split; reflexivity]]
  end.
  eapply corresponds_bind; [apply corresponds_ReadMagicNumber|].
  intros [c1 D1] [c2 D2] Hc. cbn [fst] in Hc. subst c2.
  cbn [DosHeader NtHeaders Sections imports numResults].
  destruct (negb (c1 =? 0)).
  { eapply uniform_bind; [apply uniform_fclose|]. intros _.
    apply corresponds_ret. split; [reflexivity | exact HJ]. }
  eapply corresponds_bind; [apply corresponds_ReadNtHeaders|].
  intros [[c1' D1'] N1'] [[c2' D2'] N2'] [Hc HN]. cbn [fst snd] in Hc, HN.
  subst c2'. cbn [DosHeader NtHeaders Sections imports numResults].
  destruct (Z.eqb_spec c1' 0) as [->|Hne]; cbn [negb].
  2:{ eapply uniform_bind; [apply uniform_fclose|]. intros _.
      apply corresponds_ret. split; [reflexivity | exact HJ]. }
  rewrite (HN eq_refl).
  eapply uniform_bind; [apply uniform_ReadSections|].
  intros [c3 Secs]. cbn [DosHeader NtHeaders Sections imports numResults].
  destruct (negb (c3 =? 0)).
  { eapply uniform_bind; [apply uniform_fclose|]. intros _.
    apply corresponds_ret. split; [reflexivity | exact HJ]. }
  eapply uniform_bind; [apply uniform_ReadImportDescriptors|].
  intros [c4 imps']. cbn [DosHeader NtHeaders Sections imports numResults].
  destruct (negb (c4 =? 0)).
  { eapply uniform_bind; [apply uniform_fclose|]. intros _.
    apply corresponds_ret. split; [reflexivity | exact HJ]. }
  destruct (match_dlls _ _ _ _ _) as [oss importCount].
  destruct (negb (importCount =? 0)).
  - eapply uniform_bind; [apply uniform_file_size|]. intros size.
    eapply corresponds_bind; [apply corresponds_print, Q_result, HJ|].
    intros _ _ _.
    eapply uniform_bind; [apply uniform_fclose|]. intros _.
    apply corresponds_ret. split; [reflexivity | apply J_succ, HJ].
  - eapply uniform_bind; [apply uniform_fclose|]. intros _.
    apply corresponds_ret. split; [reflexivity | exact HJ].
Qed.

(** So does the whole loop. *)
Lemma Scan_related t ext imps dir :
  forall v1 v2 w1 w2,
    J (numResults v1) (numResults v2) ->
    related_out Q (fun v1' v2' => J (numResults v1') (numResults v2'))
      w1 w2 (Scan t ext imps dir v1 w1) (Scan t ext imps dir v2 w2).
Proof.
  induction dir as [|e rest IH]; intros v1 v2 w1 w2 HJ.
  - cbn. split; [exact HJ | apply same_output_refl].
  - cbn [Scan]. unfold bind.
    pose proof (ScanFile_related t ext imps e v1 v2 w1 w2 HJ) as H.
    destruct (ScanFile t ext imps e v1 w1) as [[[vd1 v1'] w1']|],
             (ScanFile t ext imps e v2 w2) as [[[vd2 v2'] w2']|];
      cbn in H; try contradiction; [|exact I].
    destruct H as ([_ HJ'] & Hout). cbn [snd] in HJ'.
    specialize (IH v1' v2' w1' w2' HJ').
    destruct (Scan t ext imps rest v1' w1') as [[a1 u1]|],
             (Scan t ext imps rest v2' w2') as [[a2 u2]|];
      cbn in IH |- *; try contradiction; [|exact I].
    destruct IH as [HJ'' Hout']. split; [exact HJ''|].
    eapply same_output_trans; eauto.
Qed.

End Relational.


(** ** The scan of a directory *)

Lemma Forall2_eq_same {A} (l1 l2 : list A) : Forall2 eq l1 l2 -> l1 = l2.
Proof. induction 1; congruence. Qed.

Lemma same_result_refl (o : Output) : same_result o o.
Proof. destruct o; cbn; auto. Qed.

(** The verdict for a directory entry is the same in every state. *)
Lemma ScanFile_verdict t ext imps e v w vd v' w' :
  ScanFile t ext imps e v w = Some ((vd, v'), w') ->
  verdict_of t ext imps e = Some vd.
Proof.
  intros H. unfold verdict_of.
  pose proof (ScanFile_related (fun _ _ => True) (fun _ => I)
                (fun _ _ => True) (fun _ _ _ => I) (fun _ _ _ _ _ _ _ => I)
                t ext imps e v (initial_vars (mkDos 0 []) []) w initial_world I)
    as Hrel.
  rewrite H in Hrel.
  destruct (ScanFile t ext imps e (initial_vars (mkDos 0 []) []) initial_world)
    as [[[vd0 v0] w0]|]; cbn in Hrel; [|contradiction].
  destruct Hrel as [[Hvd _] _]. cbn in Hvd. now subst.
Qed.

(** With the same running index, two runs of the loop print the same. *)
Lemma Scan_same_output t ext imps dir v1 v2 w1 w2 :
  numResults v1 = numResults v2 ->
  exists v1' w1' v2' w2' out,
    Scan t ext imps dir v1 w1 = Some (v1', w1')
    /\ Scan t ext imps dir v2 w2 = Some (v2', w2')
    /\ stdout w1' = stdout w1 ++ out
    /\ stdout w2' = stdout w2 ++ out.
Proof.
  intros Hn.
  pose proof (Scan_related eq (fun o => eq_refl) eq
                (fun i1 i2 H => f_equal (fun i => i + 1) H)
                (fun i1 i2 P s c n H =>
                   f_equal (fun i => ScanResult i P s c n) H)
                t ext imps dir v1 v2 w1 w2 Hn) as Hrel.
  assert (Htot : forall v w, exists r, Scan t ext imps dir v w = Some r).
  { clear. induction dir as [|e rest IH]; intros v w.
    - cbn. unfold ret. eauto.
    - cbn [Scan]. unfold bind.
      destruct (ScanFile_cases t ext imps e v w)
        as (vd & v' & w' & report & Hrun & _).
      rewrite Hrun. apply IH. }
  destruct (Htot v1 w1) as [[v1' w1'] H1].
  destruct (Htot v2 w2) as [[v2' w2'] H2].
  rewrite H1, H2 in Hrel. destruct Hrel as (_ & d1 & d2 & E1 & E2 & Hd).
  apply Forall2_eq_same in Hd. subst d2.
  exists v1', w1', v2', w2', d1. auto.
Qed.

Lemma Scan_app t ext imps pre post v w :
  Scan t ext imps (pre ++ post) v w =
  match Scan t ext imps pre v w with
  | Some (v', w') => Scan t ext imps post v' w'
  | None => None
  end.
Proof.
  revert v w. induction pre as [|e pre IH]; intros v w; [reflexivity|].
  cbn [app Scan]. unfold bind.
  destruct (ScanFile t ext imps e v w) as [[[vd v'] w']|]; [apply IH|].
  reflexivity.
Qed.

(** What an entry with an error verdict adds to the output. *)
Lemma error_report t ext imps e v w vd v' w' :
  ScanFile t ext imps e v w = Some ((vd, v'), w') ->
  is_error vd = true ->
  exists report,
    stdout w' = stdout w ++ report
    /\ numResults v' = numResults v
    /\ (vd = BadHeaders 5 -> report = [])
    /\ (vd <> BadHeaders 5 ->
        exists o, report = [o] /\ diagnostic_for (path e) o).
Proof.
  intros Hrun Herr.
  destruct (ScanFile_cases t ext imps e v w)
    as (vd0 & v0 & w0 & report & Hrun0 & Hout & Hcase).
  rewrite Hrun in Hrun0. injection Hrun0 as <- <- <-.
  exists report. split; [exact Hout|].
  destruct vd as [ | | r | r | r | r | | ]; try discriminate.
  - destruct Hcase as (_ & Hn & text & ->). split; [exact Hn|].
    split; [discriminate|]. intros _. eexists. split; [reflexivity|].
    left. eauto.
  - destruct Hcase as (_ & Hn & H5 & Hother). split; [exact Hn|]. split.
    + intros [= ->]. now destruct (H5 eq_refl).
    + intros Hne. destruct Hother as [text ->]; [congruence|].
      eexists. split; [reflexivity|]. left. eauto.
  - destruct Hcase as (_ & Hn & i & ->). split; [exact Hn|].
    split; [discriminate|]. intros _. eexists. split; [reflexivity|].
    right. eauto.
  - destruct Hcase as (_ & Hn & text & ->). split; [exact Hn|].
    split; [discriminate|]. intros _. eexists. split; [reflexivity|].
    left. eauto.
Qed.

(** C6.  Every error outcome of a file (invalid magic, truncated header,
    bad signature, unsupported architecture, truncated section table,
    failed import walk) ends the scan of that file only: the loop body
    returns with the running index unchanged, and the scan of the
    directory prints what it prints without that file, with the file's
    report in its place; the report is empty for the unsupported
    architecture and one diagnostic naming the file for every other
    error. *)
Theorem errors_skip_one_file :
  forall t ext imps e vd,
    verdict_of t ext imps e = Some vd ->
    is_error vd = true ->
    (forall v w,
        exists v' w' report,
          ScanFile t ext imps e v w = Some ((vd, v'), w')
          /\ stdout w' = stdout w ++ report
          /\ numResults v' = numResults v
          /\ (vd = BadHeaders 5 -> report = [])
          /\ (vd <> BadHeaders 5 ->
              exists o, report = [o] /\ diagnostic_for (path e) o))
    /\ (forall pre post D0 N0,
           exists before report after,
             scan_directory t D0 N0 (pre ++ e :: post) ext imps
             = Some (before ++ report ++ after)
             /\ scan_directory t D0 N0 (pre ++ post) ext imps = Some (before ++ after)
             /\ (vd = BadHeaders 5 -> report = [])
             /\ (vd <> BadHeaders 5 ->
                 exists o, report = [o] /\ diagnostic_for (path e) o)).
Proof.
  intros t ext imps e vd Hvd Herr.
  assert (Hfile : forall v w,
             exists v' w' report,
               ScanFile t ext imps e v w = Some ((vd, v'), w')
               /\ stdout w' = stdout w ++ report
               /\ numResults v' = numResults v
               /\ (vd = BadHeaders 5 -> report = [])
               /\ (vd <> BadHeaders 5 ->
                   exists o, report = [o] /\ diagnostic_for (path e) o)).
  { intros v w.
    destruct (ScanFile_cases t ext imps e v w)
      as (vd0 & v' & w' & report0 & Hrun & _).
    pose proof (ScanFile_verdict _ _ _ _ _ _ _ _ _ Hrun) as Hvd0.
    rewrite Hvd in Hvd0. injection Hvd0 as <-.
    destruct (error_report _ _ _ _ _ _ _ _ _ Hrun Herr)
      as (report & Hout & Hn & H5 & Hother).
    exists v', w', report. auto. }
  split; [exact Hfile|].
  intros pre post D0 N0. unfold scan_directory. rewrite !Scan_app.
  destruct (Scan_same_output t ext imps pre
              (initial_vars D0 N0) (initial_vars D0 N0)
              initial_world initial_world eq_refl)
    as (vp & wp & _ & _ & before & Hpre & _ & Hbefore & _).
  rewrite Hpre. cbn [Scan]. unfold bind at 1.
  destruct (Hfile vp wp) as (ve & we & report & Hrun & Hout & Hn & H5 & Ho).
  rewrite Hrun.
  destruct (Scan_same_output t ext imps post ve vp we wp Hn)
    as (v1 & w1 & v2 & w2 & after & H1 & H2 & E1 & E2).
  rewrite H1, H2. exists before, report, after.
  rewrite E1, E2, Hout, Hbefore. cbn [stdout initial_world app].
  rewrite <- app_assoc. auto.
Qed.

(** The theorem at a directory of three files for the x64 build: a driver
    built for i386 (unsupported architecture) is skipped without a word, a
    text file is skipped with one diagnostic, and the driver after them is
    reported with index 0 all the same. *)
Lemma errors_skip_one_file_witness :
  Image.run [Image.sys_file "x86.sys" Image.foreign_sys;
             Image.sys_file "readme.sys" Image.readme_sys;
             Image.sys_file "driver.sys" Image.driver_sys]
            ["IoCreateDevice"%string]
  = Some [Diagnostic "readme.sys" "Incorrect magic number from DOS header";
          ScanResult 0 "driver.sys" 768 1 []]
  /\ exists before report after,
      Image.run [Image.sys_file "driver.sys" Image.driver_sys;
                 Image.sys_file "x86.sys" Image.foreign_sys;
                 Image.sys_file "driver.sys" Image.driver_sys]
                ["IoCreateDevice"%string]
      = Some (before ++ report ++ after)
      /\ Image.run [Image.sys_file "driver.sys" Image.driver_sys;
                    Image.sys_file "driver.sys" Image.driver_sys]
                   ["IoCreateDevice"%string]
         = Some (before ++ after)
      /\ report = [].
Proof.
  split; [vm_compute; reflexivity|].
  destruct (errors_skip_one_file M_X64 ".sys"
              (map Image.text ["IoCreateDevice"%string])
              (Image.sys_file "x86.sys" Image.foreign_sys) (BadHeaders 5))
    as [_ Hscan]; [vm_compute; reflexivity | reflexivity |].
  destruct (Hscan [Image.sys_file "driver.sys" Image.driver_sys]
                  [Image.sys_file "driver.sys" Image.driver_sys]
                  (mkDos 0 []) [])
    as (before & report & after & H1 & H2 & H5 & _).
  exists before, report, after. unfold Image.run, main. cbn [map].
  split; [exact H1|]. split; [exact H2|]. now apply H5.
Defined.

(** ** Matching *)

(** C7.  A symbol name matches a requested name exactly when the two are
    the same byte string (so that case matters); the loops of [main] count
    one match for every pair of an extracted name and an equal requested
    name, duplicates included; a result is printed exactly when that count
    is not zero, with the count, and with the matched names in the order
    encountered only when more than one name was requested. *)
Theorem scanner_matches_exactly :
  (forall a b, name_eqb a b = true <-> a = b)
  /\ (forall imps thunks,
         match_dlls (Z.of_nat (length imps)) thunks imps [] 0
         = (listing imps thunks, Z.of_nat (length (matches imps thunks))))
  /\ (forall imps thunks,
         listing imps thunks
         = if 1 <? Z.of_nat (length imps) then matches imps thunks else [])
  /\ (forall t ext imps e v w vd v' w',
         ScanFile t ext imps e v w = Some ((vd, v'), w') ->
         let M := matches imps (ImportThunkNames (imports v')) in
         exists report,
           stdout w' = stdout w ++ report
           /\ (vd = Reported ->
               M <> []
               /\ exists bytes,
                   contents e = Some bytes
                   /\ report =
                      [ScanResult (numResults v) (path e)
                         (SizeInBytes_of bytes) (Z.of_nat (length M))
                         (listing imps (ImportThunkNames (imports v')))])
           /\ (vd = NoMatch -> M = [] /\ report = [])
           /\ (vd <> Reported -> forall o, In o report -> is_result o = false)).
Proof.
  split; [apply name_eqb_eq|]. split; [apply match_dlls_matches|].
  split; [reflexivity|].
  intros t ext imps e v w vd v' w' Hrun M.
  destruct (ScanFile_cases t ext imps e v w)
    as (vd0 & v0 & w0 & report & Hrun0 & Hout & Hcase).
  rewrite Hrun in Hrun0. injection Hrun0 as <- <- <-.
  exists report. split; [exact Hout|].
  destruct vd as [ | | r | r | r | r | | ].
  - destruct Hcase as (_ & -> & _).
    split; [discriminate|]. split; [discriminate|]. intros _ o [].
  - destruct Hcase as (_ & -> & _).
    split; [discriminate|]. split; [discriminate|]. intros _ o [].
  - destruct Hcase as (_ & _ & text & ->).
    split; [discriminate|]. split; [discriminate|].
    intros _ o [<-|[]]. reflexivity.
  - destruct Hcase as (_ & _ & H5 & Hother).
    split; [discriminate|]. split; [discriminate|]. intros _ o Hin.
    destruct (Z.eq_dec r 5) as [E|E].
    + destruct (H5 E) as [-> _]. destruct Hin.
    + destruct (Hother E) as [text ->]. destruct Hin as [<-|[]]. reflexivity.
  - destruct Hcase as (_ & _ & i & ->).
    split; [discriminate|]. split; [discriminate|].
    intros _ o [<-|[]]. reflexivity.
  - destruct Hcase as (_ & _ & text & ->).
    split; [discriminate|]. split; [discriminate|].
    intros _ o [<-|[]]. reflexivity.
  - destruct Hcase as (_ & -> & HM).
    split; [discriminate|]. split; [auto|]. intros _ o [].
  - destruct Hcase as (_ & HM & bytes & Hbytes & ->).
    split; [|split; [discriminate | congruence]].
    intros _. split; [exact HM|]. eauto.
Qed.

(** The theorem at the driver image with two requested names, of which
    the image imports both; and names that differ in case do not match. *)
Lemma scanner_matches_exactly_witness :
  (exists v' w',
      ScanFile M_X64 ".sys"
               [Image.text "ZwOpenProcess"; Image.text "IoCreateDevice"]
               (Image.sys_file "driver.sys" Image.driver_sys)
               (initial_vars (mkDos 0 []) []) initial_world
      = Some ((Reported, v'), w')
      /\ stdout w' =
         [ScanResult 0 "driver.sys" 768 2
            [Image.text "IoCreateDevice"; Image.text "ZwOpenProcess"]])
  /\ name_eqb (Image.text "iocreatedevice") (Image.text "IoCreateDevice")
     = false
  /\ matches [Image.text "A"; Image.text "B"; Image.text "A"]
             [[Image.text "A"; Image.text "A"]; [Image.text "b"]]
     = [Image.text "A"; Image.text "A"; Image.text "A"; Image.text "A"].
Proof.
  destruct scanner_matches_exactly as (_ & _ & _ & Hscan).
  split; [|split; reflexivity].
  destruct (ScanFile M_X64 ".sys"
              [Image.text "ZwOpenProcess"; Image.text "IoCreateDevice"]
              (Image.sys_file "driver.sys" Image.driver_sys)
              (initial_vars (mkDos 0 []) []) initial_world)
    as [[[vd v'] w']|] eqn:Hrun; [|vm_compute in Hrun; discriminate].
  pose proof Hrun as Heval. vm_compute in Heval.
  injection Heval as Evd Ev Ew. subst vd v' w'.
  destruct (Hscan _ _ _ _ _ _ _ _ _ Hrun) as (report & Hout & Hrep & _).
  destruct (Hrep eq_refl) as (_ & bytes & Hbytes & Hreport).
  rewrite contents_sys_file in Hbytes. injection Hbytes as <-.
  do 2 eexists. split; [reflexivity|].
  rewrite Hout, Hreport. vm_compute. reflexivity.
Defined.

(** ** Scanning a file twice *)

(** C8.  Scanning the same file again yields the same result: from any two
    states of [main] and of the world, the loop body is left the same way
    and what the two runs print is pairwise the same scan result (the same
    path, byte size, match count and matched names in the same order) or
    the same diagnostic; in particular a directory that lists the file
    twice gets two such reports. *)
Theorem scanning_twice_gives_same_result :
  forall t ext imps e,
    (forall v1 w1 v2 w2,
        exists vd v1' w1' v2' w2' report1 report2,
          ScanFile t ext imps e v1 w1 = Some ((vd, v1'), w1')
          /\ ScanFile t ext imps e v2 w2 = Some ((vd, v2'), w2')
          /\ stdout w1' = stdout w1 ++ report1
          /\ stdout w2' = stdout w2 ++ report2
          /\ Forall2 same_result report1 report2)
    /\ (forall D0 N0,
           exists report1 report2,
             scan_directory t D0 N0 [e; e] ext imps = Some (report1 ++ report2)
             /\ scan_directory t D0 N0 [e] ext imps = Some report1
             /\ Forall2 same_result report1 report2).
Proof.
  intros t ext imps e.
  assert (Htwo : forall v1 w1 v2 w2,
             exists vd v1' w1' v2' w2' report1 report2,
               ScanFile t ext imps e v1 w1 = Some ((vd, v1'), w1')
               /\ ScanFile t ext imps e v2 w2 = Some ((vd, v2'), w2')
               /\ stdout w1' = stdout w1 ++ report1
               /\ stdout w2' = stdout w2 ++ report2
               /\ Forall2 same_result report1 report2).
  { intros v1 w1 v2 w2.
    pose proof (ScanFile_related same_result same_result_refl
                  (fun _ _ => True) (fun _ _ _ => I)
                  (fun i1 i2 P s c n _ =>
                     conj eq_refl (conj eq_refl (conj eq_refl eq_refl)))
                  t ext imps e v1 v2 w1 w2 I) as Hrel.
    destruct (ScanFile_cases t ext imps e v1 w1)
      as (vd1 & v1' & w1' & r1 & Hrun1 & _).
    destruct (ScanFile_cases t ext imps e v2 w2)
      as (vd2 & v2' & w2' & r2 & Hrun2 & _).
    rewrite Hrun1, Hrun2 in Hrel.
    destruct Hrel as ([Hvd _] & d1 & d2 & E1 & E2 & Hd). cbn in Hvd. subst vd2.
    exists vd1, v1', w1', v2', w2', d1, d2. auto. }
  split; [exact Htwo|].
  intros D0 N0. unfold scan_directory. cbn [Scan]. unfold bind, ret.
  destruct (ScanFile_cases t ext imps e (initial_vars D0 N0) initial_world)
    as (vd & v' & w' & r & Hrun & Hout & _).
  destruct (Htwo (initial_vars D0 N0) initial_world v' w')
    as (vd1 & v1' & w1' & v2' & w2' & r1 & r2 & H1 & H2 & E1 & E2 & Hsame).
  rewrite Hrun in H1. injection H1 as <- <- <-.
  rewrite Hrun, H2. exists r1, r2. cbn [stdout initial_world app] in E1.
  rewrite E2, E1. auto.
Qed.

(** The driver image listed twice: the two reports differ in the running
    index alone. *)
Example driver_scanned_twice :
  Image.run [Image.sys_file "driver.sys" Image.driver_sys;
             Image.sys_file "driver.sys" Image.driver_sys]
            ["IoCreateDevice"%string; "ZwOpenProcess"%string]
  = Some [ScanResult 0 "driver.sys" 768 2
            [Image.text "IoCreateDevice"; Image.text "ZwOpenProcess"];
          ScanResult 1 "driver.sys" 768 2
            [Image.text "IoCreateDevice"; Image.text "ZwOpenProcess"]].
Proof. vm_compute. reflexivity. Qed.

(** ** Truncated files *)

(** The driver image cut at several places is given up by the reader that
    meets the end of the file: inside the DOS header, inside the NT
    headers, inside the section table, inside the import descriptors,
    inside the DLL name and inside a symbol name. *)
Example truncated_driver_verdicts :
  map (fun n => verdict_of M_X64 ".sys" [Image.text "IoCreateDevice"]
                  (Image.sys_file "cut.sys" (firstn n Image.driver_sys)))
      [1; 30; 100; 340; 520; 600; 650]%nat
  = [Some (BadMagic 1); Some (BadHeaders 1); Some (BadHeaders 3);
     Some (BadSections 1); Some (BadImports 2); Some (BadImports 4);
     Some (BadImports 9)].
Proof. vm_compute. reflexivity. Qed.

(** ** [main] as a whole *)

(** X15.  The walk of a directory always ends, and what it prints does
    not depend on the bytes that the two header variables, which [main]
    does not initialise, hold when it starts. *)
Lemma scan_directory_total t D0 N0 dir ext imps :
  exists out,
    scan_directory t D0 N0 dir ext imps = Some out
    /\ scan_directory t (mkDos 0 []) [] dir ext imps = Some out.
Proof.
  unfold scan_directory.
  destruct (Scan_same_output t ext imps dir
              (initial_vars D0 N0) (initial_vars (mkDos 0 []) [])
              initial_world initial_world eq_refl)
    as (v1 & w1 & v2 & w2 & out & H1 & H2 & E1 & E2).
  rewrite H1, H2, E1, E2. eauto.
Qed.

(** [main] prints the usage text when no import is requested, and walks
    the directory otherwise. *)
Lemma main_scans t D0 N0 dir ext imps :
  main t D0 N0 dir ext imps =
  if (length imps =? 0)%nat then Some [Usage]
  else scan_directory t D0 N0 dir ext imps.
Proof. destruct imps; reflexivity. Qed.


(* ===================================================================== *)
(** * Further properties of the code *)
(* ===================================================================== *)

(** ** The name buffer, in full *)

Lemma c_str_no_nul (l : list byte) : ~ In x00 (c_str l).
Proof.
  induction l as [|b l IH]; cbn; [tauto|].
  destruct (Byte.eqb b x00) eqn:E; cbn; [tauto|].
  intros [->|H]; [|tauto]. cbn in E. discriminate.
Qed.

Lemma c_str_prefix (l : list byte) :
  exists rest,
    l = c_str l ++ rest /\ (rest = [] \/ exists r, rest = x00 :: r).
Proof.
  induction l as [|b l (rest & Hl & Hrest)]; cbn.
  - exists []. auto.
  - destruct (Byte.eqb b x00) eqn:E.
    + apply Byte.byte_dec_bl in E. subst b. exists (x00 :: l). eauto.
    + exists rest. cbn. split; [congruence | exact Hrest].
Qed.

Lemma c_str_terminated (l : list byte) : c_str (l ++ [x00]) = c_str l.
Proof.
  induction l as [|b l IH]; cbn; [reflexivity|].
  destruct (Byte.eqb b x00); [reflexivity | now rewrite IH].
Qed.

(** X7.  The name stored from a buffer is the longest prefix of its first
    31 bytes that holds no NUL: the stored name has no NUL byte, the first
    31 bytes of the buffer are the stored name followed by a rest, and that
    rest is empty or starts with the NUL that ended the name. *)
Theorem stored_name_is_longest_prefix :
  forall buf,
    ~ In x00 (stored_name buf)
    /\ exists rest,
        firstn 31 buf = stored_name buf ++ rest
        /\ (rest = [] \/ exists r, rest = x00 :: r).
Proof.
  intros buf. unfold stored_name. rewrite c_str_terminated.
  split; [apply c_str_no_nul | apply c_str_prefix].
Qed.

(** ** Sections that cannot be hit *)

Lemma unusable_never_hit (s : IMAGE_SECTION_HEADER) (a : Z) :
  section_fields_ok s -> unusable s -> section_hit s a = false.
Proof.
  unfold section_fields_ok, unusable, section_hit, to_DWORD, DWORD_MAX.
  intros [Hva Hvs] Hbad. apply andb_false_iff.
  destruct (Z.leb_spec (VirtualAddress s) a) as [Hle|]; [right | now left].
  apply Z.ltb_ge. destruct Hbad as [H0|Hwrap].
  - rewrite H0, Z.add_0_r, Z.mod_small by lia. exact Hle.
  - replace (VirtualAddress s + VirtualSize s)
      with (VirtualAddress s + VirtualSize s - 4294967296
            + 1 * 4294967296) by lia.
    rewrite Z.mod_add, Z.mod_small by lia. lia.
Qed.

Lemma scan_sections_skip before s after a :
  section_hit s a = false ->
  scan_sections (before ++ s :: after) a = scan_sections (before ++ after) a.
Proof.
  intros Hs. induction before as [|b before IH]; cbn.
  - now rewrite Hs.
  - now rewrite IH.
Qed.

(** X4.  A section whose [VirtualSize] is 0, or whose range passes the end
    of the 32-bit address space (so that [VirtualAddress + VirtualSize]
    wraps), is never the section an address resolves through: every
    address resolves as if the section were not in the table. *)
Theorem SectionRvaFileOffset_skips_unusable :
  forall before s after address,
    section_fields_ok s ->
    unusable s ->
    SectionRvaFileOffset (Z.of_nat (length (before ++ s :: after)))
      (before ++ s :: after) address
    = SectionRvaFileOffset (Z.of_nat (length (before ++ after)))
        (before ++ after) address.
Proof.
  intros before s after address Hok Hbad. unfold SectionRvaFileOffset.
  rewrite !firstn_length_all.
  apply scan_sections_skip, unusable_never_hit; assumption.
Qed.

(** The theorem at a table whose first section wraps: the address
    0xfffff800 lies between its start and the integer end of its range and
    still resolves through the section after it. *)
Lemma SectionRvaFileOffset_skips_unusable_witness :
  SectionRvaFileOffset 2
    [mkSection 8192 4294963200 1024; mkSection 4294967295 0 512] 4294965248
  = SectionRvaFileOffset 1 [mkSection 4294967295 0 512] 4294965248.
Proof.
  apply (SectionRvaFileOffset_skips_unusable
           [] (mkSection 8192 4294963200 1024)
           [mkSection 4294967295 0 512] 4294965248).
  - unfold section_fields_ok, DWORD_MAX. cbn. lia.
  - right. unfold DWORD_MAX. cbn. lia.
Defined.


(** ** From the loop body back to the readers *)

(** A directory entry that the loop body matched against the requested
    names was opened and accepted by all four readers, and the variables of
    [main] hold what they returned. *)
Lemma ScanFile_parsed t ext imps e v w vd v' w' :
  ScanFile t ext imps e v w = Some ((vd, v'), w') ->
  vd = Reported \/ vd = NoMatch ->
  exists bytes,
    contents e = Some bytes
    /\ extension e = ext
    /\ parsed t (path e) bytes v w (NtHeaders v') (Sections v') (imports v').
Proof.
  unfold ScanFile, parsed.
  destruct (String.eqb_spec (extension e) ext) as [Hext|Hext]; cbn [negb].
  2:{ unfold ret. intros [= <- <- <-] [?|?]; discriminate. }
  destruct (contents e) as [bytes|] eqn:Hbytes.
  2:{ unfold ret. intros [= <- <- <-] [?|?]; discriminate. }
  rewrite bind_fopen. fold (opened bytes w).
  destruct (ReadMagicNumber_effects (path e) (DosHeader v) (opened bytes w))
    as (r1 & D1 & w1 & Hrun1 & _).
  rewrite (bind_run _ _ _ _ _ Hrun1).
  destruct (Z.eqb_spec r1 0) as [->|Hr1]; cbn [negb].
  2:{ io. intros [= <- <- <-] [?|?]; discriminate. }
  cbn [DosHeader NtHeaders Sections imports numResults].
  destruct (ReadNtHeaders_effects t (path e) D1 (NtHeaders v) w1)
    as (r2 & D2 & N2 & w2 & Hrun2 & _).
  rewrite (bind_run _ _ _ _ _ Hrun2).
  destruct (Z.eqb_spec r2 0) as [->|Hr2]; cbn [negb].
  2:{ io. intros [= <- <- <-] [?|?]; discriminate. }
  cbn [DosHeader NtHeaders Sections imports numResults].
  destruct (ReadSections_effects (path e) (NumberOfSections N2) (Sections v) w2)
    as (r3 & S3 & w3 & Hrun3 & _).
  rewrite (bind_run _ _ _ _ _ Hrun3).
  destruct (Z.eqb_spec r3 0) as [->|Hr3]; cbn [negb].
  2:{ io. intros [= <- <- <-] [?|?]; discriminate. }
  cbn [DosHeader NtHeaders Sections imports numResults].
  destruct (ReadImportDescriptors_total t (path e) N2 S3 (imports v) w3)
    as ([r4 I4] & w4 & Hrun4).
  rewrite (bind_run _ _ _ _ _ Hrun4).
  destruct (Z.eqb_spec r4 0) as [->|Hr4]; cbn [negb].
  2:{ io. intros [= <- <- <-] [?|?]; discriminate. }
  cbn [DosHeader NtHeaders Sections imports numResults].
  destruct (match_dlls _ _ _ _ _) as [oss importCount].
  destruct (negb (importCount =? 0)); io; intros [= <- <- <-] _;
    cbn [NtHeaders Sections imports];
    exists bytes; (split; [reflexivity|]); (split; [exact Hext|]);
    exists D1, w1, D2, w2, w3, w4; auto.
Qed.


(** ** Matches, once more *)

Lemma matches_In imps thunks x :
  In x (matches imps thunks) ->
  In x imps /\ exists names, In names thunks /\ In x names.
Proof.
  unfold matches. intros H. apply in_flat_map in H as (name & Hname & Hx).
  apply filter_In in Hx as [Hin Heq]. apply name_eqb_eq in Heq. subst x.
  split; [exact Hin|]. apply in_concat in Hname as (names & ? & ?). eauto.
Qed.

(** ** The shape of what a scan prints *)

(** The names a file's walk stored are short. *)
Lemma ScanFile_names_short t ext imps e v w vd v' w' :
  ScanFile t ext imps e v w = Some ((vd, v'), w') ->
  vd = Reported \/ vd = NoMatch ->
  Forall (Forall short) (ImportThunkNames (imports v')).
Proof.
  intros Hrun Hvd.
  destruct (ScanFile_parsed _ _ _ _ _ _ _ _ _ Hrun Hvd)
    as (bytes & _ & _ & D1 & w1 & D2 & w2 & w3 & w4 & _ & _ & _ & Himp).
  apply ReadImportDescriptors_effects in Himp. tauto.
Qed.

Ltac shape :=
  repeat match goal with
         | |- _ /\ _ => split
         | |- Forall _ _ => constructor
         end;
  try reflexivity; try lia.

Lemma ScanFile_report t ext imps e v w :
  exists vd v' w' report,
    ScanFile t ext imps e v w = Some ((vd, v'), w')
    /\ stdout w' = stdout w ++ report
    /\ entry_report e report
    /\ result_indices report
       = count_from (numResults v) (length (filter is_result report))
    /\ numResults v'
       = numResults v + Z.of_nat (length (filter is_result report))
    /\ Forall (result_ok [e] imps) report.
Proof.
  destruct (ScanFile_cases t ext imps e v w)
    as (vd & v' & w' & report & Hrun & Hout & Hcase).
  exists vd, v', w', report. split; [exact Hrun|]. split; [exact Hout|].
  unfold entry_report.
  destruct vd as [ | | r | r | r | r | | ].
  - destruct Hcase as (_ & -> & ->). cbn; shape.
  - destruct Hcase as (_ & -> & ->). cbn; shape.
  - destruct Hcase as (_ & Hn & text & ->). cbn; shape.
  - destruct Hcase as (_ & Hn & H5 & Hother).
    destruct (Z.eq_dec r 5) as [E|E].
    + destruct (H5 E) as [-> _]. cbn; shape.
    + destruct (Hother E) as [text ->]. cbn; shape.
  - destruct Hcase as (_ & Hn & i & ->). cbn; shape.
  - destruct Hcase as (_ & Hn & text & ->). cbn; shape.
  - destruct Hcase as (Hn & -> & _). cbn; shape.
  - destruct Hcase as (Hn & HM & bytes & Hbytes & ->).
    pose proof (ScanFile_names_short _ _ _ _ _ _ _ _ _ Hrun (or_introl eq_refl))
      as Hshort.
    cbn. split; [split; [lia | auto]|]. split; [reflexivity|].
    split; [lia|]. constructor; [|constructor].
    split.
    { destruct (matches imps (ImportThunkNames (imports v'))); [congruence|].
      cbn [length]. lia. }
    split; [exists e, bytes; cbn [In]; auto|]. unfold listing.
    destruct (1 <? Z.of_nat (length imps)); [|reflexivity].
    split; [reflexivity|]. apply Forall_forall. intros x Hx.
    apply matches_In in Hx as (Himp & names & Hnames & Hin).
    split; [exact Himp|].
    rewrite Forall_forall in Hshort. specialize (Hshort names Hnames).
    rewrite Forall_forall in Hshort. auto.
Qed.

Lemma count_from_app first n m :
  count_from first (n + m)
  = count_from first n ++ count_from (first + Z.of_nat n) m.
Proof.
  revert first. induction n as [|n IH]; intros first.
  - cbn. now rewrite Z.add_0_r.
  - cbn [Nat.add count_from app]. rewrite IH. do 3 f_equal. lia.
Qed.

Lemma result_indices_app a b :
  result_indices (a ++ b) = result_indices a ++ result_indices b.
Proof. unfold result_indices. apply flat_map_app. Qed.

(** The loop over a directory: one report per entry, in the order of the
    entries, with the results numbered consecutively. *)
Lemma result_ok_incl dir dir' imps o :
  incl dir dir' -> result_ok dir imps o -> result_ok dir' imps o.
Proof.
  intros Hincl. destruct o as [ | | | index Path size importCount names];
    cbn; auto.
  intros (Hc & (e & bytes & Hin & He) & Hnames).
  split; [exact Hc|]. split; [|exact Hnames].
  exists e, bytes. split; [apply Hincl, Hin | exact He].
Qed.

Lemma Scan_reports t ext imps dir :
  forall v w,
  exists v' w' reports,
    Scan t ext imps dir v w = Some (v', w')
    /\ stdout w' = stdout w ++ concat reports
    /\ Forall2 entry_report dir reports
    /\ result_indices (concat reports)
       = count_from (numResults v)
                    (length (filter is_result (concat reports)))
    /\ Forall (result_ok dir imps) (concat reports).
Proof.
  induction dir as [|e rest IH]; intros v w.
  - exists v, w, []. cbn. rewrite app_nil_r. unfold ret. auto.
  - cbn [Scan]. unfold bind.
    destruct (ScanFile_report t ext imps e v w)
      as (vd & v1 & w1 & r & Hrun & Hout & Hshape & Hidx & Hn & Hok).
    rewrite Hrun.
    destruct (IH v1 w1) as (v' & w' & rs & Hscan & Hout' & Hall & Hidx' & Hok').
    exists v', w', (r :: rs). split; [exact Hscan|]. cbn [concat].
    split; [now rewrite Hout', Hout, app_assoc|].
    split; [now constructor|].
    split.
    2:{ apply Forall_app. split.
        - eapply Forall_impl; [|exact Hok]. intros o.
          apply result_ok_incl. intros x [<-|[]]. now left.
        - eapply Forall_impl; [|exact Hok']. intros o.
          apply result_ok_incl. intros x Hx. now right. }
    rewrite result_indices_app, filter_app, length_app, count_from_app.
    now rewrite Hidx, Hidx', Hn.
Qed.


(** X14.  The walk of a directory prints one report per directory entry,
    in the order of the entries: each report is empty, one diagnostic or
    one result, and is about the entry's own path. *)
Theorem scan_reports_entry_by_entry :
  forall t D0 N0 dir ext imps,
  exists reports,
    scan_directory t D0 N0 dir ext imps = Some (concat reports)
    /\ Forall2 entry_report dir reports.
Proof.
  intros t D0 N0 dir ext imps. unfold scan_directory.
  destruct (Scan_reports t ext imps dir (initial_vars D0 N0) initial_world)
    as (v' & w' & reports & Hscan & Hout & Hall & _).
  rewrite Hscan, Hout. exists reports. auto.
Qed.

(** X13.  The results a walk prints are numbered 0, 1, 2, ... in the order
    they are printed: files that are skipped or given up do not use up a
    number. *)
Theorem scan_numbers_results_consecutively :
  forall t D0 N0 dir ext imps,
  exists out,
    scan_directory t D0 N0 dir ext imps = Some out
    /\ result_indices out = count_from 0 (length (filter is_result out)).
Proof.
  intros t D0 N0 dir ext imps. unfold scan_directory.
  destruct (Scan_reports t ext imps dir (initial_vars D0 N0) initial_world)
    as (v' & w' & reports & Hscan & Hout & _ & Hidx & _).
  rewrite Hscan, Hout. eauto.
Qed.

(** X12.  Every result a walk prints has a match count above zero and
    carries the path of an entry of the directory that can be opened,
    with the size [ftell] gives for the contents of that entry (the
    length, or -1 from 2 GiB on); when more than one name was requested it
    lists exactly as many names as it counts, each of them one of the
    requested names and at most 31 characters long, and when one name was
    requested it lists none. *)
Theorem scan_results_are_consistent :
  forall t D0 N0 dir ext imps,
  exists out,
    scan_directory t D0 N0 dir ext imps = Some out
    /\ Forall (result_ok dir imps) out.
Proof.
  intros t D0 N0 dir ext imps. unfold scan_directory.
  destruct (Scan_reports t ext imps dir (initial_vars D0 N0) initial_world)
    as (v' & w' & reports & Hscan & Hout & _ & _ & Hok).
  rewrite Hscan, Hout. eauto.
Qed.

(** ** Entries that are not candidates *)

Lemma ScanFile_not_candidate t ext imps e v w :
  candidate ext e = false ->
  exists vd, ScanFile t ext imps e v w = Some ((vd, v), w).
Proof.
  unfold candidate, ScanFile. intros H.
  destruct (String.eqb (extension e) ext); cbn [negb];
    [|unfold ret; eauto].
  destruct (contents e); [discriminate | unfold ret; eauto].
Qed.

(** X10.  Directory entries with another extension, and entries that cannot
    be opened, have no effect at all on a walk: the loop ends in the same
    state and has printed the same as on the directory without them. *)
Theorem scan_ignores_other_entries :
  forall t ext imps dir v w,
    Scan t ext imps dir v w
    = Scan t ext imps (filter (candidate ext) dir) v w.
Proof.
  intros t ext imps dir. induction dir as [|e rest IH]; intros v w;
    [reflexivity|].
  cbn [filter]. destruct (candidate ext e) eqn:Hc.
  - cbn [Scan]. unfold bind.
    destruct (ScanFile t ext imps e v w) as [[[vd v'] w']|];
      [apply IH | reflexivity].
  - cbn [Scan]. unfold bind.
    destruct (ScanFile_not_candidate t ext imps e v w Hc) as [vd ->].
    apply IH.
Qed.

(** ** Requested names that no file can have *)

Lemma matches_long_names imps thunks :
  Forall (fun imp => (31 < length imp)%nat) imps ->
  Forall (Forall short) thunks ->
  matches imps thunks = [].
Proof.
  intros Hlong Hshort.
  destruct (matches imps thunks) as [|x l] eqn:E; [reflexivity|].
  assert (Hx : In x (matches imps thunks)) by (rewrite E; now left).
  apply matches_In in Hx as (Himp & names & Hnames & Hin).
  rewrite Forall_forall in Hlong, Hshort.
  specialize (Hlong x Himp). specialize (Hshort names Hnames).
  rewrite Forall_forall in Hshort. specialize (Hshort x Hin).
  unfold short in Hshort. lia.
Qed.

(** X11.  A requested name of more than 31 characters is never found: the
    names read from a file are cut to 31 characters, so that a walk for
    names that are all longer prints no result, whatever the files
    import. *)
Theorem long_names_are_never_found :
  forall t D0 N0 dir ext imps,
    Forall (fun imp => (31 < length imp)%nat) imps ->
    exists out,
      scan_directory t D0 N0 dir ext imps = Some out
      /\ Forall (fun o => is_result o = false) out.
Proof.
  intros t D0 N0 dir ext imps Hlong. unfold scan_directory.
  assert (Hall : forall v w,
             exists v' w' out,
               Scan t ext imps dir v w = Some (v', w')
               /\ stdout w' = stdout w ++ out
               /\ Forall (fun o => is_result o = false) out).
  { induction dir as [|e rest IH]; intros v w.
    - exists v, w, []. cbn. rewrite app_nil_r. unfold ret. auto.
    - cbn [Scan]. unfold bind.
      destruct (ScanFile_cases t ext imps e v w)
        as (vd & v1 & w1 & r & Hrun & Hout & Hcase).
      rewrite Hrun.
      destruct (IH v1 w1) as (v' & w' & out & Hscan & Hout' & Hno).
      exists v', w', (r ++ out). split; [exact Hscan|].
      split; [now rewrite Hout', Hout, app_assoc|].
      apply Forall_app. split; [|exact Hno].
      destruct vd as [ | | c | c | c | c | | ].
      + destruct Hcase as (_ & -> & _). constructor.
      + destruct Hcase as (_ & -> & _). constructor.
      + destruct Hcase as (_ & _ & text & ->). repeat constructor.
      + destruct Hcase as (_ & _ & H5 & Hother).
        destruct (Z.eq_dec c 5) as [E|E].
        * destruct (H5 E) as [-> _]. constructor.
        * destruct (Hother E) as [text ->]. repeat constructor.
      + destruct Hcase as (_ & _ & i & ->). repeat constructor.
      + destruct Hcase as (_ & _ & text & ->). repeat constructor.
      + destruct Hcase as (_ & -> & _). constructor.
      + destruct Hcase as (_ & HM & _). exfalso. apply HM.
        apply matches_long_names; [exact Hlong|].
        eapply ScanFile_names_short; eauto. }
  destruct (Hall (initial_vars D0 N0) initial_world)
    as (v' & w' & out & Hscan & Hout & Hno).
  rewrite Hscan, Hout. eauto.
Qed.

(** The theorem at the driver image and a requested name of 40 letters. *)
Lemma long_names_are_never_found_witness :
  exists out,
    scan_directory M_X64 (mkDos 0 []) []
      [Image.sys_file "driver.sys" Image.driver_sys] ".sys"
      [Image.letters 40]
    = Some out
    /\ Forall (fun o => is_result o = false) out.
Proof.
  apply (long_names_are_never_found M_X64 (mkDos 0 []) []
           [Image.sys_file "driver.sys" Image.driver_sys] ".sys"
           [Image.letters 40]).
  constructor; [|constructor]. unfold Image.letters.
  rewrite repeat_length. lia.
Defined.


(** ** The header readers, in terms of the file *)

(** A read at a position that is not negative delivers the bytes there. *)
Lemma fread_bytes_at (size : Z) (w : World) :
  0 <= cur w ->
  fread size w =
  match bytes_at (file w) (cur w) size with
  | Some got => Some ((1, got), set_cur w (cur w + size))
  | None =>
      let got := firstn (Z.to_nat size) (skipn (Z.to_nat (cur w)) (file w)) in
      Some ((0, got), set_cur w (cur w + Z.of_nat (length got)))
  end.
Proof.
  intros Hcur. unfold fread, bytes_at.
  destruct (Z.ltb_spec (cur w) 0); [lia|].
  cbv zeta. destruct (_ =? size); reflexivity.
Qed.

(** X1.  [ReadMagicNumber], called on a file just opened, returns 0 exactly
    when the file starts with the bytes MZ, 1 exactly when the file has
    fewer than two bytes, and 2 exactly when its first two bytes are other
    bytes; on success the header holds the magic number and the stream
    stands behind it.  The rest of the header is not touched. *)
Theorem ReadMagicNumber_classifies :
  forall Path D bytes w,
  exists code D' w',
    ReadMagicNumber Path D (opened bytes w) = Some ((code, D'), w')
    /\ e_tail D' = e_tail D
    /\ (code = 0 <-> starts_with_MZ bytes)
    /\ (code = 1 <-> (length bytes < 2)%nat)
    /\ (code = 2 <-> (2 <= length bytes)%nat /\ ~ starts_with_MZ bytes)
    /\ (code = 0 -> e_magic D' = MZ /\ cur w' = 2).
Proof.
  intros Path D bytes w.
  unfold ReadMagicNumber, opened, starts_with_MZ. io.
  change (Z.to_nat 0) with 0%nat. change (Z.to_nat 2) with 2%nat.
  rewrite skipn_O.
  destruct bytes as [|b0 [|b1 rest]].
  - cbn. do 3 eexists. split; [reflexivity|]. cbn.
    repeat split; intros; try lia; try discriminate;
      try (match goal with H : _ /\ _ |- _ => destruct H end; lia).
  - cbn. do 3 eexists. split; [reflexivity|]. cbn.
    repeat split; intros; try lia; try discriminate;
      try (match goal with H : _ /\ _ |- _ => destruct H end; lia).
  - cbn [firstn length Z.of_nat Pos.of_succ_nat Pos.succ Z.eqb Pos.eqb].
    cbn [negb e_magic]. unfold fill. cbn [length app skipn firstn le].
    destruct (Z.eqb_spec (byte_val b0 + 256 * (byte_val b1 + 256 * 0)) MZ)
      as [E|E]; cbn [negb]; io; do 3 eexists; (split; [reflexivity|]);
      cbn [e_tail e_magic cur]; (split; [reflexivity|]).
    + assert (Hmz : [b0; b1] = ["M"%byte; "Z"%byte]).
      { pose proof (byte_val_range b0). pose proof (byte_val_range b1).
        unfold MZ in E.
        assert (byte_val b0 = Z.of_N 77) by (cbn; lia).
        assert (byte_val b1 = Z.of_N 90) by (cbn; lia).
        f_equal; [|f_equal]; eapply byte_of_val; eauto. }
      split; [tauto|]. split; [split; intros; lia|].
      split; [|intros _; split; [exact E | reflexivity]].
      split; [discriminate | tauto].
    + assert (Hmz : [b0; b1] <> ["M"%byte; "Z"%byte]).
      { intros [= -> ->]. apply E. reflexivity. }
      split; [split; [discriminate | tauto]|].
      split; [split; intros; lia|].
      split; [|discriminate].
      split; [intros _; split; [lia | exact Hmz] | reflexivity].
Qed.

(** X2.  [ReadNtHeaders], called behind the magic number, returns 0
    exactly when the 62 remaining bytes of the DOS header can be read,
    [e_lfanew] is not negative, the NT headers can be read in full at that
    offset, and they carry the PE signature, the machine and the optional
    header magic of the build target; it returns 5 exactly when they can
    be read and carry the PE signature with another machine.  On success
    the NT headers stored are those bytes of the file, whatever the
    variable held before, and the stream stands behind them. *)
Theorem ReadNtHeaders_accepts :
  forall t Path D N w,
    0 <= cur w ->
    exists code D' N' w',
      ReadNtHeaders t Path D N w = Some ((code, D', N'), w')
      /\ e_magic D' = e_magic D
      /\ (code = 0 <->
          exists nt, nt_headers_of t (file w) (cur w) = Some nt
                     /\ supported t nt)
      /\ (code = 5 <->
          exists nt, nt_headers_of t (file w) (cur w) = Some nt
                     /\ foreign t nt)
      /\ (code = 0 ->
          nt_headers_of t (file w) (cur w) = Some N'
          /\ bytes_at (file w) (cur w) (sizeof_DOS_HEADER - 2)
             = Some (e_tail D')
          /\ cur w' = e_lfanew D' + Z.of_nat (sizeof_NT_HEADERS t)).
Proof.
  intros t Path D N w Hcur.
  unfold ReadNtHeaders, nt_headers_of, supported, foreign.
  unfold bind at 1. rewrite fread_bytes_at by exact Hcur.
  destruct (bytes_at (file w) (cur w) (sizeof_DOS_HEADER - 2))
    as [tail|] eqn:Htail.
  2:{ io. do 4 eexists. split; [reflexivity|]. cbn [e_magic].
      split; [reflexivity|].
      repeat split; intros; try lia; try discriminate;
        match goal with H : exists _, _ |- _ => destruct H as (? & ? & _) end;
        discriminate. }
  pose proof (bytes_at_length _ _ _ _ Htail) as Hlen.
  change (sizeof_DOS_HEADER - 2) with 62 in Hlen.
  cbn [negb Z.eqb Pos.eqb e_magic e_tail].
  rewrite fill_full by lia.
  unfold e_lfanew. cbn [e_tail].
  set (lfanew := field_long 58 tail).
  unfold bind at 1. unfold fseek at 1. cbv zeta.
  destruct (Z.ltb_spec lfanew 0) as [Hneg|Hpos].
  { io. do 4 eexists. split; [reflexivity|]. cbn [e_magic].
    split; [reflexivity|]. unfold bytes_at at 1 2.
    destruct (Z.ltb_spec lfanew 0); [|lia].
    repeat split; intros; try lia; try discriminate;
      match goal with H : exists _, _ |- _ => destruct H as (? & ? & _) end;
      discriminate. }
  cbn [negb Z.eqb].
  unfold bind at 1. rewrite fread_bytes_at by (cbn; lia).
  cbn [file cur set_cur log_call].
  destruct (bytes_at (file w) lfanew (Z.of_nat (sizeof_NT_HEADERS t)))
    as [nt|] eqn:Hnt.
  2:{ io. do 4 eexists. split; [reflexivity|]. cbn [e_magic].
      split; [reflexivity|].
      repeat split; intros; try lia; try discriminate;
        match goal with H : exists _, _ |- _ => destruct H as (? & ? & _) end;
        discriminate. }
  pose proof (bytes_at_length _ _ _ _ Hnt) as Hlen'.
  cbn [negb Z.eqb Pos.eqb].
  rewrite fill_full by lia.
  destruct (Z.eqb_spec (Signature nt) PE) as [Hsig|Hsig]; cbn [negb].
  2:{ io. do 4 eexists. split; [reflexivity|]. cbn [e_magic].
      split; [reflexivity|].
      repeat split; intros; try lia; try discriminate;
        match goal with
        | H : exists _, _ |- _ => destruct H as (? & [= <-] & ? & ?)
        end; contradiction. }
  destruct (Z.eqb_spec (Machine nt) (IMAGE_FILE_MACHINE t)) as [Hm|Hm];
    cbn [negb].
  2:{ io. do 4 eexists. split; [reflexivity|]. cbn [e_magic].
      split; [reflexivity|].
      split.
      { split; [discriminate|]. intros (? & [= <-] & _ & ? & _).
        contradiction. }
      split; [|discriminate].
      split; [intros _; exists nt; auto | reflexivity]. }
  destruct (Z.eqb_spec (OptionalMagic nt) (IMAGE_NT_OPTIONAL_HDR_MAGIC t))
    as [Ho|Ho]; cbn [negb].
  2:{ io. do 4 eexists. split; [reflexivity|]. cbn [e_magic].
      split; [reflexivity|].
      split.
      { split; [discriminate|]. intros (? & [= <-] & _ & _ & ?).
        contradiction. }
      split; [|discriminate].
      split; [discriminate|]. intros (? & [= <-] & _ & ?). contradiction. }
  io. do 4 eexists. split; [reflexivity|]. cbn [e_magic e_tail cur].
  split; [reflexivity|].
  split; [split; [intros _; exists nt; auto | reflexivity]|].
  split.
  { split; [discriminate|]. intros (? & [= <-] & _ & ?). contradiction. }
  intros _. auto.
Qed.

(** The theorem at the driver image, behind its magic number. *)
Lemma ReadNtHeaders_accepts_witness :
  exists code D' N' w',
    ReadNtHeaders M_X64 "driver.sys" (mkDos MZ []) []
                  (mkWorld Image.driver_sys 2 [] [])
    = Some ((code, D', N'), w')
    /\ code = 0 /\ N' = driver_NtHeaders.
Proof.
  destruct (ReadNtHeaders_accepts M_X64 "driver.sys" (mkDos MZ []) []
              (mkWorld Image.driver_sys 2 [] []))
    as (code & D' & N' & w' & Hrun & _ & H0 & _ & Hok).
  { cbn. lia. }
  exists code, D', N', w'. split; [exact Hrun|].
  assert (E : code = 0).
  { apply H0. exists driver_NtHeaders. rewrite file_mkWorld.
    split; [vm_compute; reflexivity|].
    repeat split; vm_compute; reflexivity. }
  split; [exact E|].
  destruct (Hok E) as (Hnt & _). rewrite file_mkWorld in Hnt.
  assert (Hd : nt_headers_of M_X64 Image.driver_sys 2 = Some driver_NtHeaders)
    by (vm_compute; reflexivity).
  cbn [cur] in Hnt. congruence.
Defined.


(** ** The section table, in terms of the file *)

Lemma seq_snoc (n : nat) : seq 0 (S n) = seq 0 n ++ [n].
Proof. rewrite seq_S. reflexivity. Qed.

(** The loop of [ReadSections], started with the first [length Secs]
    records of the table at [pos] in its vector and the stream behind
    them. *)
Lemma ReadSections_loop_table Path pos n :
  forall Secs w,
    0 <= pos ->
    cur w = pos + sizeof_SECTION_HEADER * Z.of_nat (length Secs) ->
    map Some Secs = map (section_at (file w) pos) (seq 0 (length Secs)) ->
    exists code Secs' w',
      ReadSections_loop Path n (Z.of_nat (length Secs)) Secs w
      = Some ((code, Secs'), w')
      /\ map Some Secs' = map (section_at (file w) pos) (seq 0 (length Secs'))
      /\ (code = 0 ->
          length Secs' = (length Secs + n)%nat
          /\ cur w' = pos + sizeof_SECTION_HEADER * Z.of_nat (length Secs')
          /\ stdout w' = stdout w)
      /\ (code <> 0 ->
          code = 1
          /\ (length Secs' < length Secs + n)%nat
          /\ section_at (file w) pos (length Secs') = None
          /\ stdout w' =
             stdout w ++ [DiagnosticSection Path (Z.of_nat (length Secs'))]).
Proof.
  induction n as [|n IH]; intros Secs w Hpos Hcur Htab.
  - cbn. unfold ret. do 3 eexists. split; [reflexivity|].
    split; [exact Htab|]. split; [|intros; lia].
    intros _. split; [lia|]. split; [exact Hcur | reflexivity].
  - cbn [ReadSections_loop]. unfold bind at 1.
    rewrite fread_bytes_at by (unfold sizeof_SECTION_HEADER in *; lia).
    rewrite Hcur.
    destruct (bytes_at (file w)
                (pos + sizeof_SECTION_HEADER * Z.of_nat (length Secs))
                sizeof_SECTION_HEADER) as [raw|] eqn:Hraw.
    + cbn [negb Z.eqb Pos.eqb].
      replace (Z.of_nat (length Secs) + 1)
        with (Z.of_nat (length (Secs ++ [decode_section raw])))
        by (rewrite length_app; cbn [length]; lia).
      match goal with
      | |- context [ReadSections_loop Path n _ ?S ?w1] =>
          destruct (IH S w1) as (c & S' & w' & Hrun & Ht & H0 & H1)
      end.
      { exact Hpos. }
      { cbn [cur set_cur]. rewrite length_app. cbn [length].
        unfold sizeof_SECTION_HEADER. lia. }
      { cbn [file set_cur]. rewrite length_app. cbn [length].
        rewrite Nat.add_1_r, seq_snoc, !map_app, Htab. cbn [map].
        do 2 f_equal. unfold section_at. now rewrite Hraw. }
      rewrite Hrun. do 3 eexists. split; [reflexivity|].
      cbn [file cur stdout set_cur] in *. split; [exact Ht|].
      rewrite length_app in H0, H1. cbn [length] in H0, H1.
      split.
      * intros E. destruct (H0 E) as (Hl & Hc & Hs).
        split; [lia|]. split; assumption.
      * intros E. destruct (H1 E) as (Hc & Hl & Hn & Hs).
        split; [assumption|]. split; [lia|]. split; assumption.
    + io. do 3 eexists. split; [reflexivity|]. cbn [file stdout].
      split; [exact Htab|]. split; [intros; lia|]. intros _.
      split; [reflexivity|]. split; [lia|].
      split; [|reflexivity]. unfold section_at. rewrite Hraw. reflexivity.
Qed.

(** X3.  [ReadSections] stores the records of the section table in file
    order, each decoded from the 40 bytes at its place behind the NT
    headers, and nothing of what the vector held before.  It returns 0
    with all [NumberOfSections] records and the stream behind the table,
    or 1 with the records before the first one that the file is too short
    for, after one diagnostic that gives the index of that record. *)
Theorem ReadSections_reads_table :
  forall Path n old w,
    0 <= cur w ->
    exists code Secs w',
      ReadSections Path n old w = Some ((code, Secs), w')
      /\ map Some Secs
         = map (section_at (file w) (cur w)) (seq 0 (length Secs))
      /\ (code = 0 ->
          length Secs = Z.to_nat n
          /\ cur w' = cur w + sizeof_SECTION_HEADER * Z.of_nat (length Secs)
          /\ stdout w' = stdout w)
      /\ (code <> 0 ->
          code = 1
          /\ (length Secs < Z.to_nat n)%nat
          /\ section_at (file w) (cur w) (length Secs) = None
          /\ stdout w' =
             stdout w ++ [DiagnosticSection Path (Z.of_nat (length Secs))]).
Proof.
  intros Path n old w Hcur. unfold ReadSections.
  destruct (ReadSections_loop_table Path (cur w) (Z.to_nat n) [] w)
    as (code & Secs & w' & Hrun & Htab & H0 & H1).
  { exact Hcur. }
  { cbn. lia. }
  { reflexivity. }
  cbn [length Z.of_nat] in Hrun. rewrite Hrun.
  exists code, Secs, w'. split; [reflexivity|]. split; [exact Htab|].
  cbn [length Nat.add] in H0, H1. auto.
Qed.

(** The theorem at the driver image, behind its NT headers: the one
    section of the image is read. *)
Lemma ReadSections_reads_table_witness :
  exists w',
    ReadSections "driver.sys" 1 [] (mkWorld Image.driver_sys 328 [] [])
    = Some ((0, [Image.idata]), w').
Proof.
  destruct (ReadSections_reads_table "driver.sys" 1 []
              (mkWorld Image.driver_sys 328 [] []))
    as (code & Secs & w' & Hrun & _).
  { cbn. lia. }
  exists w'. rewrite Hrun.
  pose proof Hrun as Heval. vm_compute in Heval.
  injection Heval as <- <- _. reflexivity.
Defined.



(** ** The import directory, in terms of the file *)

Lemma to_long_negative (z : Z) :
  0 <= z <= DWORD_MAX -> (to_long z < 0 <-> 2147483648 <= z).
Proof.
  unfold to_long, DWORD_MAX. intros H. rewrite Z.mod_small by lia.
  destruct (Z.ltb_spec z 2147483648); lia.
Qed.

(** The first loop, started with the first [length descs] records of the
    array at [pos] in its vector and the stream behind them. *)
Lemma ReadDescriptors_loop_table Path pos n fuel :
  forall i descs w code descs' w',
    0 <= pos ->
    cur w = pos + sizeof_IMPORT_DESCRIPTOR * Z.of_nat (length descs) ->
    map Some descs
    = map (descriptor_at (file w) pos) (seq 0 (length descs)) ->
    ReadDescriptors_loop fuel Path i n descs w = Some ((code, descs'), w') ->
    map Some descs'
    = map (descriptor_at (file w) pos) (seq 0 (length descs'))
    /\ (code <> 0 -> descriptor_at (file w) pos (length descs') = None).
Proof.
  induction fuel as [|fuel IH]; intros i descs w code descs' w' Hpos Hcur Htab.
  - cbn. destruct (i <? n); [discriminate|].
    unfold ret. intros [= <- <- <-]. split; [exact Htab | intros; lia].
  - cbn [ReadDescriptors_loop]. destruct (i <? n).
    2:{ unfold ret. intros [= <- <- <-]. split; [exact Htab | intros; lia]. }
    unfold bind at 1.
    rewrite fread_bytes_at by (unfold sizeof_IMPORT_DESCRIPTOR in *; lia).
    rewrite Hcur.
    destruct (bytes_at (file w)
                (pos + sizeof_IMPORT_DESCRIPTOR * Z.of_nat (length descs))
                sizeof_IMPORT_DESCRIPTOR) as [raw|] eqn:Hraw.
    + cbn [negb Z.eqb Pos.eqb]. intros Hrun.
      apply IH in Hrun; [exact Hrun | exact Hpos | |].
      * cbn [cur set_cur]. rewrite length_app. cbn [length].
        unfold sizeof_IMPORT_DESCRIPTOR. lia.
      * cbn [file set_cur]. rewrite length_app. cbn [length].
        rewrite Nat.add_1_r, seq_snoc, !map_app, Htab. cbn [map].
        do 2 f_equal. unfold descriptor_at. now rewrite Hraw.
    + io. intros [= <- <- <-]. split; [exact Htab|]. intros _.
      unfold descriptor_at. now rewrite Hraw.
Qed.

(** The second loop stores, for the descriptors it gets through, the DLL
    name of each, and one list of symbols for each DLL name. *)
Lemma ReadNames_loop_dll_names t Path nsec Sections fuel todo :
  forall dlls thunks w code dlls' thunks' w',
    ReadNames_loop fuel t Path nsec Sections todo dlls thunks w
    = Some ((code, dlls', thunks'), w') ->
    exists names,
      dlls' = dlls ++ names
      /\ (length names <= length todo)%nat
      /\ map Some names
         = map (dll_name_of nsec Sections (file w))
               (firstn (length names) todo)
      /\ length thunks' = (length thunks + length names)%nat.
Proof.
  induction todo as [|d rest IH]; intros dlls thunks w code dlls' thunks' w'.
  - cbn. unfold ret. intros [= <- <- <- <-]. exists [].
    rewrite app_nil_r. cbn. auto with arith.
  - rewrite ReadNames_loop_step. cbv zeta.
    destruct (to_long _ <? 0).
    { intros [= <- <- <- <-]. exists []. rewrite app_nil_r. cbn.
      repeat split; lia. }
    destruct (bytes_at _ _ _) as [buf|] eqn:Hbuf.
    2:{ intros [= <- <- <- <-]. exists []. rewrite app_nil_r. cbn.
        repeat split; lia. }
    assert (Hname : dll_name_of nsec Sections (file w) d
                    = Some (stored_name buf))
      by (unfold dll_name_of; now rewrite Hbuf).
    destruct (ThunkWalk _ _ _ _ _ _ _ _) as [[[c names] w4]|] eqn:Hwalk;
      [|discriminate].
    apply ThunkWalk_effects in Hwalk as (Hf & _).
    cbn [file log_call set_cur] in Hf.
    destruct (Z.eqb_spec c 0) as [->|Hc]; cbn [negb].
    + intros H. apply IH in H as (more & -> & Hle & Hmap & Hlen).
      exists (stored_name buf :: more). rewrite <- app_assoc.
      split; [reflexivity|]. cbn [length firstn map].
      split; [lia|]. rewrite Hf in Hmap. rewrite <- Hmap, Hname.
      split; [reflexivity|]. rewrite Hlen, length_app. cbn [length]. lia.
    + intros [= <- <- <- <-]. exists [stored_name buf].
      split; [reflexivity|]. cbn [length firstn map].
      split; [lia|]. rewrite Hname. split; [reflexivity|].
      rewrite length_app. reflexivity.
Qed.

(** X5.  What [ReadImportDescriptors] leaves in its three vectors, each
    cleared first.  It returns 1, with nothing read, exactly when the file
    offset of the import directory is 2 GB or more.  Otherwise the
    descriptors are the records of the array at that offset, in file
    order, each decoded from its 20 bytes; the DLL names are those of the
    first descriptors, each cut from the 32 bytes at the offset its name
    address resolves to; and there is one list of symbols for each DLL
    name.  On success all three vectors have [NumberOfEntries] elements;
    the code 2 is returned at the first record the file is too short
    for. *)
Theorem ReadImportDescriptors_reads_directory :
  forall t Path N Secs old w,
  exists code imps w',
    ReadImportDescriptors t Path N Secs old w = Some ((code, imps), w')
    /\ (code = 1 <-> 2147483648 <= import_directory_offset t N Secs)
    /\ map Some (ImportDescriptors imps)
       = map (descriptor_at (file w) (import_directory_offset t N Secs))
             (seq 0 (length (ImportDescriptors imps)))
    /\ map Some (ImportDllNames imps)
       = map (dll_name_of (NumberOfSections N) Secs (file w))
             (firstn (length (ImportDllNames imps)) (ImportDescriptors imps))
    /\ (length (ImportDllNames imps) <= length (ImportDescriptors imps))%nat
    /\ length (ImportThunkNames imps) = length (ImportDllNames imps)
    /\ (code = 0 ->
        Z.of_nat (length (ImportDescriptors imps))
        = NumberOfEntries (ImportDirectorySize t N)
        /\ length (ImportDllNames imps) = length (ImportDescriptors imps))
    /\ (code = 2 ->
        descriptor_at (file w) (import_directory_offset t N Secs)
                      (length (ImportDescriptors imps)) = None).
Proof.
  intros t Path N Secs old w.
  destruct (ReadImportDescriptors_total t Path N Secs old w)
    as ([code imps] & w' & Hrun).
  exists code, imps, w'. split; [exact Hrun|].
  pose proof (ReadImportDescriptors_effects _ _ _ _ _ _ _ _ _ Hrun)
    as (_ & Hok & _).
  revert Hrun. unfold ReadImportDescriptors, import_directory_offset.
  pose proof (SectionRvaFileOffset_range (NumberOfSections N) Secs
                (ImportDirectoryVirtualAddress t N)) as Hrange.
  set (dir := SectionRvaFileOffset (NumberOfSections N) Secs
                (ImportDirectoryVirtualAddress t N)) in *.
  pose proof (to_long_negative dir Hrange) as Hneg.
  io. fold dir.
  destruct (Z.ltb_spec (to_long dir) 0) as [Hlt|Hge]; io.
  { intros [= <- <- <-].
    cbn [ImportDescriptors ImportDllNames ImportThunkNames length seq map
         firstn].
    split; [tauto|]. repeat split; try reflexivity; try lia; discriminate. }
  assert (Hdir : to_long dir = dir).
  { apply to_long_small. unfold DWORD_MAX in *. lia. }
  destruct (ReadDescriptors_loop _ _ _ _ _ _) as [[[c descs] w2]|] eqn:Hloop;
    [|discriminate].
  pose proof (ReadDescriptors_loop_effects _ _ _ _ _ _ _ _ _ Hloop)
    as (Hf & _ & _ & H2).
  apply (ReadDescriptors_loop_table Path dir) in Hloop as [Htab Hend];
    [ | lia | cbn; lia | reflexivity ].
  cbn [file] in Hf, Htab, Hend.
  destruct (Z.eqb_spec c 0) as [->|Hc]; cbn [negb].
  2:{ intros [= <- <- <-].
      cbn [ImportDescriptors ImportDllNames ImportThunkNames length firstn
           map].
      destruct (H2 Hc) as [-> _].
      split; [split; [discriminate | lia]|].
      split; [exact Htab|]. split; [reflexivity|]. split; [lia|].
      split; [reflexivity|]. split; [discriminate|]. intros _.
      apply Hend. discriminate. }
  destruct (ReadNames_loop _ _ _ _ _ _ _ _ _) as [[[[c dlls] thunks] w4]|]
    eqn:Hnames; [|discriminate].
  pose proof (ReadNames_loop_effects _ _ _ _ _ _ _ _ _ _ _ _ _ Hnames)
    as (_ & _ & _ & H3 & _).
  apply ReadNames_loop_dll_names in Hnames
    as (names & Hd & Hle & Hmap & Hlen).
  cbn [app length Nat.add] in Hd, Hlen. subst dlls. rewrite Hf in Hmap.
  intros [= <- <- <-].
  cbn [ImportDescriptors ImportDllNames ImportThunkNames] in *.
  split.
  { split; [|lia]. intros ->. destruct H3 as [H3 _]; [discriminate | lia]. }
  split; [exact Htab|]. split; [exact Hmap|]. split; [exact Hle|].
  split; [exact Hlen|]. split.
  - intros E. destruct (Hok E) as (_ & Hn & Hl & _). auto.
  - intros ->. destruct H3 as [H3 _]; [discriminate | lia].
Qed.


(** ** The walker is bounded by the file *)

(** Every name a walk adds stands for a thunk entry that was read in full,
    one after the other from [ThunkOffset] on. *)
Lemma ThunkWalk_bound t Path nsec Sections fuel :
  forall ThunkOffset names w code names' w',
    0 <= ThunkOffset <= DWORD_MAX ->
    ThunkWalk fuel t Path nsec Sections ThunkOffset names w
    = Some ((code, names'), w') ->
    exists syms,
      names' = names ++ syms
      /\ (syms = []
          \/ ThunkOffset + Z.of_nat (length syms) * sizeof_THUNK_DATA t
             <= Z.of_nat (length (file w))).
Proof.
  induction fuel as [|fuel IH];
    intros ThunkOffset names w code names' w' Hoff H.
  - discriminate.
  - rewrite ThunkWalk_step in H.
    destruct (ThunkTurn t Path nsec Sections ThunkOffset names w)
      as [[[ | c | o n] w1]|] eqn:Hturn; try discriminate.
    + injection H as <- <- <-. exists []. rewrite app_nil_r. auto.
    + injection H as <- <- <-. exists []. rewrite app_nil_r. auto.
    + apply ThunkTurn_continue in Hturn
        as (h & buf & _ & _ & _ & -> & -> & Hlong & Hlen & Hfile).
      destruct (to_long_nonneg ThunkOffset Hoff Hlong) as [Hsmall Heq].
      rewrite Heq in Hlen. pose proof (sizeof_THUNK_DATA_pos t) as Hsz.
      rewrite to_DWORD_small in H by (unfold DWORD_MAX; lia).
      apply IH in H as (syms & -> & Hb); [|unfold DWORD_MAX in *; lia].
      exists (stored_name buf :: syms). rewrite <- app_assoc.
      split; [reflexivity|]. right. rewrite Hfile in Hb.
      destruct Hb as [->|Hb]; cbn [length]; lia.
Qed.

Lemma ReadNames_loop_bound t Path nsec Sections fuel todo :
  forall dlls thunks w code dlls' thunks' w',
    ReadNames_loop fuel t Path nsec Sections todo dlls thunks w
    = Some ((code, dlls', thunks'), w') ->
    Forall (fits_file t (length (file w))) thunks ->
    Forall (fits_file t (length (file w))) thunks'.
Proof.
  induction todo as [|d rest IH]; intros dlls thunks w code dlls' thunks' w'.
  - cbn. unfold ret. intros [= <- <- <- <-]. auto.
  - rewrite ReadNames_loop_step. cbv zeta.
    destruct (to_long _ <? 0); [intros [= <- <- <- <-]; auto|].
    destruct (bytes_at _ _ _) as [buf|]; [|intros [= <- <- <- <-]; auto].
    destruct (ThunkWalk _ _ _ _ _ _ _ _) as [[[c names] w4]|] eqn:Hwalk;
      [|discriminate].
    pose proof (ThunkWalk_effects _ _ _ _ _ _ _ _ _ _ _ Hwalk) as (Hf & _).
    apply ThunkWalk_bound in Hwalk as (syms & Hsyms & Hb);
      [|apply SectionRvaFileOffset_range].
    cbn [app] in Hsyms. subst names.
    cbn [file log_call set_cur] in Hf, Hb.
    assert (Hfit : fits_file t (length (file w)) syms).
    { unfold fits_file.
      pose proof (SectionRvaFileOffset_range nsec Sections (FirstThunk d)).
      destruct Hb as [->|Hb]; cbn [length]; lia. }
    assert (Hall : Forall (fits_file t (length (file w))) thunks ->
                   Forall (fits_file t (length (file w))) (thunks ++ [syms])).
    { intros H. apply Forall_app. split; [exact H|]. repeat constructor.
      exact Hfit. }
    destruct (negb (c =? 0)).
    + intros [= <- <- <- <-]. exact Hall.
    + intros H Hthunks. apply IH in H; rewrite Hf in *; auto.
Qed.

(** The first loop stores no more descriptors than the file has room for
    behind the position it starts at. *)
Lemma ReadDescriptors_loop_bound Path n fuel :
  forall i descs w code descs' w',
    0 <= cur w ->
    ReadDescriptors_loop fuel Path i n descs w = Some ((code, descs'), w') ->
    descs' = descs
    \/ cur w + sizeof_IMPORT_DESCRIPTOR
               * (Z.of_nat (length descs') - Z.of_nat (length descs))
       <= Z.of_nat (length (file w)).
Proof.
  induction fuel as [|fuel IH]; intros i descs w code descs' w' Hcur.
  - cbn. destruct (i <? n); [discriminate|].
    unfold ret. intros [= <- <- <-]. now left.
  - cbn [ReadDescriptors_loop]. destruct (i <? n).
    2:{ unfold ret. intros [= <- <- <-]. now left. }
    unfold bind at 1. rewrite fread_bytes_at by exact Hcur.
    destruct (bytes_at (file w) (cur w) sizeof_IMPORT_DESCRIPTOR)
      as [raw|] eqn:Hraw.
    + cbn [negb Z.eqb Pos.eqb]. intros Hrun.
      assert (Hroom : cur w + sizeof_IMPORT_DESCRIPTOR
                      <= Z.of_nat (length (file w))).
      { revert Hraw. unfold bytes_at.
        destruct (Z.ltb_spec (cur w) 0); [discriminate|].
        destruct (Z.eqb_spec
                    (Z.of_nat (length (firstn (Z.to_nat sizeof_IMPORT_DESCRIPTOR)
                                              (skipn (Z.to_nat (cur w)) (file w)))))
                    sizeof_IMPORT_DESCRIPTOR) as [E|E]; [|discriminate].
        intros _. apply chunk_length in E; [exact E | assumption | reflexivity]. }
      apply IH in Hrun; [|cbn; unfold sizeof_IMPORT_DESCRIPTOR; lia].
      cbn [cur file set_cur] in Hrun. right.
      destruct Hrun as [->|Hrun]; rewrite ?length_app in *; cbn [length] in *;
        unfold sizeof_IMPORT_DESCRIPTOR in *; lia.
    + io. intros [= <- <- <-]. now left.
Qed.

(** X6.  Whatever the header fields of a file say, the walker does not
    store more than the file has room for: no more descriptors than
    20-byte records fit the file, no more DLL names than descriptors, and
    for every DLL no more symbol names than thunk entries fit the file.
    So the count taken from a directory size of 0, which wraps around to
    4294967295, still ends the first loop at the end of the file. *)
Theorem walker_is_bounded_by_the_file :
  forall t Path N Secs old w,
  exists code imps w',
    ReadImportDescriptors t Path N Secs old w = Some ((code, imps), w')
    /\ sizeof_IMPORT_DESCRIPTOR * Z.of_nat (length (ImportDescriptors imps))
       <= Z.of_nat (length (file w))
    /\ (length (ImportDllNames imps) <= length (ImportDescriptors imps))%nat
    /\ Forall (fits_file t (length (file w))) (ImportThunkNames imps).
Proof.
  intros t Path N Secs old w.
  destruct (ReadImportDescriptors_total t Path N Secs old w)
    as ([code imps] & w' & Hrun).
  exists code, imps, w'. split; [exact Hrun|].
  revert Hrun. unfold ReadImportDescriptors. io.
  destruct (Z.ltb_spec (to_long (SectionRvaFileOffset (NumberOfSections N) Secs
                                   (ImportDirectoryVirtualAddress t N))) 0)
    as [Hlt|Hge]; io.
  { intros [= <- <- <-].
    cbn [ImportDescriptors ImportDllNames ImportThunkNames length].
    split; [unfold sizeof_IMPORT_DESCRIPTOR; lia|]. split; [lia|constructor]. }
  destruct (ReadDescriptors_loop _ _ _ _ _ _) as [[[c descs] w2]|] eqn:Hloop;
    [|discriminate].
  pose proof (ReadDescriptors_loop_effects _ _ _ _ _ _ _ _ _ Hloop)
    as (Hf & _).
  apply ReadDescriptors_loop_bound in Hloop; [|exact Hge].
  cbn [file cur length] in Hf, Hloop.
  assert (Hdescs : sizeof_IMPORT_DESCRIPTOR * Z.of_nat (length descs)
                   <= Z.of_nat (length (file w))).
  { destruct Hloop as [->|Hb]; cbn [length];
      unfold sizeof_IMPORT_DESCRIPTOR in *; lia. }
  destruct (negb (c =? 0)).
  { intros [= <- <- <-].
    cbn [ImportDescriptors ImportDllNames ImportThunkNames length].
    split; [exact Hdescs|]. split; [lia|constructor]. }
  destruct (ReadNames_loop _ _ _ _ _ _ _ _ _) as [[[[c' dlls] thunks] w4]|]
    eqn:Hnames; [|discriminate].
  pose proof (ReadNames_loop_dll_names _ _ _ _ _ _ _ _ _ _ _ _ _ Hnames)
    as (names & Hd & Hle & _).
  apply ReadNames_loop_bound in Hnames.
  intros [= <- <- <-].
  cbn [ImportDescriptors ImportDllNames ImportThunkNames].
  cbn [app] in Hd. subst dlls.
  split; [exact Hdescs|]. split; [exact Hle|].
  rewrite Hf in Hnames. apply Hnames. constructor.
Qed.


(** ** The match count, name by name *)

Lemma matches_count (imps names : list (list byte)) :
  length (flat_map (fun name => filter (name_eqb name) imps) names)
  = list_sum (map (fun imp =>
                     length (filter (fun name => name_eqb name imp) names))
                  imps).
Proof.
  induction names as [|a names IH].
  - cbn. induction imps as [|imp imps IHi]; [reflexivity|].
    cbn. exact IHi.
  - cbn [flat_map]. rewrite length_app, IH. clear IH.
    induction imps as [|imp imps IHi]; [reflexivity|].
    rewrite !map_cons.
    change (filter (name_eqb a) (imp :: imps))
      with (if name_eqb a imp then imp :: filter (name_eqb a) imps
            else filter (name_eqb a) imps).
    change (filter (fun name => name_eqb name imp) (a :: names))
      with (if name_eqb a imp
            then a :: filter (fun name => name_eqb name imp) names
            else filter (fun name => name_eqb name imp) names).
    unfold list_sum in *. cbn [fold_right].
    destruct (name_eqb a imp); cbn [length]; lia.
Qed.

(** X8.  The match count of a file is the sum, over the requested names,
    of the number of times the name stands in the symbol lists of the
    file: a name requested twice is counted twice, a symbol imported from
    two DLLs is counted twice, and the order of the requested names does
    not change the count. *)
Theorem importCount_sums_occurrences :
  forall imps thunks,
    snd (match_dlls (Z.of_nat (length imps)) thunks imps [] 0)
    = Z.of_nat (list_sum (map (fun imp => occurrences imp thunks) imps)).
Proof.
  intros imps thunks. rewrite match_dlls_matches. cbn [snd].
  unfold matches, occurrences. now rewrite matches_count.
Qed.

(** ** When a file is reported *)

(** A file that the four readers accept is reported when one of its
    symbols matches, and passed over in silence otherwise. *)
Lemma ScanFile_accepted t ext imps e v w bytes N Secs found :
  extension e = ext ->
  contents e = Some bytes ->
  parsed t (path e) bytes v w N Secs found ->
  exists v' w',
    ScanFile t ext imps e v w
    = Some ((match matches imps (ImportThunkNames found) with
             | [] => NoMatch
             | _ :: _ => Reported
             end, v'), w').
Proof.
  intros Hext Hbytes (D1 & w1 & D2 & w2 & w3 & w4 & H1 & H2 & H3 & H4).
  unfold ScanFile. rewrite Hext, String.eqb_refl, Hbytes. cbn [negb].
  rewrite bind_fopen. fold (opened bytes w).
  rewrite (bind_run _ _ _ _ _ H1).
  cbn [negb Z.eqb DosHeader NtHeaders Sections imports numResults].
  rewrite (bind_run _ _ _ _ _ H2).
  cbn [negb Z.eqb DosHeader NtHeaders Sections imports numResults].
  rewrite (bind_run _ _ _ _ _ H3).
  cbn [negb Z.eqb DosHeader NtHeaders Sections imports numResults].
  rewrite (bind_run _ _ _ _ _ H4).
  cbn [negb Z.eqb DosHeader NtHeaders Sections imports numResults].
  rewrite match_dlls_matches.
  destruct (matches imps (ImportThunkNames found)) as [|m ms].
  - cbn [length Z.of_nat negb Z.eqb]. io. eauto.
  - cbn [length Z.of_nat negb Z.eqb]. io. eauto.
Qed.

(** X9.  The body of the loop reports a directory entry exactly when the
    entry has the requested extension, can be opened, is accepted by the
    four readers one after the other, and the symbol lists read from it
    hold a requested name; it passes the entry over in silence, as one
    without a match, exactly when the four readers accept it and the
    lists hold none. *)
Theorem reported_iff_accepted_and_matching :
  forall t ext imps e v w,
  exists vd v' w',
    ScanFile t ext imps e v w = Some ((vd, v'), w')
    /\ (vd = Reported <->
        extension e = ext
        /\ exists bytes N Secs found,
            contents e = Some bytes
            /\ parsed t (path e) bytes v w N Secs found
            /\ matches imps (ImportThunkNames found) <> [])
    /\ (vd = NoMatch <->
        extension e = ext
        /\ exists bytes N Secs found,
            contents e = Some bytes
            /\ parsed t (path e) bytes v w N Secs found
            /\ matches imps (ImportThunkNames found) = []).
Proof.
  intros t ext imps e v w.
  destruct (ScanFile_cases t ext imps e v w)
    as (vd & v' & w' & report & Hrun & _ & Hcase).
  exists vd, v', w'. split; [exact Hrun|].
  assert (Hback : forall bytes N Secs found,
             extension e = ext -> contents e = Some bytes ->
             parsed t (path e) bytes v w N Secs found ->
             vd = match matches imps (ImportThunkNames found) with
                  | [] => NoMatch
                  | _ :: _ => Reported
                  end).
  { intros bytes N Secs found Hext Hbytes Hparsed.
    destruct (ScanFile_accepted t ext imps e v w bytes N Secs found
                Hext Hbytes Hparsed) as (v1 & w1 & Hrun1).
    rewrite Hrun in Hrun1. now injection Hrun1. }
  split; split.
  - intros ->. destruct Hcase as (_ & HM & _).
    destruct (ScanFile_parsed _ _ _ _ _ _ _ _ _ Hrun (or_introl eq_refl))
      as (bytes & Hbytes & Hext & Hparsed).
    split; [exact Hext|]. eauto 8.
  - intros (Hext & bytes & N & Secs & found & Hbytes & Hparsed & HM).
    rewrite (Hback _ _ _ _ Hext Hbytes Hparsed).
    destruct (matches imps (ImportThunkNames found)); congruence.
  - intros ->. destruct Hcase as (_ & _ & HM).
    destruct (ScanFile_parsed _ _ _ _ _ _ _ _ _ Hrun (or_intror eq_refl))
      as (bytes & Hbytes & Hext & Hparsed).
    split; [exact Hext|]. eauto 8.
  - intros (Hext & bytes & N & Secs & found & Hbytes & Hparsed & HM).
    rewrite (Hback _ _ _ _ Hext Hbytes Hparsed), HM. reflexivity.
Qed.
